(** * Grid liquid physics of PhiFlow: a shallow embedding of
      [phi/physics/gridliquid.py] and the properties of its mask builders,
      extrapolation, pressure projection and stepper.

    Numbers are rationals ([Q]) in place of the floats of the array backend:
    the entries are finite numbers and the arithmetic is exact, so that NaN,
    the infinities, rounding and the wrap-around of integer arrays are
    outside the model.  Arrays are the [batch, spatial..., channel] tensors
    that every function of the module works on. *)

From Stdlib Require Import List ZArith QArith Qminmax Qround Qabs Lia Lqa Bool.
From stdpp Require Import base gmap.
Import ListNotations.
Open Scope Q_scope.

(** ** Results of calls that may raise *)

Inductive exn : Type :=
| ValueError
| AssertionError
| AttributeError
| NoSuchObject.   (* a reference into nothing; no Python run produces one *)

Inductive result (A : Type) : Type :=
| Ok (a : A)
| Raise (e : exn).
Arguments Ok {A} a.
Arguments Raise {A} e.

Definition rbind {A B : Type} (r : result A) (k : A -> result B) : result B :=
  match r with
  | Ok a => k a
  | Raise e => Raise e
  end.

Notation "'let*' x ':=' r 'in' k" := (rbind r (fun x => k))
  (at level 10, x name, r at level 100, k at level 200).

(** ** Tensors

    An array of the backend has shape [(batch, d_1, ..., d_rank, channels)].
    It is modelled by its shape and its read function; only the entries at
    indices inside the shape are meaningful. *)

Record Shape : Type := mkShape
  { batch : nat; spatial : list nat; channels : nat }.

Record Index : Type := mkIndex
  { ib : nat; cell : list nat; ich : nat }.

Record Tensor : Type := mkTensor
  { shape : Shape; get : Index -> Q }.

Definition spatial_rank (t : Tensor) : nat := length (spatial (shape t)).

Fixpoint cell_in (dims : list nat) (c : list nat) : bool :=
  match dims, c with
  | [], [] => true
  | n :: dims', i :: c' => (i <? n)%nat && cell_in dims' c'
  | _, _ => false
  end.

Definition in_range (sh : Shape) (idx : Index) : bool :=
  (ib idx <? batch sh)%nat && cell_in (spatial sh) (cell idx)
  && (ich idx <? channels sh)%nat.

(** All cells of a grid, first axis slowest (row-major order). *)
Fixpoint cells (dims : list nat) : list (list nat) :=
  match dims with
  | [] => [[]]
  | n :: dims' => flat_map (fun i => map (cons i) (cells dims')) (seq 0 n)
  end.

Definition indices (sh : Shape) : list Index :=
  flat_map (fun b =>
    flat_map (fun c => map (mkIndex b c) (seq 0 (channels sh)))
             (cells (spatial sh)))
    (seq 0 (batch sh)).

Definition entries (t : Tensor) : list Q := map (get t) (indices (shape t)).

(** Broadcasting of an axis of length one, as numpy does it for the batch and
    the channel axis. *)
Definition bdim (a b : nat) : nat := if (a =? 1)%nat then b else a.

Definition bshape (s1 s2 : Shape) : Shape :=
  mkShape (bdim (batch s1) (batch s2)) (spatial s1)
          (bdim (channels s1) (channels s2)).

Definition bidx (sh : Shape) (idx : Index) : Index :=
  mkIndex (if (batch sh =? 1)%nat then 0%nat else ib idx)
          (cell idx)
          (if (channels sh =? 1)%nat then 0%nat else ich idx).

Definition bget (t : Tensor) (idx : Index) : Q := get t (bidx (shape t) idx).

Definition Qltb (x y : Q) : bool := negb (Qle_bool y x).

(** ** Padding and slicing

    Every call of [math.pad] and every subscript of the module leaves the batch
    and the channel axis alone ([[0,0]] and [slice(None)]), so [pad] and
    [getitem] take the entries of the spatial axes only. *)

Inductive pad_mode : Type := constant | symmetric.

(** Where entry [j] of an axis of length [n], padded by [(lo, hi)], comes
    from: [None] is the constant 0.  The symmetric mode mirrors at the edge,
    the edge entry included; one mirror image is all that pads of width at
    most [n] read. *)
Definition pad_axis (mode : pad_mode) (n : nat) (p : nat * nat) (j : nat)
  : option nat :=
  if (j <? fst p)%nat then
    match mode with
    | constant => None
    | symmetric => Some (fst p - 1 - j)%nat
    end
  else if (j <? fst p + n)%nat then Some (j - fst p)%nat
  else
    match mode with
    | constant => None
    | symmetric => Some (2 * n + fst p - 1 - j)%nat
    end.

Fixpoint pad_cell (mode : pad_mode) (dims : list nat) (pads : list (nat * nat))
  (c : list nat) : option (list nat) :=
  match dims, pads, c with
  | n :: dims', p :: pads', j :: c' =>
      match pad_axis mode n p j, pad_cell mode dims' pads' c' with
      | Some i, Some r => Some (i :: r)
      | _, _ => None
      end
  | _, _, _ => Some []
  end.

Fixpoint pad_dims (dims : list nat) (pads : list (nat * nat)) : list nat :=
  match dims, pads with
  | n :: dims', p :: pads' => (fst p + n + snd p)%nat :: pad_dims dims' pads'
  | _, _ => []
  end.

Record Slice : Type := slice { start : option Z; stop : option Z }.

(** A bound of a Python slice on an axis of length [n]: negative bounds count
    from the end, and the result is clipped to the axis. *)
Definition slice_bound (n : nat) (b : Z) : nat :=
  Z.to_nat (Z.min (Z.of_nat n)
                  (Z.max 0 (if (b <? 0)%Z then b + Z.of_nat n else b)%Z)).

Definition slice_start (n : nat) (s : Slice) : nat :=
  match start s with
  | None => 0%nat
  | Some a => slice_bound n a
  end.

Definition slice_stop (n : nat) (s : Slice) : nat :=
  match stop s with
  | None => n
  | Some b => slice_bound n b
  end.

Fixpoint slice_dims (dims : list nat) (sl : list Slice) : list nat :=
  match dims, sl with
  | n :: dims', s :: sl' =>
      (slice_stop n s - slice_start n s)%nat :: slice_dims dims' sl'
  | _, _ => []
  end.

Fixpoint slice_cell (dims : list nat) (sl : list Slice) (c : list nat)
  : list nat :=
  match dims, sl, c with
  | n :: dims', s :: sl', j :: c' =>
      (slice_start n s + j)%nat :: slice_cell dims' sl' c'
  | _, _, _ => []
  end.

(** [t[[slice(None)] + sl + [slice(None)]]] *)
Definition getitem (t : Tensor) (sl : list Slice) : Tensor :=
  mkTensor (mkShape (batch (shape t)) (slice_dims (spatial (shape t)) sl)
                    (channels (shape t)))
           (fun idx => get t (mkIndex (ib idx)
                                (slice_cell (spatial (shape t)) sl (cell idx))
                                (ich idx))).

(** ** The array operations of [phi.math] used by the module *)

Module math.

Definition map (f : Q -> Q) (t : Tensor) : Tensor :=
    mkTensor (shape t) (fun idx => f (get t idx)).

Definition zip (f : Q -> Q -> Q) (a b : Tensor) : Tensor :=
    mkTensor (bshape (shape a) (shape b))
             (fun idx => f (bget a idx) (bget b idx)).

Definition abs : Tensor -> Tensor := map Qabs.
Definition ceil : Tensor -> Tensor :=
    map (fun x => inject_Z (Qceiling x)).
Definition scale (k : Q) : Tensor -> Tensor := map (Qmult k).
Definition divide (t : Tensor) (k : Q) : Tensor := map (fun x => x / k) t.
Definition minus (t : Tensor) (k : Q) : Tensor := map (fun x => x - k) t.
Definition add2 : Tensor -> Tensor -> Tensor := zip Qplus.
Definition sub : Tensor -> Tensor -> Tensor := zip Qminus.
Definition mul : Tensor -> Tensor -> Tensor := zip Qmult.
Definition maximum : Tensor -> Tensor -> Tensor := zip Qmax.

Definition zeros (sh : Shape) : Tensor := mkTensor sh (fun _ => 0).
Definition zeros_like (t : Tensor) : Tensor := zeros (shape t).
Definition ones_like (t : Tensor) : Tensor := mkTensor (shape t) (fun _ => 1).

  (** [max] of all entries; the backend raises on an array without entries. *)
Definition max (t : Tensor) : result Q :=
    match entries t with
    | [] => Raise ValueError
    | v :: vs => Ok (fold_left Qmax vs v)
    end.

  (** [where(cond, a, b)]; conditions are arrays of 0 (false) and 1
      (true), and an entry selects [a] where it is not zero. *)
Definition where_ (cond a b : Tensor) : Tensor :=
    mkTensor (bshape (shape cond) (bshape (shape a) (shape b)))
             (fun idx => if Qeq_bool (bget cond idx) 0
                         then bget b idx else bget a idx).

  (** [math.pad(t, [[0,0]] + pads + [[0,0]], mode)], where it returns: the
      backend refuses to extend an axis of length 0 in the symmetric mode and
      raises [ValueError] there, so the functions that pad symmetrically are
      modelled on grids without an empty axis. *)
Definition pad (t : Tensor) (pads : list (nat * nat)) (mode : pad_mode)
    : Tensor :=
    mkTensor (mkShape (batch (shape t)) (pad_dims (spatial (shape t)) pads)
                      (channels (shape t)))
             (fun idx =>
                match pad_cell mode (spatial (shape t)) pads (cell idx) with
                | Some c => get t (mkIndex (ib idx) c (ich idx))
                | None => 0
                end).


  (** Comparisons and the conjunction of conditions, entry by entry. *)
Definition less : Tensor -> Tensor -> Tensor :=
    zip (fun x y => if Qltb x y then 1 else 0).
Definition greater_equal (t : Tensor) (k : Q) : Tensor :=
    map (fun x => if Qle_bool k x then 1 else 0) t.
Definition logical_and : Tensor -> Tensor -> Tensor :=
    zip (fun x y => if Qeq_bool x 0 then 0 else if Qeq_bool y 0 then 0 else 1).

  (** [concat(ts, axis=-1)]: the arrays side by side along the channel axis.
      The module never concatenates an empty list. *)
Fixpoint concat_get (ts : list Tensor) (idx : Index) : Q :=
    match ts with
    | [] => 0
    | t :: ts' =>
        if (ich idx <? channels (shape t))%nat then get t idx
        else concat_get ts' (mkIndex (ib idx) (cell idx)
                                     (ich idx - channels (shape t))%nat)
    end.

Definition concat (ts : list Tensor) : Tensor :=
    mkTensor (mkShape (batch (shape (hd (zeros (mkShape 0 [] 0)) ts)))
                      (spatial (shape (hd (zeros (mkShape 0 [] 0)) ts)))
                      (fold_right (fun t n => (channels (shape t) + n)%nat)
                                  0%nat ts))
             (concat_get ts).

  (** [add(ts)]: the sum of a non-empty list of arrays. *)
Definition add (ts : list Tensor) : Tensor :=
    match ts with
    | [] => zeros (mkShape 0 [] 0)
    | t :: ts' => fold_left add2 ts' t
    end.

End math.

Inductive Field : Type :=
| Array (t : Tensor)
| StaggeredGrid (staggered : Tensor).

(** ** [create_binary_mask] *)

Definition create_binary_mask (field : Field) (threshold : Q) : result Tensor :=
  let field := match field with
               | StaggeredGrid staggered => staggered
               | Array t => t
               end in
  let* f_max := math.max (math.abs field) in
  let scaled_field :=
    if negb (Qeq_bool f_max 0)
    then math.divide (math.abs field) f_max
    else math.scale 0 field in
  let binary_mask := math.ceil (math.minus scaled_field threshold) in
  Ok binary_mask.


(** ** [create_surface_mask] *)

(** The body of the loop over the axes: the contour found along axis [d]
    joins the contour found so far. *)
Definition surface_axis (mask : Tensor) (dims : list nat) (bcs : Tensor)
  (d : nat) : Tensor :=
  let upper_slices :=
    map (fun i => if (i =? d)%nat then slice (Some 2%Z) None
                  else slice (Some 1%Z) (Some (-1)%Z)) dims in
  let center_slices :=
    map (fun _ => slice (Some 1%Z) (Some (-1)%Z)) dims in
  let lower_slices :=
    map (fun i => if (i =? d)%nat then slice (Some 0%Z) (Some (-2)%Z)
                  else slice (Some 1%Z) (Some (-1)%Z)) dims in
  let bc_d :=
    math.sub (math.maximum (getitem mask upper_slices)
                           (getitem mask center_slices))
             (getitem mask upper_slices) in
  let bcs := math.maximum bcs bc_d in
  let bc_d :=
    math.sub (math.maximum (getitem mask center_slices)
                           (getitem mask lower_slices))
             (getitem mask lower_slices) in
  math.maximum bcs bc_d.

Definition create_surface_mask (particle_mask : Tensor) : Tensor :=
  let mask := math.pad particle_mask
                (repeat (1%nat, 1%nat) (spatial_rank particle_mask)) symmetric in
  let dims := seq 0 (spatial_rank mask) in
  let bcs := math.zeros_like particle_mask in
  fold_left (surface_axis mask dims) dims bcs.

(** ** [extrapolate] *)

Definition field_tensor (f : Field) : Tensor :=
  match f with
  | Array t => t
  | StaggeredGrid staggered => staggered
  end.

Definition is_staggered (f : Field) : bool :=
  match f with
  | Array _ => false
  | StaggeredGrid _ => true
  end.

(** [itertools.product] of the pools, the first pool varying slowest. *)
Fixpoint product (pools : list (list Z)) : list (list Z) :=
  match pools with
  | [] => [[]]
  | pool :: pools' =>
      flat_map (fun x => map (cons x) (product pools')) pool
  end.

Definition dot (a b : list Z) : Z :=
  fold_left Z.add (map (fun p => (fst p * snd p)%Z) (combine a b)) 0%Z.

Section Extrapolation.

  (** [np.sqrt] at the integer [d.dot(d)]. *)
Variable np_sqrt : Z -> Q.

Variable dims : list nat.
Variable dx : Q.
Variable signs : Tensor.

  (** The per-axis padding and the subscript that shift an array by the offset
      [d]: the symmetric padding repeats the edge entry. *)
Definition d_pads (d : list Z) : list (nat * nat) :=
    map (fun i => if (nth i d 0 =? -1)%Z then (0%nat, 1%nat)
                  else if (nth i d 0 =? 1)%Z then (1%nat, 0%nat)
                  else (0%nat, 0%nat)) dims.

Definition d_slice (d : list Z) : list Slice :=
    map (fun i => if (nth i d 0 =? -1)%Z then slice (Some 1%Z) None
                  else if (nth i d 0 =? 1)%Z then slice (Some 0%Z) (Some (-1)%Z)
                  else slice None None) dims.

Definition shifted (d : list Z) (x : Tensor) : Tensor :=
    getitem (math.pad x (d_pads d) symmetric) (d_slice d).

Definition candidate (d : list Z) (s_distance : Tensor) : Tensor :=
    math.add2 (shifted d s_distance)
              (math.scale (dx * np_sqrt (dot d d)) signs).

Definition improves (d_dist s_distance : Tensor) : Tensor :=
    math.logical_and (math.less (math.abs d_dist) (math.abs s_distance))
                     (math.greater_equal signs 0).

  (** The body of the relaxation loop for one offset [d], on the pair
      [(ext_field, s_distance)]. *)
Definition relax (d : list Z) (st : Tensor * Tensor) : Tensor * Tensor :=
    let '(ext_field, s_distance) := st in
    let d_field := shifted d ext_field in
    let d_dist := candidate d s_distance in
    let updates := improves d_dist s_distance in
    let ext_field :=
      math.where_ (math.concat (repeat updates (spatial_rank ext_field)))
                  d_field ext_field in
    let s_distance := math.where_ updates d_dist s_distance in
    (ext_field, s_distance).

  (** The body of the first pass over a staggered field. *)
Definition prime (d : list Z) (st : Tensor * Tensor) : Tensor * Tensor :=
    let '(ext_field, s_distance) := st in
    if forallb (fun x => (x <=? 0)%Z) d then st
    else
      let d_field := shifted d ext_field in
      let d_dist := candidate d s_distance in
      if (dot d d =? 1)%Z && forallb (fun x => (0 <=? x)%Z) d then
        let updates := improves d_dist s_distance in
        let ext_field :=
          math.where_
            (math.concat
               (map (fun i => if (nth i d 0 =? 1)%Z
                              then math.zeros_like updates else updates) dims))
            d_field ext_field in
        let s_distance := math.where_ updates d_dist s_distance in
        (ext_field, s_distance)
      else st.

Definition directions : list (list Z) :=
    product (repeat [-1; 0; 1]%Z (length dims)).

  (** One round of [for d in directions] of the relaxation loop. *)
Definition sweep (st : Tensor * Tensor) : Tensor * Tensor :=
    fold_left (fun st d => if forallb (Z.eqb 0) d then st else relax d st)
              directions st.

End Extrapolation.

(** The occupancy mask as the loops see it: a staggered field has one more
    sample per axis, and the mask is padded with zeros to match. *)
Definition occupancy (input_field : Field) (particle_mask : Tensor) : Tensor :=
  if is_staggered input_field
  then math.pad particle_mask
         (repeat (0%nat, 1%nat) (spatial_rank (field_tensor input_field)))
         constant
  else particle_mask.

(** [signs = -1 * (2*particle_mask - 1)] *)
Definition signs_of (particle_mask : Tensor) : Tensor :=
  math.scale (-1) (math.minus (math.scale 2 particle_mask) 1).

(** The pair [(ext_field, s_distance)] before the loops. *)
Definition extrapolate_init (input_field : Field) (particle_mask : Tensor)
  (distance : Z) : Tensor * Tensor :=
  let ext_field :=
    match input_field with
    | Array t => math.scale 1 t
    | StaggeredGrid staggered => staggered
    end in
  let particle_mask := occupancy input_field particle_mask in
  let s_distance :=
    math.scale (-2 * (inject_Z distance + 1))
               (math.minus (math.scale 2 particle_mask) 1) in
  let surface_mask := create_surface_mask particle_mask in
  let s_distance :=
    math.where_ (math.greater_equal surface_mask 1)
                (math.scale 0 (math.ones_like s_distance)) s_distance in
  (ext_field, s_distance).

(** The pair [(ext_field, s_distance)] after the loops. *)
Definition extrapolate_loops (np_sqrt : Z -> Q) (input_field : Field)
  (particle_mask : Tensor) (dx : Q) (distance : Z) : Tensor * Tensor :=
  let dims := seq 0 (spatial_rank (field_tensor input_field)) in
  let signs := signs_of (occupancy input_field particle_mask) in
  let st := extrapolate_init input_field particle_mask distance in
  let st :=
    if is_staggered input_field
    then fold_left (fun st d => prime np_sqrt dims dx signs d st)
                   (directions dims) st
    else st in
  Nat.iter (Z.to_nat distance) (sweep np_sqrt dims dx signs) st.

Definition extrapolate (np_sqrt : Z -> Q) (input_field : Field)
  (particle_mask : Tensor) (dx : Q) (distance : Z) : Tensor * Field :=
  let dims := seq 0 (spatial_rank (field_tensor input_field)) in
  let '(ext_field, s_distance) :=
    extrapolate_loops np_sqrt input_field particle_mask dx distance in
  if is_staggered input_field
  then (getitem s_distance (map (fun _ => slice (Some 0%Z) (Some (-1)%Z)) dims),
        StaggeredGrid ext_field)
  else (s_distance, Array ext_field).

(** ** States, domain caches and the heap

    A [GridLiquid] state and a [DomainCache] are Python objects: they live in
    a heap and are passed by reference, so that an assignment to an attribute
    is seen through every reference to the object. *)

Definition loc : Type := nat.

Set Implicit Arguments.

Section Physics.

  (** The collaborators of the module that are not part of it: the domain and
      its grid, obstacle and inflow geometry. *)
Variables Domain Grid Geometry : Type.

Record Obstacle : Type := mkObstacle { o_geometry : Geometry }.

Record Inflow : Type := mkInflow { i_geometry : Geometry; rate : Q }.

  (** [DomainCache(domain, obstacles, active=..., accessible=...)] *)
Record DomainCache : Type := mkDomainCache
    { dc_domain : Domain;
      dc_obstacles : list Obstacle;
      _active : Tensor;
      _accessible : Tensor }.

Record GridLiquid : Type := mkGridLiquid
    { _domain : Domain;
      _density : Tensor;
      _velocity : Field;
      _gravity : list Q;
      age : Q;
      domaincache : option loc;
      _last_pressure : option Tensor;
      _last_pressure_iterations : option nat }.

  (** A pressure solver: [solve(divergence, domaincache, pressure_guess)]. *)
Record PressureSolver : Type := mkSolver
    { solve : Tensor -> DomainCache -> option Tensor -> Tensor * nat }.

Record Heap : Type := mkHeap
    { states : gmap loc GridLiquid;
      caches : gmap loc DomainCache }.

  (** What the module calls and does not define. *)
Record Externals : Type := mkExternals
    { np_sqrt : Z -> Q;
      grid : Domain -> Grid;
      rank : Domain -> nat;
      grid_shape : Grid -> Shape;
      center_points : Grid -> Tensor;
      geometry_mask : list Geometry -> Grid -> Tensor;
      value_at : Geometry -> Tensor -> Tensor;
      is_valid : DomainCache -> list Obstacle -> bool;
      hard_boundary : DomainCache -> Tensor -> Tensor;
      staggered_divergence : Tensor -> Tensor;
      nd_divergence_central : Tensor -> Tensor;
      staggered_gradient : Tensor -> Tensor;
      advect : Field -> Field -> Q -> Field;
      SparseCG : PressureSolver }.

Variable X : Externals.

  (** *** The heap monad *)

Definition M (A : Type) : Type := Heap -> result (A * Heap).

Definition ret {A : Type} (a : A) : M A := fun h => Ok (a, h).

Definition bind {A B : Type} (m : M A) (k : A -> M B) : M B :=
    fun h => match m h with
             | Ok (a, h') => k a h'
             | Raise e => Raise e
             end.

Definition lift {A : Type} (r : result A) : M A :=
    fun h => match r with
             | Ok a => Ok (a, h)
             | Raise e => Raise e
             end.

Definition raise {A : Type} (e : exn) : M A := fun _ => Raise e.

Definition read_state (s : loc) : M GridLiquid :=
    fun h => match states h !! s with
             | Some st => Ok (st, h)
             | None => Raise NoSuchObject
             end.

Definition read_cache (c : loc) : M DomainCache :=
    fun h => match caches h !! c with
             | Some dc => Ok (dc, h)
             | None => Raise NoSuchObject
             end.

Definition write_state (s : loc) (st : GridLiquid) : M unit :=
    fun h => Ok (tt, mkHeap (<[s := st]> (states h)) (caches h)).

Definition write_cache (c : loc) (dc : DomainCache) : M unit :=
    fun h => Ok (tt, mkHeap (states h) (<[c := dc]> (caches h))).

Definition new_state (st : GridLiquid) : M loc :=
    fun h => let s := fresh (dom (states h)) in
             Ok (s, mkHeap (<[s := st]> (states h)) (caches h)).

Definition new_cache (dc : DomainCache) : M loc :=
    fun h => let c := fresh (dom (caches h)) in
             Ok (c, mkHeap (states h) (<[c := dc]> (caches h))).

Notation "'let!' x ':=' m 'in' k" := (bind m (fun x => k))
    (at level 10, x name, m at level 100, k at level 200).

  (** Modelled from the spec: [DomainCache.active()] and
      [DomainCache.accessible()] are not in the sources; they expose the
      active and the accessible mask of the cache. *)
Definition active (dc : DomainCache) : Tensor := _active dc.
Definition accessible (dc : DomainCache) : Tensor := _accessible dc.

  (** Modelled from the spec: [DomainCache.with_hard_boundary_conditions] is
      not in the sources; it zeroes the velocity components that point into
      inaccessible cells and gives back a field of the kind it is given. *)
Definition with_hard_boundary_conditions (dc : DomainCache) (f : Field)
    : Field :=
    match f with
    | Array t => Array (hard_boundary X dc t)
    | StaggeredGrid staggered => StaggeredGrid (hard_boundary X dc staggered)
    end.

  (** Modelled from the spec: [State.copied_with] is not in the sources; it is
      the copy-with-changes of the state, a new object that has the attributes
      of the receiver except the ones given.  The attribute setters of
      [GridLiquid] pass arrays through [initialize_field] unchanged. *)
Definition copied_with (state : loc) (changes : GridLiquid -> GridLiquid)
    : M loc :=
    let! st := read_state state in
    new_state (changes st).

Definition with_velocity (velocity : Field) (st : GridLiquid) : GridLiquid :=
    mkGridLiquid (_domain st) (_density st) velocity (_gravity st) (age st)
                 (domaincache st) (_last_pressure st)
                 (_last_pressure_iterations st).

Definition with_density_velocity_age (density : Tensor) (velocity : Field)
    (a : Q) (st : GridLiquid) : GridLiquid :=
    mkGridLiquid (_domain st) density velocity (_gravity st) a
                 (domaincache st) (_last_pressure st)
                 (_last_pressure_iterations st).

  (** [state.domaincache = c] *)
Definition set_domaincache (c : loc) (st : GridLiquid) : GridLiquid :=
    mkGridLiquid (_domain st) (_density st) (_velocity st) (_gravity st)
                 (age st) (Some c) (_last_pressure st)
                 (_last_pressure_iterations st).

  (** [state._last_pressure = pressure; state._last_pressure_iterations = iter] *)
Definition set_last_pressure (pressure : Tensor) (iter : nat)
    (st : GridLiquid) : GridLiquid :=
    mkGridLiquid (_domain st) (_density st) (_velocity st) (_gravity st)
                 (age st) (domaincache st) (Some pressure) (Some iter).

  (** [domaincache._active = active_mask] *)
Definition set_active (active_mask : Tensor) (dc : DomainCache)
    : DomainCache :=
    mkDomainCache (dc_domain dc) (dc_obstacles dc) active_mask (_accessible dc).

  (** *** [domain] *)

Definition domain (state : loc) (obstacles : list Obstacle) : M loc :=
    let! st := read_state state in
    let recompute (prior : option DomainCache) : M loc :=
      let mask :=
        math.map (fun x => 1 - x)
          (geometry_mask X (map o_geometry obstacles) (grid X (_domain st))) in
      let active_mask :=
        match prior with
        | None => mask
        | Some dc => math.mul mask (active dc)
        end in
      let! c := new_cache (mkDomainCache (_domain st) obstacles
                                         active_mask mask) in
      let! _ := write_state state (set_domaincache c st) in
      ret c in
    match domaincache st with
    | None => recompute None
    | Some c =>
        let! dc := read_cache c in
        if negb (is_valid X dc obstacles) then recompute (Some dc)
        else ret c
    end.

  (** *** [inflow] *)

Definition inflow (inflows : list Inflow) (g : Grid) : Tensor :=
    if (length inflows =? 0)%nat then math.zeros (grid_shape X g)
    else
      let location := center_points X g in
      math.add (map (fun i => math.map (fun x => x * rate i)
                                       (value_at X (i_geometry i) location))
                    inflows).

  (** *** [solve_pressure] and [divergence_free] *)

  (** What [solve_pressure] and [divergence_free] are given and give back: a
      state or a field. *)
Inductive Source : Type :=
  | OfState (s : loc)
  | OfField (f : Field).

Definition solve_pressure (input_field : Source) (domaincache : loc)
    (pressure_solver : option PressureSolver) : M (Tensor * nat) :=
    let! dc := read_cache domaincache in
    let! div :=
      match input_field with
      | OfState s =>
          let! st := read_state s in
          match _velocity st with
          | StaggeredGrid staggered => ret (staggered_divergence X staggered)
          | Array _ => raise AttributeError
          end
      | OfField (StaggeredGrid staggered) =>
          ret (staggered_divergence X staggered)
      | OfField (Array t) =>
          if (channels (shape t) =? rank X (dc_domain dc))%nat
          then ret (nd_divergence_central X t)
          else raise ValueError
      end in
    let pressure_solver :=
      match pressure_solver with
      | None => SparseCG X
      | Some solver => solver
      end in
    ret (solve pressure_solver div dc None).

  (** [velocity - gradp] on staggered grids. *)
Definition staggered_sub (velocity : Tensor) (other : Field) : Field :=
    StaggeredGrid (math.sub velocity (field_tensor other)).

  (** [field + vector]: the vector is added along the channel axis. *)
Definition add_vector (f : Field) (v : list Q) : Field :=
    let t := field_tensor f in
    let r :=
      mkTensor (mkShape (batch (shape t)) (spatial (shape t))
                        (bdim (channels (shape t)) (length v)))
               (fun idx => bget t idx
                           + nth (if (length v =? 1)%nat then 0%nat
                                  else ich idx) v 0) in
    match f with
    | Array _ => Array r
    | StaggeredGrid _ => StaggeredGrid r
    end.

  (** The body of [divergence_free] for an object that is not a state. *)
Definition divergence_free_field (obj : Field) (domaincache : loc)
    (pressure_solver : option PressureSolver) (state : option loc) : M Field :=
    match obj with
    | Array _ => raise AssertionError
    | StaggeredGrid velocity =>
        let! dc := read_cache domaincache in
        let ext_velocity :=
          snd (extrapolate (np_sqrt X) obj (active dc) 1 2) in
        let ext_velocity := with_hard_boundary_conditions dc ext_velocity in
        let! solved :=
          solve_pressure (OfField ext_velocity) domaincache pressure_solver in
        let pressure := fst solved in
        let iter := snd solved in
        let gradp := StaggeredGrid (staggered_gradient X pressure) in
        let velocity :=
          with_hard_boundary_conditions dc (staggered_sub velocity gradp) in
        let! _ :=
          match state with
          | Some s =>
              let! st := read_state s in
              write_state s (set_last_pressure pressure iter st)
          | None => ret tt
          end in
        ret velocity
    end.

Definition divergence_free (obj : Source) (domaincache : loc)
    (pressure_solver : option PressureSolver) (state : option loc) : M Source :=
    match obj with
    | OfState s =>
        let! st := read_state s in
        let! velocity :=
          divergence_free_field (_velocity st) domaincache None None in
        let! s' := copied_with s (with_velocity velocity) in
        ret (OfState s')
    | OfField f =>
        let! velocity :=
          divergence_free_field f domaincache pressure_solver state in
        ret (OfField velocity)
    end.

  (** *** [GridLiquidPhysics.step] *)

Record GridLiquidPhysics : Type := mkPhysics
    { pressure_solver : option PressureSolver }.

  (** The density before advection: [state.density + dt * inflow(...)]. *)
Definition inflow_density (dt : Q) (inflows : list Inflow) (st : GridLiquid)
    : Tensor :=
    math.scale dt (inflow inflows (grid X (_domain st))).

Definition step (self : GridLiquidPhysics) (state : loc) (dt : Q)
    (obstacles : list Obstacle) (inflows : list Inflow) : M loc :=
    let! domaincache := domain state obstacles in
    let! st := read_state state in
    let density := math.add2 (_density st) (inflow_density dt inflows st) in
    let! active_mask := lift (create_binary_mask (Array density) (1 # 2)) in
    let! dc := read_cache domaincache in
    let! _ := write_cache domaincache (set_active active_mask dc) in
    let forces := map (Qmult dt) (_gravity st) in
    let velocity := add_vector (_velocity st) forces in
    let! projected :=
      divergence_free (OfField velocity) domaincache (pressure_solver self)
                      (Some state) in
    match projected with
    | OfState _ => raise AttributeError
    | OfField velocity =>
        let! dc := read_cache domaincache in
        let ext_velocity :=
          snd (extrapolate (np_sqrt X) velocity (active dc) 1 30) in
        let ext_velocity := with_hard_boundary_conditions dc ext_velocity in
        let density :=
          field_tensor (advect X ext_velocity (Array density) dt) in
        let velocity := advect X ext_velocity ext_velocity dt in
        let! st := read_state state in
        copied_with state
          (with_density_velocity_age density velocity (age st + dt))
    end.

End Physics.

Unset Implicit Arguments.

(** ** Small arrays for examples *)

(** Arrays of one and two spatial axes written as lists, batch size and
    channel count one. *)
Definition line (l : list Q) : Tensor :=
  mkTensor (mkShape 1 [length l] 1)
           (fun idx => nth (hd 0%nat (cell idx)) l 0).

Definition plane (rows : list (list Q)) : Tensor :=
  mkTensor (mkShape 1 [length rows; length (hd [] rows)] 1)
           (fun idx => nth (nth 1 (cell idx) 0%nat)
                           (nth (hd 0%nat (cell idx)) rows []) 0).


Definition checkerboard : Tensor := plane [[1; 0]; [0; 1]].

(** ** The statements of the specification, for comparison with the code *)

(** An empty neighbour along some axis: the cell next to [idx] in the grid,
    one step up or down one axis, holds 0. *)
Fixpoint bump (d : nat) (f : nat -> nat) (c : list nat) : list nat :=
  match c, d with
  | [], _ => []
  | j :: c', O => f j :: c'
  | j :: c', S d' => j :: bump d' f c'
  end.

Definition at_cell (idx : Index) (c : list nat) : Index :=
  mkIndex (ib idx) c (ich idx).

Definition axis_test (mask : Tensor) (idx : Index) (d : nat) : bool :=
  let n := nth d (spatial (shape mask)) 0%nat in
  let j := nth d (cell idx) 0%nat in
  ((j + 1 <? n)%nat
   && Qeq_bool (get mask (at_cell idx (bump d S (cell idx)))) 0)
  || ((0 <? j)%nat
      && Qeq_bool (get mask (at_cell idx (bump d pred (cell idx)))) 0).

Definition empty_axis_neighbour (mask : Tensor) (idx : Index) : bool :=
  existsb (axis_test mask idx) (seq 0 (spatial_rank mask)).

Definition occupied_neighbour (mask : Tensor) (idx : Index) : bool :=
  existsb
    (fun d =>
       let n := nth d (spatial (shape mask)) 0%nat in
       let j := nth d (cell idx) 0%nat in
       ((j + 1 <? n)%nat
        && Qeq_bool (get mask (at_cell idx (bump d S (cell idx)))) 1)
       || ((0 <? j)%nat
           && Qeq_bool (get mask (at_cell idx (bump d pred (cell idx)))) 1))
    (seq 0 (spatial_rank mask)).

(** The inner contour: occupied cells with an empty neighbour. *)
Definition inner_contour (mask : Tensor) (idx : Index) : bool :=
  Qeq_bool (get mask idx) 1 && empty_axis_neighbour mask idx.

(** The contour on both sides of the interface, as the specification words
    it: occupied cells with an empty neighbour, and the other way round. *)
Definition two_sided_contour (mask : Tensor) (idx : Index) : bool :=
  inner_contour mask idx
  || (Qeq_bool (get mask idx) 0 && occupied_neighbour mask idx).

Definition binary (t : Tensor) : Prop :=
  forall idx, in_range (shape t) idx = true ->
              get t idx == 0 \/ get t idx == 1.

Section SnapshotSweep.

Variable np_sqrt : Z -> Q.
Variable dims : list nat.
Variable dx : Q.
Variable signs : Tensor.

  (** One sweep as the specification words it: every offset shifts the field
      and the distance of the start of the sweep, [st0]; where the candidate
      improves on the current distance it overwrites the field and the
      distance of the sweep with the shifted values. *)
Definition relax_snapshot (st0 : Tensor * Tensor) (d : list Z)
    (st : Tensor * Tensor) : Tensor * Tensor :=
    let d_field := shifted dims d (fst st0) in
    let d_dist := candidate np_sqrt dims dx signs d (snd st0) in
    let updates := improves signs d_dist (snd st) in
    (math.where_ (math.concat (repeat updates (spatial_rank (fst st))))
                 d_field (fst st),
     math.where_ updates d_dist (snd st)).

Definition sweep_snapshot (st0 : Tensor * Tensor) : Tensor * Tensor :=
    fold_left (fun st d => if forallb (Z.eqb 0) d then st
                           else relax_snapshot st0 d st)
              (directions dims) st0.

End SnapshotSweep.

(** ** A small world for examples

    One axis, no obstacles in the way of the boundary conditions, a solver
    that answers at once. *)

Module Toy.

Definition sqrt (z : Z) : Q := inject_Z (Z.sqrt z).

Definition cg : PressureSolver (list nat) Tensor :=
    mkSolver (fun div _ _ => (math.zeros_like div, 0%nat)).

Definition jacobi : PressureSolver (list nat) Tensor :=
    mkSolver (fun div _ _ => (div, 7%nat)).

Definition world : Externals (list nat) (list nat) Tensor :=
    mkExternals
      sqrt
      (fun domain => domain)
      (fun domain => length domain)
      (fun g => mkShape 1 g 1)
      (fun g => math.zeros (mkShape 1 g 1))
      (fun geometries g =>
         fold_left math.maximum geometries (math.zeros (mkShape 1 g 1)))
      (fun geometry _ => geometry)
      (fun dc obstacles =>
         (length (dc_obstacles dc) =? length obstacles)%nat)
      (fun _ t => t)
      (fun v => math.zeros_like v)
      (fun t => math.zeros_like t)
      (fun p => p)
      (fun _ f _ => f)
      cg.

Definition liquid : GridLiquid (list nat) :=
    mkGridLiquid [3%nat] (line [1; 1; 0])
                 (StaggeredGrid (line [0; 0; 0; 0])) [-(1)] 0
                 None None None.

Definition heap : Heap (list nat) Tensor :=
    mkHeap {[ 0%nat := liquid ]} ∅.

Definition cache : DomainCache (list nat) Tensor :=
    mkDomainCache [3%nat] []
                  (line [1; 1; 1]) (line [1; 1; 1]).

Definition cached_liquid : GridLiquid (list nat) :=
    mkGridLiquid [3%nat] (line [1; 1; 0])
                 (StaggeredGrid (line [0; 0; 0; 0])) [-(1)] 0
                 (Some 0%nat) None None.

Definition cached_heap : Heap (list nat) Tensor :=
    mkHeap {[ 0%nat := cached_liquid ]} {[ 0%nat := cache ]}.

Definition physics : GridLiquidPhysics (list nat) Tensor :=
    mkPhysics (Some jacobi).

End Toy.

(** ** A second world for the examples: a channel closed at its lower end

    One axis, a wall at the first face, differences for the divergence and
    the gradient, and a solver that halves the divergence. *)

Module Lab.

  (** [np.sqrt] on the integers that occur: exact on the squares, to three
      decimals at 2. *)
Definition sqrt (z : Z) : Q :=
    if (z =? 2)%Z then 1414 # 1000 else inject_Z (Z.sqrt z).

  (** The first face of the channel is a wall. *)
Definition closed_end (t : Tensor) : Tensor :=
    mkTensor (shape t)
             (fun idx => if (hd 0%nat (cell idx) =? 0)%nat then 0
                         else get t idx).

  (** The divergence of the faces, cell by cell. *)
Definition divergence (v : Tensor) : Tensor :=
    mkTensor (mkShape (batch (shape v))
                      [pred (hd 0%nat (spatial (shape v)))] 1)
             (fun idx => get v (at_cell idx [S (hd 0%nat (cell idx))])
                         - get v idx).

  (** The gradient of the cells, face by face, with 0 outside. *)
Definition gradient (p : Tensor) : Tensor :=
    mkTensor (mkShape (batch (shape p))
                      [S (hd 0%nat (spatial (shape p)))] 1)
             (fun idx =>
                let i := hd 0%nat (cell idx) in
                (if (i <? hd 0%nat (spatial (shape p)))%nat
                 then get p idx else 0)
                - (if (0 <? i)%nat then get p (at_cell idx [pred i])
                   else 0)).

Definition halving : PressureSolver (list nat) Tensor :=
    mkSolver (fun div _ _ => (math.scale (1 # 2) div, 3%nat)).

Definition world : Externals (list nat) (list nat) Tensor :=
    mkExternals
      sqrt
      (fun domain => domain)
      (fun domain => length domain)
      (fun g => mkShape 1 g 1)
      (fun g => math.zeros (mkShape 1 g 1))
      (fun geometries g =>
         fold_left math.maximum geometries (math.zeros (mkShape 1 g 1)))
      (fun geometry _ => geometry)
      (fun dc obstacles =>
         (length (dc_obstacles dc) =? length obstacles)%nat)
      (fun _ t => closed_end t)
      divergence
      (fun t => math.zeros_like t)
      gradient
      (fun _ f _ => f)
      halving.

  (** Fluid in the first two of three cells. *)
Definition cache : DomainCache (list nat) Tensor :=
    mkDomainCache [3%nat] [] (line [1; 1; 0]) (line [1; 1; 1]).

Definition liquid : GridLiquid (list nat) :=
    mkGridLiquid [3%nat] (line [1; 1; 0])
                 (StaggeredGrid (line [1; 2; 4; 8])) [-(1)] 0
                 (Some 0%nat) None None.

Definition heap : Heap (list nat) Tensor :=
    mkHeap {[ 0%nat := liquid ]} {[ 0%nat := cache ]}.

  (** A velocity on a grid of one row and three columns, with the two
      channels of a field in two dimensions. *)
Definition row_velocity : Tensor :=
    mkTensor (mkShape 1 [1%nat; 3%nat] 2)
             (fun idx => nth (nth 1 (cell idx) 0%nat) [10; 20; 30] 0
                         + inject_Z (Z.of_nat (ich idx))).

End Lab.

(** ** Definitions for the statements and the proofs *)

(** The mask padded by one cell on each side of every axis. *)
Definition padded (m : Tensor) : Tensor :=
  math.pad m (repeat (1%nat, 1%nat) (spatial_rank m)) symmetric.

(** The cell that offset [o] of a window reads on an axis of length [n]:
    the lower neighbour (0), the cell itself (1) or the upper neighbour (2),
    and the cell itself where the grid ends. *)
Definition nb (n o j : nat) : nat :=
  match o with
  | 0%nat => pred j
  | 1%nat => j
  | _ => if (j + 1 <? n)%nat then (j + 1)%nat else j
  end.

Inductive window : Slice -> nat -> Prop :=
| window_upper : window (slice (Some 2%Z) None) 2
| window_center : window (slice (Some 1%Z) (Some (-1)%Z)) 1
| window_lower : window (slice (Some 0%Z) (Some (-2)%Z)) 0.

Fixpoint moved (dims os c : list nat) : list nat :=
  match dims, os, c with
  | n :: dims', o :: os', j :: c' => nb n o j :: moved dims' os' c'
  | _, _, _ => []
  end.

Definition flag (b : bool) : Q := if b then 1 else 0.

(** A cell inside the fluid: its sign is negative. *)
Definition inside (signs : Tensor) (idx : Index) : Prop := bget signs idx < 0.

(** An array of conditions that is false on every cell inside the fluid. *)
Definition gated (signs t : Tensor) : Prop :=
  (forall j, inside signs j -> get t j = 0)
  /\ (batch (shape t) = 1%nat -> batch (shape signs) = 1%nat).

Definition nonzero (d : list Z) : bool := negb (forallb (Z.eqb 0) d).

(** ** The steps of the projection and of a tick, named for the statements *)

Section Statements.

Context {Domain Grid Geometry : Type}.
Variable X : Externals Domain Grid Geometry.

Definition solver_or_default
  (pressure_solver : option (PressureSolver Domain Geometry))
  : PressureSolver Domain Geometry :=
  match pressure_solver with
  | None => SparseCG X
  | Some solver => solver
  end.

(** The projection as the specification lists it: extrapolate two cells
    outward from the active mask, apply the hard boundary conditions, solve
    for the pressure, subtract its gradient, reapply the boundary conditions.
    The result is the pressure, the iteration count and the velocity. *)
Definition projected (dc : DomainCache Domain Geometry)
  (pressure_solver : option (PressureSolver Domain Geometry))
  (velocity : Tensor) : Tensor * nat * Field :=
  let extrapolated :=
    snd (extrapolate (np_sqrt X) (StaggeredGrid velocity) (active dc) 1 2) in
  let bounded := with_hard_boundary_conditions X dc extrapolated in
  let solved :=
    solve (solver_or_default pressure_solver)
          (staggered_divergence X (field_tensor bounded)) dc None in
  let gradp := StaggeredGrid (staggered_gradient X (fst solved)) in
  (fst solved, snd solved,
   with_hard_boundary_conditions X dc (staggered_sub velocity gradp)).

(** The heap after the diagnostics have been recorded on the sink. *)
Definition recorded (sink : option loc) (pressure : Tensor) (iter : nat)
  (h : Heap Domain Geometry) : Heap Domain Geometry :=
  match sink with
  | None => h
  | Some s =>
      match states h !! s with
      | Some st =>
          mkHeap (<[s := set_last_pressure pressure iter st]> (states h))
                 (caches h)
      | None => h
      end
  end.

(** The density before advection. *)
Definition step_density (dt : Q) (inflows : list (Inflow Geometry))
  (st : GridLiquid Domain) : Tensor :=
  math.add2 (_density st) (inflow_density X dt inflows st).

(** The cache is stale: there is none, or its obstacles no longer match. *)
Definition stale (prior : option (DomainCache Domain Geometry))
  (obstacles : list (Obstacle Geometry)) : bool :=
  match prior with
  | None => true
  | Some dc => negb (is_valid X dc obstacles)
  end.

(** The cache that the state holds in the heap, if it holds one. *)
Definition prior_of (h : Heap Domain Geometry) (st : GridLiquid Domain)
  (prior : option (DomainCache Domain Geometry)) : Prop :=
  match domaincache st with
  | None => prior = None
  | Some c => caches h !! c = prior /\ prior <> None
  end.

(** [1 - geometry_mask(...)] *)
Definition accessible_mask (st : GridLiquid Domain)
  (obstacles : list (Obstacle Geometry)) : Tensor :=
  math.map (fun x => 1 - x)
    (geometry_mask X (List.map (@o_geometry Geometry) obstacles)
                   (grid X (_domain st))).

(** The cache that [domain] builds when the prior one is stale. *)
Definition rebuilt (st : GridLiquid Domain)
  (prior : option (DomainCache Domain Geometry))
  (obstacles : list (Obstacle Geometry)) : DomainCache Domain Geometry :=
  mkDomainCache (_domain st) obstacles
    (match prior with
     | None => accessible_mask st obstacles
     | Some dc => math.mul (accessible_mask st obstacles) (active dc)
     end)
    (accessible_mask st obstacles).

End Statements.

Section Tick.

Context {Domain Grid Geometry : Type}.
Variable X : Externals Domain Grid Geometry.
Variable self : GridLiquidPhysics Domain Geometry.
Variable s c : loc.
Variable dt : Q.
Variable inflows : list (Inflow Geometry).
Variable st1 : GridLiquid Domain.
Variable dc1 : DomainCache Domain Geometry.
Variable mask : Tensor.
Variable h1 : Heap Domain Geometry.

(** What a tick computes, from the state [st1] and the cache [dc1] that
    [domain] has left at [s] and [c] in the heap [h1], and the occupancy
    [mask] of the new density. *)

Definition tick_cache : DomainCache Domain Geometry := set_active mask dc1.

Definition tick_velocity : Tensor :=
  field_tensor (add_vector (_velocity st1) (List.map (Qmult dt) (_gravity st1))).

Definition tick_projection : Tensor * nat * Field :=
  projected X tick_cache (pressure_solver self) tick_velocity.

(** The input state after the tick. *)
Definition tick_input : GridLiquid Domain :=
  set_last_pressure (fst (fst tick_projection)) (snd (fst tick_projection))
                    st1.

Definition tick_transport : Field :=
  with_hard_boundary_conditions X tick_cache
    (snd (extrapolate (np_sqrt X) (snd tick_projection)
                      (active tick_cache) 1 30)).

(** The state that the tick returns. *)
Definition tick_output : GridLiquid Domain :=
  with_density_velocity_age
    (field_tensor (advect X tick_transport
                     (Array (step_density X dt inflows st1)) dt))
    (advect X tick_transport tick_transport dt)
    (age st1 + dt)
    tick_input.

Definition tick_states : gmap loc (GridLiquid Domain) :=
  <[s := tick_input]> (states h1).

Definition tick_heap : Heap Domain Geometry :=
  mkHeap (<[fresh (dom tick_states) := tick_output]> tick_states)
         (<[c := tick_cache]> (caches h1)).

End Tick.

Definition sumQ (l : list Q) : Q := fold_right Qplus 0 l.

Definition toy_occupied : Tensor :=
  match create_binary_mask
          (Array (step_density Toy.world 1 [] Toy.liquid)) (1 # 2) with
  | Ok mask => mask
  | Raise _ => math.zeros (mkShape 0 [] 0)
  end.

(** ** Definitions for the further properties *)

(** The cell that an array shifted by the offset [d] reads at the cell [c]:
    on every axis the neighbour at offset [-d], and the cell itself where
    the grid ends.  [k] is the number of the first axis of [sizes]. *)
Definition source_axis (n : nat) (x : Z) (j : nat) : nat :=
  if (x =? -1)%Z then (if (j + 1 <? n)%nat then (j + 1)%nat else j)
  else if (x =? 1)%Z then pred j
  else j.

Fixpoint source_cell (sizes : list nat) (k : nat) (d : list Z) (c : list nat)
  : list nat :=
  match sizes, c with
  | n :: sizes', j :: c' =>
      source_axis n (nth k d 0%Z) j :: source_cell sizes' (S k) d c'
  | _, _ => []
  end.

(** Every entry of [e] inside the grid is an entry of [e0] of the same batch
    and channel, at some cell of the grid. *)
Definition drawn_from (e0 e : Tensor) : Prop :=
  forall idx, in_range (shape e0) idx = true ->
              exists c, cell_in (spatial (shape e0)) c = true
                        /\ get e idx = get e0 (at_cell idx c).

(** ** The gravity of [GridLiquid.__init__]

    The constructor takes the gravity as a number or as a tuple or list with
    one entry per axis, and stores a vector. *)

Inductive Gravity : Type :=
| Scalar (g : Q)
| Vector (l : list Q).

Definition init_gravity (rank : nat) (gravity : Gravity) : result (list Q) :=
  match gravity with
  | Vector l =>
      if (length l =? rank)%nat then Ok l else Raise AssertionError
  | Scalar g =>
      if (rank =? 1)%nat then Ok [g]
      else if (2 <=? rank)%nat
           then Ok (repeat 0 (rank - 2) ++ [g] ++ [0])
           else Raise AssertionError
  end.

(** ** [load_tensorflow] of [phi/math/__init__.py]

    The registry [backend.backends] is a list of backends.  What a call
    finds outside the module is whether [phi.math.tensorflow_backend] can be
    imported and whether [TFBackend()] can be constructed; a failure of
    either is caught, logged and answered by [False]. *)

Inductive Backend : Type :=
| TFBackend
| OtherBackend (id : nat).

Definition isinstance_TFBackend (b : Backend) : bool :=
  match b with
  | TFBackend => true
  | OtherBackend _ => false
  end.

Record TensorFlow : Type := mkTensorFlow
  { importable : bool; constructible : bool }.

Definition load_tensorflow (tf : TensorFlow) (backends : list Backend)
  : bool * list Backend :=
  if importable tf then
    if existsb isinstance_TFBackend backends then (true, backends)
    else if constructible tf then (true, backends ++ [TFBackend])
         else (false, backends)
  else (false, backends).

(** An array that is negative exactly on the cells of a grid of shape [S]:
    the region on which a sweep that finds nothing to improve leaves the
    field alone. *)
Definition whole_grid (S : Shape) : Tensor :=
  mkTensor S (fun idx => if in_range S idx then -(1) else 1).

(** * Properties *)

(** ** Indices and entries *)

Lemma cells_spec (dims c : list nat) :
  In c (cells dims) <-> cell_in dims c = true.
Proof.
  revert c. induction dims as [|n dims IH]; intros c; simpl.
  - destruct c; simpl; intuition congruence.
  - rewrite in_flat_map. split.
    + intros (i & Hi & Hc). apply in_map_iff in Hc as (c' & <- & Hc').
      apply in_seq in Hi. simpl. apply andb_true_iff. split.
      * apply Nat.ltb_lt. lia.
      * now apply IH.
    + destruct c as [|i c']; [discriminate|].
      intros H. apply andb_true_iff in H as [Hi Hc].
      apply Nat.ltb_lt in Hi. exists i. split.
      * apply in_seq. lia.
      * apply in_map. now apply IH.
Qed.

Lemma indices_spec (sh : Shape) (idx : Index) :
  In idx (indices sh) <-> in_range sh idx = true.
Proof.
  unfold indices, in_range. rewrite in_flat_map. split.
  - intros (b & Hb & H). apply in_flat_map in H as (c & Hc & H).
    apply in_map_iff in H as (k & <- & Hk). simpl.
    apply in_seq in Hb. apply in_seq in Hk. apply cells_spec in Hc.
    rewrite Hc. rewrite !andb_true_iff, !Nat.ltb_lt. repeat split; auto; lia.
  - destruct idx as [b c k]. simpl. rewrite !andb_true_iff, !Nat.ltb_lt.
    intros [[Hb Hc] Hk]. exists b. split; [apply in_seq; lia|].
    apply in_flat_map. exists c. split; [now apply cells_spec|].
    apply in_map. apply in_seq. lia.
Qed.

Lemma entries_in (t : Tensor) (idx : Index) :
  in_range (shape t) idx = true -> In (get t idx) (entries t).
Proof. intros H. unfold entries. apply in_map. now apply indices_spec. Qed.


(** ** The maximum of an array *)

Lemma fold_Qmax_ge (vs : list Q) (v : Q) :
  v <= fold_left Qmax vs v /\ forall x, In x vs -> x <= fold_left Qmax vs v.
Proof.
  revert v. induction vs as [|w vs IH]; intros v; simpl.
  - split; [apply Qle_refl | tauto].
  - destruct (IH (Qmax v w)) as [H1 H2]. split.
    + eapply Qle_trans; [apply Q.le_max_l | exact H1].
    + intros x [<- | Hx]; [|now apply H2].
      eapply Qle_trans; [apply Q.le_max_r | exact H1].
Qed.

Lemma fold_Qmax_in (vs : list Q) (v : Q) :
  fold_left Qmax vs v = v \/ In (fold_left Qmax vs v) vs.
Proof.
  revert v. induction vs as [|w vs IH]; intros v; simpl; [now left|].
  destruct (IH (Qmax v w)) as [H | H]; [|now right; right].
  rewrite H. unfold Qmax, GenericMinMax.gmax.
  destruct (v ?= w); auto.
Qed.

Lemma max_spec (t : Tensor) :
  entries t <> [] ->
  exists m, math.max t = Ok m
            /\ In m (entries t)
            /\ forall idx, in_range (shape t) idx = true -> get t idx <= m.
Proof.
  unfold math.max. intros Hne.
  destruct (entries t) as [|v vs] eqn:E; [congruence|].
  exists (fold_left Qmax vs v). split; [reflexivity|]. split.
  - destruct (fold_Qmax_in vs v) as [-> | H]; [now left | now right].
  - intros idx Hidx. apply entries_in in Hidx. rewrite E in Hidx.
    destruct (fold_Qmax_ge vs v) as [H1 H2].
    destruct Hidx as [<- | Hx]; auto.
Qed.

Lemma entries_map (f : Q -> Q) (t : Tensor) :
  entries (math.map f t) = List.map f (entries t).
Proof. unfold entries, math.map. simpl. now rewrite map_map. Qed.

(** ** [create_binary_mask] *)





(** ** Broadcast reads inside the shape *)

Lemma bidx_in_range (sh : Shape) (idx : Index) :
  in_range sh idx = true -> bidx sh idx = idx.
Proof.
  destruct idx as [b c k]. unfold in_range, bidx. simpl.
  rewrite !andb_true_iff, !Nat.ltb_lt. intros [[Hb _] Hk].
  destruct (Nat.eqb_spec (batch sh) 1), (Nat.eqb_spec (channels sh) 1);
    f_equal; lia.
Qed.

Lemma bget_in_range (t : Tensor) (idx : Index) :
  in_range (shape t) idx = true -> bget t idx = get t idx.
Proof. intros H. unfold bget. now rewrite bidx_in_range. Qed.

Lemma bdim_same (a : nat) : bdim a a = a.
Proof. unfold bdim. now destruct (a =? 1)%nat eqn:E; [apply Nat.eqb_eq in E|]. Qed.

Lemma bshape_same (sh : Shape) : bshape sh sh = sh.
Proof. destruct sh. unfold bshape. simpl. now rewrite !bdim_same. Qed.

Lemma zip_get (f : Q -> Q -> Q) (a b : Tensor) (idx : Index) :
  shape b = shape a -> in_range (shape a) idx = true ->
  get (math.zip f a b) idx = f (get a idx) (get b idx).
Proof.
  intros Hs Hi. simpl. rewrite !bget_in_range; congruence.
Qed.

Lemma zip_shape (f : Q -> Q -> Q) (a b : Tensor) :
  shape b = shape a -> shape (math.zip f a b) = shape a.
Proof. intros Hs. simpl. rewrite Hs. apply bshape_same. Qed.

(** ** The three windows of [create_surface_mask]

    On the mask padded by one cell, the subscripts [2:], [1:-1] and [:-2] read
    the upper neighbour, the cell itself and the lower neighbour; at the edge
    of the grid the neighbour is the cell itself. *)



Lemma window_start (n : nat) (s : Slice) (o : nat) :
  window s o -> slice_start (1 + n + 1) s = o.
Proof.
  intros []; unfold slice_start, slice_bound; cbn [start];
    repeat match goal with
           | |- context [Z.ltb ?a ?b] => destruct (Z.ltb_spec a b)
           end; lia.
Qed.

Lemma window_length (n : nat) (s : Slice) (o : nat) :
  window s o -> (slice_stop (1 + n + 1) s - slice_start (1 + n + 1) s)%nat = n.
Proof.
  intros []; unfold slice_stop, slice_start, slice_bound;
    cbn [start stop];
    repeat match goal with
           | |- context [Z.ltb ?a ?b] => destruct (Z.ltb_spec a b)
           end; lia.
Qed.

Lemma window_source (n : nat) (s : Slice) (o j : nat) :
  window s o -> (j < n)%nat ->
  pad_axis symmetric n (1%nat, 1%nat) (o + j) = Some (nb n o j).
Proof.
  intros [] Hj; unfold pad_axis, nb; simpl fst.
  - replace (2 + j <? 1)%nat with false by (symmetry; apply Nat.ltb_ge; lia).
    destruct (Nat.ltb_spec (2 + j) (1 + n)), (Nat.ltb_spec (j + 1) n);
      try lia; f_equal; lia.
  - replace (1 + j <? 1)%nat with false by (symmetry; apply Nat.ltb_ge; lia).
    replace (1 + j <? 1 + n)%nat with true by (symmetry; apply Nat.ltb_lt; lia).
    f_equal. lia.
  - destruct (Nat.ltb_spec (0 + j) 1).
    + f_equal. lia.
    + replace (0 + j <? 1 + n)%nat with true
        by (symmetry; apply Nat.ltb_lt; lia).
      f_equal. lia.
Qed.


Lemma windows_dims (dims : list nat) (sl : list Slice) (os : list nat) :
  Forall2 window sl os -> length sl = length dims ->
  slice_dims (pad_dims dims (repeat (1%nat, 1%nat) (length dims))) sl = dims.
Proof.
  intros H. revert dims. induction H as [|s o sl os Hw _ IH]; intros dims Hl.
  - destruct dims; [reflexivity | discriminate].
  - destruct dims as [|n dims]; [discriminate|]. simpl in Hl.
    simpl. f_equal; [|apply IH; lia].
    apply (window_length n s o Hw).
Qed.

Lemma windows_cell (dims : list nat) (sl : list Slice) (os c : list nat) :
  Forall2 window sl os -> length sl = length dims -> cell_in dims c = true ->
  pad_cell symmetric dims (repeat (1%nat, 1%nat) (length dims))
    (slice_cell (pad_dims dims (repeat (1%nat, 1%nat) (length dims))) sl c)
  = Some (moved dims os c).
Proof.
  intros H. revert dims c.
  induction H as [|s o sl os Hw _ IH]; intros dims c Hl Hc.
  - destruct dims; [|discriminate]. destruct c; [reflexivity | discriminate].
  - destruct dims as [|n dims]; [discriminate|].
    destruct c as [|j c]; [discriminate|].
    simpl in Hl, Hc. apply andb_true_iff in Hc as [Hj Hc].
    apply Nat.ltb_lt in Hj.
    cbn [length repeat pad_dims slice_cell pad_cell moved fst snd].
    rewrite (window_start n s o Hw), (window_source n s o j Hw Hj).
    rewrite (IH dims c); [reflexivity | lia | exact Hc].
Qed.

Lemma pad_dims_length (dims : list nat) (p : nat * nat) :
  length (pad_dims dims (repeat p (length dims))) = length dims.
Proof. induction dims; simpl; congruence. Qed.

Lemma window_get (m : Tensor) (sl : list Slice) (os : list nat) (idx : Index) :
  Forall2 window sl os -> length sl = spatial_rank m ->
  in_range (shape m) idx = true ->
  get (getitem (math.pad m (repeat (1%nat, 1%nat) (spatial_rank m)) symmetric)
               sl) idx
  = get m (at_cell idx (moved (spatial (shape m)) os (cell idx))).
Proof.
  intros Hw Hl Hi. unfold in_range in Hi.
  apply andb_true_iff in Hi as [Hi _]. apply andb_true_iff in Hi as [_ Hc].
  unfold spatial_rank in *. simpl.
  now rewrite (windows_cell _ sl os _ Hw Hl Hc).
Qed.

Lemma window_shape (m : Tensor) (sl : list Slice) (os : list nat) :
  Forall2 window sl os -> length sl = spatial_rank m ->
  shape (getitem (math.pad m (repeat (1%nat, 1%nat) (spatial_rank m))
                           symmetric) sl) = shape m.
Proof.
  intros Hw Hl. unfold spatial_rank in *. simpl.
  rewrite (windows_dims _ sl os Hw Hl). now destruct (shape m).
Qed.

(** The windows of axis [d]: offset [o] on the axis, the centre elsewhere. *)

Lemma windows_axis (g : nat -> Slice) (o : nat -> nat) (k r : nat) :
  (forall i, window (g i) (o i)) ->
  Forall2 window (List.map g (seq k r)) (List.map o (seq k r)).
Proof.
  intros H. revert k. induction r; intros k; simpl; constructor; auto.
Qed.

Lemma bump_id (d : nat) (f : nat -> nat) (c : list nat) :
  f (nth d c 0%nat) = nth d c 0%nat -> bump d f c = c.
Proof.
  revert d. induction c as [|j c IH]; intros d H; [now destruct d|].
  destruct d; simpl in *; [congruence|]. f_equal. now apply IH.
Qed.

Lemma moved_center (dims c : list nat) (k : nat) :
  length c = length dims ->
  moved dims (List.map (fun _ => 1%nat) (seq k (length dims))) c = c.
Proof.
  revert c k. induction dims as [|n dims IH]; intros c k Hl;
    destruct c as [|j c]; try discriminate; [reflexivity|].
  simpl. f_equal. apply IH. simpl in Hl. lia.
Qed.

Lemma moved_axis (dims c : list nat) (k d o : nat) :
  length c = length dims -> (k <= d)%nat ->
  moved dims (List.map (fun i => if (i =? d)%nat then o else 1%nat)
                       (seq k (length dims))) c
  = bump (d - k) (nb (nth (d - k) dims 0%nat) o) c.
Proof.
  revert c k. induction dims as [|n dims IH]; intros c k Hl Hk;
    destruct c as [|j c]; try discriminate.
  - now destruct (d - k)%nat.
  - simpl in Hl. simpl. destruct (Nat.eqb_spec k d) as [-> | Hne].
    + replace (d - d)%nat with 0%nat by lia. simpl. f_equal.
      rewrite (map_ext_in _ (fun _ => 1%nat)).
      * apply moved_center. lia.
      * intros i Hi. apply in_seq in Hi.
        destruct (Nat.eqb_spec i d); [lia | reflexivity].
    + replace (d - k)%nat with (S (d - S k)) by lia. simpl. f_equal.
      apply IH; lia.
Qed.

Lemma cell_in_length (dims c : list nat) :
  cell_in dims c = true -> length c = length dims.
Proof.
  revert c. induction dims as [|n dims IH]; intros [|j c] H;
    try discriminate; [reflexivity|].
  simpl in H. apply andb_true_iff in H as [_ H]. simpl. f_equal. now apply IH.
Qed.

Lemma cell_in_nth (dims c : list nat) (d : nat) :
  cell_in dims c = true -> (d < length dims)%nat ->
  (nth d c 0 < nth d dims 0)%nat.
Proof.
  revert c d. induction dims as [|n dims IH]; intros [|j c] d H Hd;
    try discriminate; simpl in *; [lia|].
  apply andb_true_iff in H as [Hj H]. apply Nat.ltb_lt in Hj.
  destruct d; [exact Hj|]. apply IH; [exact H | lia].
Qed.

Lemma cell_in_bump (dims c : list nat) (d : nat) (f : nat -> nat) :
  cell_in dims c = true -> (f (nth d c 0) < nth d dims 0)%nat ->
  cell_in dims (bump d f c) = true.
Proof.
  revert c d. induction dims as [|n dims IH]; intros [|j c] d H Hf;
    try discriminate; [now destruct d|].
  simpl in H. apply andb_true_iff in H as [Hj H].
  destruct d; simpl in *.
  - rewrite H. apply Nat.ltb_lt in Hf. now rewrite Hf.
  - rewrite Hj. simpl. now apply IH.
Qed.

(** ** [create_surface_mask] *)



Lemma Qeq_bool_spec (x y : Q) : reflect (x == y) (Qeq_bool x y).
Proof.
  destruct (Qeq_bool x y) eqn:E; constructor.
  - now apply Qeq_bool_iff.
  - now apply Qeq_bool_neq.
Qed.

Lemma contour_interior (c u : Q) :
  c == 0 \/ c == 1 -> u == 0 \/ u == 1 ->
  Qmax u c - u == flag (Qeq_bool c 1 && Qeq_bool u 0).
Proof.
  intros Hc Hu.
  destruct (Qeq_bool_spec c 1), (Qeq_bool_spec u 0); simpl;
    destruct Hc, Hu, (Q.max_spec u c) as [[? E] | [? E]]; lra.
Qed.

Lemma contour_edge (c u : Q) : u = c -> Qmax u c - u == 0.
Proof. intros ->. rewrite Q.max_id. lra. Qed.

Lemma Qmax_flag (x y : Q) (b1 b2 : bool) :
  x == flag b1 -> y == flag b2 -> Qmax x y == flag (b1 || b2).
Proof.
  intros Hx Hy. destruct b1, b2; simpl in *;
    destruct (Q.max_spec x y) as [[? E] | [? E]]; lra.
Qed.

Lemma bump_ext (d : nat) (f g : nat -> nat) (c : list nat) :
  f (nth d c 0%nat) = g (nth d c 0%nat) -> bump d f c = bump d g c.
Proof.
  revert d. induction c as [|j c IH]; intros d H; [now destruct d|].
  destruct d; simpl in *; [congruence|]. f_equal. now apply IH.
Qed.

Lemma at_cell_self (idx : Index) : at_cell idx (cell idx) = idx.
Proof. now destruct idx. Qed.

Lemma in_range_at_cell (sh : Shape) (idx : Index) (c : list nat) :
  in_range sh idx = true -> cell_in (spatial sh) c = true ->
  in_range sh (at_cell idx c) = true.
Proof.
  unfold in_range. simpl. rewrite !andb_true_iff. intuition.
Qed.

Lemma in_range_cell (sh : Shape) (idx : Index) :
  in_range sh idx = true -> cell_in (spatial sh) (cell idx) = true.
Proof. unfold in_range. rewrite !andb_true_iff. intuition. Qed.

Section SurfaceAxis.

Variable m : Tensor.
Hypothesis m_binary : binary m.


Lemma padded_rank : spatial_rank (padded m) = (spatial_rank m).
Proof. unfold padded, spatial_rank. simpl. apply pad_dims_length. Qed.

Lemma upper_value (d : nat) (idx : Index) (c : Q) :
  in_range (shape m) idx = true -> (d < (spatial_rank m))%nat -> c = get m idx ->
  let u := get m (at_cell idx (moved (spatial (shape m))
                   (List.map (fun i => if (i =? d)%nat then 2%nat else 1%nat)
                             (seq 0 (spatial_rank m))) (cell idx))) in
  Qmax u c - u
  == flag (Qeq_bool c 1
           && ((nth d (cell idx) 0 + 1 <? nth d (spatial (shape m)) 0)%nat
               && Qeq_bool (get m (at_cell idx (bump d S (cell idx)))) 0)).
Proof.
  intros Hi Hd -> u. subst u.
  pose proof (in_range_cell _ _ Hi) as Hc.
  unfold spatial_rank.
  rewrite moved_axis by (try apply cell_in_length; auto; lia).
  rewrite Nat.sub_0_r.
  destruct (Nat.ltb_spec (nth d (cell idx) 0 + 1)%nat
                         (nth d (spatial (shape m)) 0%nat)) as [Hin | Hout].
  - rewrite (bump_ext d _ S).
    + apply contour_interior.
      * now apply m_binary.
      * apply m_binary. apply in_range_at_cell; [exact Hi|].
        apply cell_in_bump; [exact Hc | lia].
    + unfold nb. apply Nat.ltb_lt in Hin. rewrite Hin. lia.
  - rewrite bump_id.
    + rewrite at_cell_self, andb_false_r. now apply contour_edge.
    + unfold nb. apply Nat.ltb_ge in Hout. now rewrite Hout.
Qed.

Lemma lower_value (d : nat) (idx : Index) (c : Q) :
  in_range (shape m) idx = true -> (d < (spatial_rank m))%nat -> c = get m idx ->
  let l := get m (at_cell idx (moved (spatial (shape m))
                   (List.map (fun i => if (i =? d)%nat then 0%nat else 1%nat)
                             (seq 0 (spatial_rank m))) (cell idx))) in
  Qmax c l - l
  == flag (Qeq_bool c 1
           && ((0 <? nth d (cell idx) 0)%nat
               && Qeq_bool (get m (at_cell idx (bump d pred (cell idx)))) 0)).
Proof.
  intros Hi Hd -> l. subst l.
  pose proof (in_range_cell _ _ Hi) as Hc.
  pose proof (cell_in_nth _ _ d Hc Hd) as Hlt.
  unfold spatial_rank.
  rewrite moved_axis by (try apply cell_in_length; auto; lia).
  rewrite Nat.sub_0_r. rewrite Q.max_comm.
  destruct (Nat.ltb_spec 0 (nth d (cell idx) 0%nat)) as [Hin | Hout].
  - rewrite (bump_ext d _ pred) by reflexivity.
    apply contour_interior.
    + now apply m_binary.
    + apply m_binary. apply in_range_at_cell; [exact Hi|].
      apply cell_in_bump; [exact Hc | lia].
  - rewrite bump_id.
    + rewrite at_cell_self, andb_false_r. now apply contour_edge.
    + unfold nb. lia.
Qed.

Lemma surface_axis_spec (bcs : Tensor) (d : nat) (b : bool) (idx : Index) :
  shape bcs = shape m -> in_range (shape m) idx = true -> (d < (spatial_rank m))%nat ->
  get bcs idx == flag b ->
  get (surface_axis (padded m) (seq 0 (spatial_rank (padded m))) bcs d) idx
  == flag (b || (Qeq_bool (get m idx) 1 && axis_test m idx d)).
Proof.
  intros Hs Hi Hd Hb. rewrite padded_rank. unfold surface_axis.
  set (gu := fun i : nat => if (i =? d)%nat then slice (Some 2%Z) None
                            else slice (Some 1%Z) (Some (-1)%Z)).
  set (gc := fun _ : nat => slice (Some 1%Z) (Some (-1)%Z)).
  set (gl := fun i : nat => if (i =? d)%nat then slice (Some 0%Z) (Some (-2)%Z)
                            else slice (Some 1%Z) (Some (-1)%Z)).
  set (ou := fun i : nat => if (i =? d)%nat then 2%nat else 1%nat).
  set (oc := fun _ : nat => 1%nat).
  set (ol := fun i : nat => if (i =? d)%nat then 0%nat else 1%nat).
  assert (Wu : Forall2 window (List.map gu (seq 0 (spatial_rank m))) (List.map ou (seq 0 (spatial_rank m)))).
  { apply windows_axis. intros i. unfold gu, ou.
    destruct (i =? d)%nat; constructor. }
  assert (Wc : Forall2 window (List.map gc (seq 0 (spatial_rank m))) (List.map oc (seq 0 (spatial_rank m)))).
  { apply windows_axis. intros i. constructor. }
  assert (Wl : Forall2 window (List.map gl (seq 0 (spatial_rank m))) (List.map ol (seq 0 (spatial_rank m)))).
  { apply windows_axis. intros i. unfold gl, ol.
    destruct (i =? d)%nat; constructor. }
  assert (Ln : forall g : nat -> Slice,
             length (List.map g (seq 0 (spatial_rank m))) = spatial_rank m).
  { intros g. now rewrite length_map, length_seq. }
  pose proof (window_shape m _ _ Wu (Ln gu)) as Su.
  pose proof (window_shape m _ _ Wc (Ln gc)) as Sc.
  pose proof (window_shape m _ _ Wl (Ln gl)) as Sl.
  pose proof (window_get m _ _ idx Wu (Ln gu) Hi) as Gu.
  pose proof (window_get m _ _ idx Wc (Ln gc) Hi) as Gc.
  pose proof (window_get m _ _ idx Wl (Ln gl) Hi) as Gl.
  fold (padded m) in Su, Sc, Sl, Gu, Gc, Gl.
  unfold oc in Gc.
  assert (Ec : moved (spatial (shape m))
                 (List.map (fun _ : nat => 1%nat) (seq 0 (spatial_rank m)))
                 (cell idx) = cell idx).
  { apply moved_center, cell_in_length. now apply in_range_cell. }
  rewrite Ec in Gc.
  rewrite at_cell_self in Gc.
  set (U := getitem (padded m) (List.map gu (seq 0 (spatial_rank m)))) in *.
  set (C := getitem (padded m) (List.map gc (seq 0 (spatial_rank m)))) in *.
  set (L := getitem (padded m) (List.map gl (seq 0 (spatial_rank m)))) in *.
  assert (Sx : forall f x y, shape x = shape m -> shape y = shape m ->
                             shape (math.zip f x y) = shape m).
  { intros f x y Ha Hb'. rewrite zip_shape; congruence. }
  assert (Gx : forall f x y, shape x = shape m -> shape y = shape m ->
                 get (math.zip f x y) idx = f (get x idx) (get y idx)).
  { intros f x y Ha Hb'. apply zip_get; congruence. }
  unfold math.maximum, math.sub.
  rewrite !Gx by auto.
  rewrite Gu, Gl, Gc.
  pose proof (upper_value d idx (get m idx) Hi Hd eq_refl) as Vu.
  pose proof (lower_value d idx (get m idx) Hi Hd eq_refl) as Vl.
  cbv zeta in Vu, Vl. fold ou in Vu. fold ol in Vl.
  rewrite (Qmax_flag _ _ _ _ (Qmax_flag _ _ _ _ Hb Vu) Vl).
  unfold axis_test. cbv zeta.
  destruct b, (Qeq_bool (get m idx) 1); reflexivity.
Qed.

Lemma surface_axis_shape (bcs : Tensor) (d : nat) :
  shape bcs = shape m ->
  shape (surface_axis (padded m) (seq 0 (spatial_rank (padded m))) bcs d) = shape m.
Proof.
  intros Hs. rewrite padded_rank. unfold surface_axis.
  assert (Sw : forall g : nat -> Slice,
             (forall i, exists o, window (g i) o) ->
             shape (getitem (padded m) (List.map g (seq 0 (spatial_rank m)))) = shape m).
  { intros g Hg.
    assert (exists os, Forall2 window (List.map g (seq 0 (spatial_rank m))) os) as [os Hos].
    { generalize (seq 0 (spatial_rank m)). intros l. induction l as [|i l [os IH]].
      - exists []. constructor.
      - destruct (Hg i) as [o Ho]. exists (o :: os). now constructor. }
    apply (window_shape m _ os Hos). now rewrite length_map, length_seq. }
  assert (Sx : forall f x y, shape x = shape m -> shape y = shape m ->
                             shape (math.zip f x y) = shape m).
  { intros f x y Ha Hb'. rewrite zip_shape; congruence. }
  unfold math.maximum, math.sub.
  repeat apply Sx; try exact Hs; apply Sw; intros i;
    destruct (i =? d)%nat; eexists; constructor.
Qed.

End SurfaceAxis.

Lemma surface_fold (m : Tensor) (idx : Index) (k : nat) :
  binary m -> in_range (shape m) idx = true -> (k <= spatial_rank m)%nat ->
  let M := math.pad m (repeat (1%nat, 1%nat) (spatial_rank m)) symmetric in
  let res := fold_left (surface_axis M (seq 0 (spatial_rank M))) (seq 0 k)
                       (math.zeros_like m) in
  shape res = shape m
  /\ get res idx
     == flag (Qeq_bool (get m idx) 1 && existsb (axis_test m idx) (seq 0 k)).
Proof.
  intros Hb Hi. induction k as [|k IH]; intros Hk M res; subst res.
  - simpl. split; [reflexivity|]. rewrite andb_false_r. reflexivity.
  - rewrite seq_S, fold_left_app. simpl.
    destruct IH as [IHs IHg]; [lia|]. split.
    + now apply surface_axis_shape.
    + assert (Hk' : (k < spatial_rank m)%nat) by lia.
      pose proof (surface_axis_spec m Hb _ k _ idx IHs Hi Hk' IHg) as E.
      eapply Qeq_trans; [exact E|].
      rewrite existsb_app. simpl.
      destruct (Qeq_bool (get m idx) 1), (existsb (axis_test m idx) (seq 0 k)),
        (axis_test m idx k); reflexivity.
Qed.

Lemma binary_check (t : Tensor) :
  forallb (fun q => Qeq_bool q 0 || Qeq_bool q 1) (entries t) = true ->
  binary t.
Proof.
  intros H idx Hi. rewrite forallb_forall in H.
  specialize (H _ (entries_in t idx Hi)).
  apply orb_true_iff in H as [H | H]; apply Qeq_bool_iff in H; auto.
Qed.

(** C3 (as amended): on a binary occupancy mask, [create_surface_mask] has
    the shape of the mask and marks with 1 exactly the occupied cells that
    have an empty neighbour along some axis inside the grid; every other cell,
    the empty cells next to occupied ones included, gets 0. *)
Theorem create_surface_mask_inner_contour (particle_mask : Tensor)
  (idx : Index) :
  binary particle_mask ->
  in_range (shape particle_mask) idx = true ->
  shape (create_surface_mask particle_mask) = shape particle_mask
  /\ get (create_surface_mask particle_mask) idx
     == (if inner_contour particle_mask idx then 1 else 0).
Proof.
  intros Hb Hi. unfold create_surface_mask. cbv zeta.
  pose proof (padded_rank particle_mask) as E. unfold padded in E.
  destruct (surface_fold particle_mask idx
              (spatial_rank (math.pad particle_mask
                 (repeat (1%nat, 1%nat) (spatial_rank particle_mask))
                 symmetric)) Hb Hi) as [H1 H2]; [lia|].
  split; [exact H1|]. eapply Qeq_trans; [exact H2|].
  rewrite E. reflexivity.
Qed.

Lemma create_surface_mask_inner_contour_witness :
  shape (create_surface_mask checkerboard) = shape checkerboard
  /\ get (create_surface_mask checkerboard) (mkIndex 0 [0%nat; 1%nat] 0)
     == (if inner_contour checkerboard (mkIndex 0 [0%nat; 1%nat] 0)
         then 1 else 0).
Proof.
  apply (create_surface_mask_inner_contour checkerboard
           (mkIndex 0 [0%nat; 1%nat] 0)).
  - apply binary_check. vm_compute. reflexivity.
  - vm_compute. reflexivity.
Defined.

(** C3, the claim as stated fails: on the 2x2 checkerboard every empty cell
    has an occupied neighbour, and none of them is marked. *)
Lemma create_surface_mask_checkerboard :
  entries checkerboard = [1; 0; 0; 1]
  /\ List.map (two_sided_contour checkerboard) (indices (shape checkerboard))
     = [true; true; true; true]
  /\ entries (create_surface_mask checkerboard) = [1; 0; 0; 1].
Proof. vm_compute. repeat split. Qed.

(** ** [extrapolate]: the cells inside the fluid *)

Lemma bdim_one (a b : nat) : bdim a b = 1%nat -> a = 1%nat /\ b = 1%nat.
Proof.
  unfold bdim. destruct (Nat.eqb_spec a 1); intros H; split; congruence.
Qed.

Lemma bidx_bidx (sh sh' : Shape) (idx : Index) :
  (batch sh' = 1%nat -> batch sh = 1%nat) ->
  (channels sh' = 1%nat -> channels sh = 1%nat) ->
  bidx sh (bidx sh' idx) = bidx sh idx.
Proof.
  intros Hb Hc. unfold bidx. simpl.
  destruct (Nat.eqb_spec (batch sh) 1), (Nat.eqb_spec (batch sh') 1),
    (Nat.eqb_spec (channels sh) 1), (Nat.eqb_spec (channels sh') 1);
    try reflexivity; exfalso; auto.
Qed.

Lemma bget_bidx (t : Tensor) (sh' : Shape) (idx : Index) :
  (batch sh' = 1%nat -> batch (shape t) = 1%nat) ->
  (channels sh' = 1%nat -> channels (shape t) = 1%nat) ->
  bget t (bidx sh' idx) = bget t idx.
Proof. intros Hb Hc. unfold bget. now rewrite bidx_bidx. Qed.

Lemma Qmult_1_l_eq (q : Q) : 1 * q = q.
Proof. destruct q as [n d]. unfold Qmult. simpl. now destruct n. Qed.

Section FluidCells.

Variable np_sqrt : Z -> Q.
Variable dims : list nat.
Variable dx : Q.
Variable signs : Tensor.
Hypothesis signs_channel : channels (shape signs) = 1%nat.



Lemma inside_channel (j : Index) (k : nat) :
  inside signs (mkIndex (ib j) (cell j) k) <-> inside signs j.
Proof.
  unfold inside, bget, bidx. simpl. rewrite signs_channel. simpl. tauto.
Qed.

Lemma inside_bidx (sh : Shape) (idx : Index) :
  (batch sh = 1%nat -> batch (shape signs) = 1%nat) ->
  inside signs idx -> inside signs (bidx sh idx).
Proof.
  intros Hb H. unfold inside. rewrite bget_bidx; auto.
Qed.

Lemma improves_gated (d_dist s_distance : Tensor) :
  gated signs (improves signs d_dist s_distance).
Proof.
  split.
  - intros j Hj. unfold improves, math.logical_and, math.greater_equal.
    simpl. unfold inside, bget in Hj.
    destruct (Qle_bool 0 (get signs _)) eqn:E.
    + apply Qle_bool_iff in E. lra.
    + now destruct (Qeq_bool _ 0).
  - unfold improves, math.logical_and, math.greater_equal. simpl.
    intros H. now apply bdim_one in H.
Qed.

Lemma zeros_like_gated (t : Tensor) : gated signs t -> gated signs (math.zeros_like t).
Proof. intros [_ H]. split; [reflexivity | exact H]. Qed.

Lemma concat_get_gated (ts : list Tensor) (j : Index) :
  Forall (gated signs) ts -> inside signs j -> math.concat_get ts j = 0.
Proof.
  intros H. revert j. induction H as [|t ts [Ht _] _ IH]; intros j Hj; simpl.
  - reflexivity.
  - destruct (ich j <? channels (shape t))%nat; [now apply Ht|].
    apply IH. now apply inside_channel.
Qed.

Lemma concat_gated (ts : list Tensor) (idx : Index) :
  Forall (gated signs) ts -> inside signs idx -> bget (math.concat ts) idx = 0.
Proof.
  intros H Hi. unfold bget. simpl get. apply concat_get_gated; [exact H|].
  apply inside_bidx; [|exact Hi]. simpl.
  destruct H as [|t ts [_ Ht] _]; simpl; [discriminate | exact Ht].
Qed.

Lemma concat_batch (ts : list Tensor) :
  Forall (gated signs) ts ->
  batch (shape (math.concat ts)) = 1%nat -> batch (shape signs) = 1%nat.
Proof.
  intros [|t ts' [_ Ht] _]; simpl; [discriminate | exact Ht].
Qed.

Lemma where_get (c a b : Tensor) (j : Index) :
  get (math.where_ c a b) j
  = if Qeq_bool (bget c j) 0 then bget b j else bget a j.
Proof. reflexivity. Qed.

Lemma where_frame (ts : list Tensor) (a b : Tensor) (idx : Index) :
  Forall (gated signs) ts -> inside signs idx ->
  bget (math.where_ (math.concat ts) a b) idx = bget b idx.
Proof.
  intros H Hi. unfold bget at 1. rewrite where_get.
  set (W := shape (math.where_ (math.concat ts) a b)).
  assert (HW : batch W = 1%nat -> batch (shape (math.concat ts)) = 1%nat
                                  /\ batch (shape b) = 1%nat).
  { unfold W. simpl. intros E. apply bdim_one in E as [E1 E2].
    apply bdim_one in E2 as [_ E2]. auto. }
  assert (HWc : channels W = 1%nat -> channels (shape b) = 1%nat).
  { unfold W. simpl. intros E. apply bdim_one in E as [_ E2].
    now apply bdim_one in E2. }
  rewrite concat_gated; [| exact H |].
  - replace (Qeq_bool 0 0) with true by reflexivity.
    apply bget_bidx; [apply HW | exact HWc].
  - apply inside_bidx; [|exact Hi].
    intros E. apply (concat_batch ts H). now apply HW.
Qed.

Lemma relax_frame (d : list Z) (st : Tensor * Tensor) (idx : Index) :
  inside signs idx ->
  bget (fst (relax np_sqrt dims dx signs d st)) idx = bget (fst st) idx.
Proof.
  intros Hi. destruct st as [ext_field s_distance]. unfold relax. simpl fst.
  apply where_frame; [|exact Hi].
  apply List.Forall_forall. intros t Ht. apply repeat_spec in Ht. subst t.
  apply improves_gated.
Qed.

Lemma prime_frame (d : list Z) (st : Tensor * Tensor) (idx : Index) :
  inside signs idx ->
  bget (fst (prime np_sqrt dims dx signs d st)) idx = bget (fst st) idx.
Proof.
  intros Hi. destruct st as [ext_field s_distance]. unfold prime.
  destruct (forallb _ d); [reflexivity|].
  destruct (_ && _); [|reflexivity]. simpl fst.
  apply where_frame; [|exact Hi].
  apply List.Forall_forall. intros t Ht. apply in_map_iff in Ht as (i & <- & _).
  destruct (nth i d 0 =? 1)%Z.
  - apply zeros_like_gated, improves_gated.
  - apply improves_gated.
Qed.

Lemma sweep_frame (st : Tensor * Tensor) (idx : Index) :
  inside signs idx ->
  bget (fst (sweep np_sqrt dims dx signs st)) idx = bget (fst st) idx.
Proof.
  intros Hi. unfold sweep. generalize (directions dims). intros ds.
  revert st. induction ds as [|d ds IH]; intros st; simpl; [reflexivity|].
  rewrite IH. destruct (forallb (Z.eqb 0) d); [reflexivity|].
  now apply relax_frame.
Qed.

Lemma sweeps_frame (n : nat) (st : Tensor * Tensor) (idx : Index) :
  inside signs idx ->
  bget (fst (Nat.iter n (sweep np_sqrt dims dx signs) st)) idx
  = bget (fst st) idx.
Proof.
  intros Hi. induction n as [|n IH]; simpl; [reflexivity|].
  rewrite sweep_frame by exact Hi. exact IH.
Qed.

Lemma primes_frame (ds : list (list Z)) (st : Tensor * Tensor) (idx : Index) :
  inside signs idx ->
  bget (fst (fold_left (fun st d => prime np_sqrt dims dx signs d st) ds st))
       idx
  = bget (fst st) idx.
Proof.
  intros Hi. revert st. induction ds as [|d ds IH]; intros st; simpl;
    [reflexivity|].
  rewrite IH. now apply prime_frame.
Qed.

End FluidCells.

Lemma occupancy_channels (input_field : Field) (particle_mask : Tensor) :
  channels (shape (signs_of (occupancy input_field particle_mask)))
  = channels (shape particle_mask).
Proof. unfold signs_of, occupancy. now destruct (is_staggered _). Qed.

Lemma extrapolate_init_field (input_field : Field) (particle_mask : Tensor)
  (distance : Z) (idx : Index) :
  bget (fst (extrapolate_init input_field particle_mask distance)) idx
  = bget (field_tensor input_field) idx.
Proof.
  unfold extrapolate_init. simpl fst. destruct input_field; simpl.
  - unfold bget. simpl. apply Qmult_1_l_eq.
  - reflexivity.
Qed.

Lemma extrapolate_loops_frame (np_sqrt : Z -> Q) (input_field : Field)
  (particle_mask : Tensor) (dx : Q) (distance : Z) (idx : Index) :
  channels (shape particle_mask) = 1%nat ->
  bget (signs_of (occupancy input_field particle_mask)) idx < 0 ->
  bget (fst (extrapolate_loops np_sqrt input_field particle_mask dx distance))
       idx
  = bget (field_tensor input_field) idx.
Proof.
  intros Hc Hi. unfold extrapolate_loops.
  assert (Hc' : channels (shape (signs_of (occupancy input_field
                                             particle_mask))) = 1%nat)
    by now rewrite occupancy_channels.
  rewrite sweeps_frame by assumption.
  destruct (is_staggered input_field).
  - rewrite primes_frame by assumption. apply extrapolate_init_field.
  - apply extrapolate_init_field.
Qed.

(** C1: [extrapolate] never overwrites a cell inside the fluid.  Where the
    sign [-(2*mask-1)] is negative, the extrapolated field holds the value of
    the input field, and it still does after any number of further sweeps. *)
Theorem extrapolate_keeps_fluid_cells (np_sqrt : Z -> Q) (input_field : Field)
  (particle_mask : Tensor) (dx : Q) (distance : Z) (idx : Index) :
  channels (shape particle_mask) = 1%nat ->
  bget (signs_of (occupancy input_field particle_mask)) idx < 0 ->
  bget (field_tensor
          (snd (extrapolate np_sqrt input_field particle_mask dx distance)))
       idx
  = bget (field_tensor input_field) idx
  /\ forall n : nat,
       bget (fst (Nat.iter n
                    (sweep np_sqrt
                       (seq 0 (spatial_rank (field_tensor input_field))) dx
                       (signs_of (occupancy input_field particle_mask)))
                    (extrapolate_loops np_sqrt input_field particle_mask dx
                                       distance)))
            idx
       = bget (field_tensor input_field) idx.
Proof.
  intros Hc Hi. split.
  - rewrite <- (extrapolate_loops_frame np_sqrt input_field particle_mask dx
                                        distance idx Hc Hi).
    unfold extrapolate.
    destruct (extrapolate_loops _ _ _ _ _) as [ext_field s_distance].
    now destruct (is_staggered input_field).
  - intros n. rewrite sweeps_frame.
    + now apply extrapolate_loops_frame.
    + now rewrite occupancy_channels.
    + exact Hi.
Qed.

(** ** [extrapolate]: the order of the offsets within a sweep *)


Lemma product_cons (pool : list Z) (pools : list (list Z)) :
  product (pool :: pools)
  = flat_map (fun x => List.map (cons x) (product pools)) pool.
Proof. reflexivity. Qed.

Lemma product_length (r : nat) :
  length (product (repeat [-1; 0; 1]%Z r)) = (3 ^ r)%nat.
Proof.
  induction r as [|r IH]; [reflexivity|].
  cbn [repeat]. rewrite product_cons. cbn [flat_map].
  rewrite !length_app, !length_map, IH, Nat.pow_succ_r'. cbn [length]. lia.
Qed.

Lemma nonzero_cons (x : Z) (d : list Z) :
  nonzero (x :: d) = negb ((0 =? x)%Z && forallb (Z.eqb 0) d).
Proof. reflexivity. Qed.

Lemma filter_cons_nonzero (x : Z) (l : list (list Z)) :
  x <> 0%Z -> List.filter nonzero (List.map (cons x) l) = List.map (cons x) l.
Proof.
  intros Hx. induction l as [|d l IH]; [reflexivity|].
  cbn [List.map List.filter]. rewrite nonzero_cons.
  destruct (Z.eqb_spec 0 x); [congruence|]. cbn [andb negb]. now rewrite IH.
Qed.

Lemma filter_cons_zero (l : list (list Z)) :
  List.filter nonzero (List.map (cons 0%Z) l)
  = List.map (cons 0%Z) (List.filter nonzero l).
Proof.
  induction l as [|d l IH]; [reflexivity|].
  cbn [List.map List.filter]. rewrite nonzero_cons.
  replace (0 =? 0)%Z with true by reflexivity. cbn [andb].
  fold (nonzero d). destruct (nonzero d); cbn [List.map]; now rewrite IH.
Qed.

Lemma nonzero_offsets_length (r : nat) :
  length (List.filter nonzero (product (repeat [-1; 0; 1]%Z r)))
  = (3 ^ r - 1)%nat.
Proof.
  induction r as [|r IH]; [reflexivity|].
  cbn [repeat]. rewrite product_cons. cbn [flat_map].
  rewrite app_nil_r, !List.filter_app.
  rewrite (filter_cons_nonzero (-1)%Z), (filter_cons_nonzero 1%Z)
    by discriminate.
  rewrite filter_cons_zero.
  rewrite !length_app, !length_map, IH, product_length.
  assert (0 < 3 ^ r)%nat by (apply Nat.neq_0_lt_0, Nat.pow_nonzero; lia).
  rewrite Nat.pow_succ_r'. cbn [length]. lia.
Qed.

Lemma sweep_filter (np_sqrt : Z -> Q) (dims : list nat) (dx : Q)
  (signs : Tensor) (ds : list (list Z)) (st : Tensor * Tensor) :
  fold_left (fun st d => if forallb (Z.eqb 0) d then st
                         else relax np_sqrt dims dx signs d st) ds st
  = fold_left (fun st d => relax np_sqrt dims dx signs d st)
              (List.filter nonzero ds) st.
Proof.
  revert st. induction ds as [|d ds IH]; intros st; [reflexivity|].
  simpl. unfold nonzero at 1. destruct (forallb (Z.eqb 0) d); simpl; apply IH.
Qed.

(** ** The heap monad *)

Section PhysicsFacts.

Context {Domain Grid Geometry : Type}.
Variable X : Externals Domain Grid Geometry.

Lemma bind_ok {A B : Type} (m : M Domain Geometry A)
  (k : A -> M Domain Geometry B) (h h1 : Heap Domain Geometry) (a : A) :
  m h = Ok (a, h1) -> bind m k h = k a h1.
Proof. intros E. unfold bind. now rewrite E. Qed.

Lemma read_state_ok (s : loc) (st : GridLiquid Domain)
  (h : Heap Domain Geometry) :
  states h !! s = Some st -> read_state s h = Ok (st, h).
Proof. intros E. unfold read_state. now rewrite E. Qed.

Lemma read_cache_ok (c : loc) (dc : DomainCache Domain Geometry)
  (h : Heap Domain Geometry) :
  caches h !! c = Some dc -> read_cache c h = Ok (dc, h).
Proof. intros E. unfold read_cache. now rewrite E. Qed.

(** ** [solve_pressure] *)

Lemma solve_pressure_staggered (v : Tensor) (c : loc)
  (pressure_solver : option (PressureSolver Domain Geometry))
  (h : Heap Domain Geometry) (dc : DomainCache Domain Geometry) :
  caches h !! c = Some dc ->
  solve_pressure X (OfField (StaggeredGrid v)) c pressure_solver h
  = Ok (solve (solver_or_default X pressure_solver)
              (staggered_divergence X v) dc None, h).
Proof.
  intros Hc. unfold solve_pressure.
  rewrite (bind_ok _ _ _ _ _ (read_cache_ok c dc h Hc)).
  destruct pressure_solver; reflexivity.
Qed.

(** C6: [solve_pressure] on a field.  A staggered velocity and a centered
    field whose last dimension is the rank of the domain are accepted: the
    divergence goes to [solver.solve(divergence, domaincache, None)], with the
    default solver when none is given, and its pair of pressure and iteration
    count is returned, the heap untouched.  Every other field raises
    [ValueError], and no field raises otherwise. *)
Theorem solve_pressure_accepts (f : Field) (c : loc)
  (pressure_solver : option (PressureSolver Domain Geometry))
  (h : Heap Domain Geometry) (dc : DomainCache Domain Geometry) :
  caches h !! c = Some dc ->
  let accepted :=
    match f with
    | StaggeredGrid _ => true
    | Array t => (channels (shape t) =? rank X (dc_domain dc))%nat
    end in
  let divergence :=
    match f with
    | StaggeredGrid staggered => staggered_divergence X staggered
    | Array t => nd_divergence_central X t
    end in
  (accepted = true ->
   solve_pressure X (OfField f) c pressure_solver h
   = Ok (solve (solver_or_default X pressure_solver) divergence dc None, h))
  /\ (accepted = false ->
      solve_pressure X (OfField f) c pressure_solver h = Raise ValueError)
  /\ ((exists e, solve_pressure X (OfField f) c pressure_solver h = Raise e)
      <-> accepted = false)
  /\ (forall s st v,
        states h !! s = Some st -> _velocity st = StaggeredGrid v ->
        solve_pressure X (OfState s) c pressure_solver h
        = Ok (solve (solver_or_default X pressure_solver)
                    (staggered_divergence X v) dc None, h)).
Proof.
  intros Hc accepted divergence.
  assert (Hyes : accepted = true ->
                 solve_pressure X (OfField f) c pressure_solver h
                 = Ok (solve (solver_or_default X pressure_solver)
                             divergence dc None, h)).
  { intros Ha. destruct f as [t | v].
    - unfold solve_pressure.
      rewrite (bind_ok _ _ _ _ _ (read_cache_ok c dc h Hc)).
      subst accepted. simpl in Ha. rewrite Ha.
      destruct pressure_solver; reflexivity.
    - now apply solve_pressure_staggered. }
  assert (Hno : accepted = false ->
                solve_pressure X (OfField f) c pressure_solver h
                = Raise ValueError).
  { intros Ha. destruct f as [t | v]; [|discriminate].
    unfold solve_pressure.
    rewrite (bind_ok _ _ _ _ _ (read_cache_ok c dc h Hc)).
    subst accepted. simpl in Ha. now rewrite Ha. }
  split; [exact Hyes|]. split; [exact Hno|]. split; [split|].
  - intros [e He]. destruct accepted; [|reflexivity].
    rewrite Hyes in He by reflexivity. discriminate.
  - intros Ha. exists ValueError. now apply Hno.
  - intros s st v Hs Hv. unfold solve_pressure.
    rewrite (bind_ok _ _ _ _ _ (read_cache_ok c dc h Hc)).
    unfold bind at 1.
    rewrite (bind_ok _ _ _ _ _ (read_state_ok s st h Hs)). rewrite Hv.
    destruct pressure_solver; reflexivity.
Qed.

(** ** [divergence_free] *)

Lemma extrapolate_staggered (sq : Z -> Q) (v mask : Tensor) (dx : Q)
  (distance : Z) :
  snd (extrapolate sq (StaggeredGrid v) mask dx distance)
  = StaggeredGrid
      (fst (extrapolate_loops sq (StaggeredGrid v) mask dx distance)).
Proof.
  unfold extrapolate. now destruct (extrapolate_loops _ _ _ _ _).
Qed.

Lemma divergence_free_field_run (v : Tensor) (c : loc)
  (pressure_solver : option (PressureSolver Domain Geometry))
  (sink : option loc) (h : Heap Domain Geometry)
  (dc : DomainCache Domain Geometry) :
  caches h !! c = Some dc ->
  (forall s, sink = Some s -> is_Some (states h !! s)) ->
  divergence_free_field X (StaggeredGrid v) c pressure_solver sink h
  = Ok (snd (projected X dc pressure_solver v),
        recorded sink (fst (fst (projected X dc pressure_solver v)))
                 (snd (fst (projected X dc pressure_solver v))) h).
Proof.
  intros Hc Hsink. unfold divergence_free_field.
  rewrite (bind_ok _ _ _ _ _ (read_cache_ok c dc h Hc)).
  unfold projected. rewrite extrapolate_staggered.
  cbn [with_hard_boundary_conditions field_tensor fst snd].
  rewrite (bind_ok _ _ _ _ _
             (solve_pressure_staggered _ c pressure_solver h dc Hc)).
  destruct sink as [s|]; [|reflexivity].
  destruct (Hsink s eq_refl) as [st Hst].
  unfold recorded. rewrite Hst.
  unfold bind at 1.
  rewrite (bind_ok _ _ _ _ _ (read_state_ok s st h Hst)).
  reflexivity.
Qed.

(** C5: [divergence_free] on a staggered velocity runs the five steps in
    order.  It extrapolates the velocity from the active mask, padded to the
    faces: the priming pass and two relaxation sweeps, which leave the
    velocity inside the fluid as it is.  It applies the hard boundary
    conditions, solves for the pressure from the divergence of that velocity,
    subtracts the gradient of the pressure, entry by entry, from the velocity
    it was given, and reapplies the boundary conditions.  With a sink the
    pressure and the iteration count are assigned on it and nothing else
    changes; the velocity returned is the one returned without a sink. *)
Theorem divergence_free_steps (v : Tensor) (c : loc)
  (pressure_solver : option (PressureSolver Domain Geometry))
  (h : Heap Domain Geometry) (dc : DomainCache Domain Geometry) :
  caches h !! c = Some dc ->
  let dims := seq 0 (spatial_rank v) in
  let signs := signs_of (occupancy (StaggeredGrid v) (active dc)) in
  let start := extrapolate_init (StaggeredGrid v) (active dc) 2 in
  let primed :=
    fold_left (fun st d => prime (np_sqrt X) dims 1 signs d st)
              (directions dims) start in
  let extrapolated :=
    fst (sweep (np_sqrt X) dims 1 signs
               (sweep (np_sqrt X) dims 1 signs primed)) in
  let bounded := hard_boundary X dc extrapolated in
  let solved :=
    solve (solver_or_default X pressure_solver)
          (staggered_divergence X bounded) dc None in
  let gradp := staggered_gradient X (fst solved) in
  let difference := math.sub v gradp in
  let velocity := StaggeredGrid (hard_boundary X dc difference) in
  divergence_free X (OfField (StaggeredGrid v)) c pressure_solver None h
  = Ok (OfField velocity, h)
  /\ (forall s st,
        states h !! s = Some st ->
        divergence_free X (OfField (StaggeredGrid v)) c pressure_solver
                        (Some s) h
        = Ok (OfField velocity,
              mkHeap (<[s := set_last_pressure (fst solved) (snd solved) st]>
                        (states h))
                     (caches h)))
  /\ (forall idx,
        shape gradp = shape v -> in_range (shape v) idx = true ->
        get difference idx = get v idx - get gradp idx)
  /\ (forall idx,
        channels (shape (active dc)) = 1%nat -> bget signs idx < 0 ->
        bget extrapolated idx = bget v idx).
Proof.
  intros Hc dims signs start primed extrapolated bounded solved gradp
         difference velocity.
  split; [|split; [|split]].
  - unfold divergence_free.
    rewrite (bind_ok _ _ _ _ _
               (divergence_free_field_run v c pressure_solver None h dc Hc
                  ltac:(discriminate))).
    unfold projected. rewrite extrapolate_staggered. reflexivity.
  - intros s st Hs. unfold divergence_free.
    rewrite (bind_ok _ _ _ _ _
               (divergence_free_field_run v c pressure_solver (Some s) h dc
                  Hc ltac:(intros s0 [= <-]; eauto))).
    unfold recorded. rewrite Hs.
    unfold projected. rewrite extrapolate_staggered. reflexivity.
  - intros idx Hg Hi. unfold difference, math.sub. now apply zip_get.
  - intros idx Hch Hin.
    apply (extrapolate_loops_frame (np_sqrt X) (StaggeredGrid v) (active dc)
                                   1 2 idx Hch Hin).
Qed.

(** C10: [divergence_free] on a state projects the velocity of the state with
    the default solver and records nothing.  The solver and the sink that
    were passed do not reach the inner call: the result is a new state whose
    velocity comes from [SparseCG], and every state of the heap, the sink
    included, is as it was. *)
Theorem divergence_free_state_ignores_solver (s c : loc)
  (pressure_solver : option (PressureSolver Domain Geometry))
  (sink : option loc) (h : Heap Domain Geometry)
  (st : GridLiquid Domain) (v : Tensor) (dc : DomainCache Domain Geometry) :
  states h !! s = Some st ->
  _velocity st = StaggeredGrid v ->
  caches h !! c = Some dc ->
  let velocity := snd (projected X dc None v) in
  let s' := fresh (dom (states h)) in
  let h' := mkHeap (<[s' := with_velocity velocity st]> (states h))
                   (caches h) in
  divergence_free X (OfState s) c pressure_solver sink h = Ok (OfState s', h')
  /\ divergence_free X (OfState s) c pressure_solver sink h
     = divergence_free X (OfState s) c None None h
  /\ (forall s0, is_Some (states h !! s0) ->
                 states h' !! s0 = states h !! s0)
  /\ _last_pressure (with_velocity velocity st) = _last_pressure st
  /\ _last_pressure_iterations (with_velocity velocity st)
     = _last_pressure_iterations st.
Proof.
  intros Hs Hv Hc velocity s' h'.
  assert (E : forall ps sk,
             divergence_free X (OfState s) c ps sk h = Ok (OfState s', h')).
  { intros ps sk. unfold divergence_free.
    rewrite (bind_ok _ _ _ _ _ (read_state_ok s st h Hs)). rewrite Hv.
    rewrite (bind_ok _ _ _ _ _
               (divergence_free_field_run v c None None h dc Hc
                  ltac:(discriminate))).
    cbn [recorded]. unfold copied_with.
    unfold bind at 1.
    rewrite (bind_ok _ _ _ _ _ (read_state_ok s st h Hs)).
    reflexivity. }
  split; [apply E|]. split; [now rewrite !E|]. split; [|split; reflexivity].
  intros s0 [st0 Hs0]. subst h'. cbn [states].
  apply lookup_insert_ne. intros <-.
  assert (Hf : s' ∉ dom (states h)) by apply is_fresh.
  apply Hf. apply elem_of_dom. eauto.
Qed.

(** ** [domain] *)

Lemma domain_run (s : loc) (obstacles : list (Obstacle Geometry))
  (h : Heap Domain Geometry) (st : GridLiquid Domain)
  (prior : option (DomainCache Domain Geometry)) :
  states h !! s = Some st ->
  match domaincache st with
  | None => prior = None
  | Some c => caches h !! c = prior /\ prior <> None
  end ->
  domain X s obstacles h
  = if stale X prior obstacles
    then let c := fresh (dom (caches h)) in
         Ok (c, mkHeap (<[s := set_domaincache c st]> (states h))
                       (<[c := rebuilt X st prior obstacles]> (caches h)))
    else match domaincache st with
         | Some c => Ok (c, h)
         | None => Raise NoSuchObject
         end.
Proof.
  intros Hs Hp. unfold domain.
  rewrite (bind_ok _ _ _ _ _ (read_state_ok s st h Hs)).
  destruct (domaincache st) as [c|].
  - destruct Hp as [Hc Hne]. destruct prior as [dc|]; [|congruence].
    rewrite (bind_ok _ _ _ _ _ (read_cache_ok c dc h Hc)).
    cbn [stale]. destruct (is_valid X dc obstacles); reflexivity.
  - subst prior. reflexivity.
Qed.

(** ** [GridLiquidPhysics.step] *)

Lemma step_run (self : GridLiquidPhysics Domain Geometry) (s c : loc)
  (dt : Q) (obstacles : list (Obstacle Geometry))
  (inflows : list (Inflow Geometry)) (h h1 : Heap Domain Geometry)
  (st1 : GridLiquid Domain) (dc1 : DomainCache Domain Geometry)
  (v mask : Tensor) :
  domain X s obstacles h = Ok (c, h1) ->
  states h1 !! s = Some st1 ->
  caches h1 !! c = Some dc1 ->
  _velocity st1 = StaggeredGrid v ->
  create_binary_mask (Array (step_density X dt inflows st1)) (1 # 2)
  = Ok mask ->
  step X self s dt obstacles inflows h
  = Ok (fresh (dom (tick_states X self s dt st1 dc1 mask h1)),
        tick_heap X self s c dt inflows st1 dc1 mask h1).
Proof.
  intros Hd Hs Hc Hv Hm. unfold step.
  rewrite (bind_ok _ _ _ _ _ Hd).
  rewrite (bind_ok _ _ _ _ _ (read_state_ok s st1 h1 Hs)).
  fold (step_density X dt inflows st1).
  unfold bind at 1. unfold lift at 1. rewrite Hm.
  rewrite (bind_ok _ _ _ _ _ (read_cache_ok c dc1 h1 Hc)).
  unfold bind at 1. unfold write_cache at 1.
  set (h2 := mkHeap (states h1) (<[c := set_active mask dc1]> (caches h1))).
  assert (Hc2 : caches h2 !! c = Some (set_active mask dc1))
    by apply lookup_insert_eq.
  assert (Hs2 : states h2 !! s = Some st1) by exact Hs.
  assert (Hsink : forall s0, Some s = Some s0 -> is_Some (states h2 !! s0)).
  { intros s0 [= <-]. eauto. }
  unfold divergence_free. rewrite Hv at 1.
  cbn [add_vector field_tensor].
  match goal with
  | |- context [divergence_free_field X (StaggeredGrid ?w)] =>
      pose proof (divergence_free_field_run w c (pressure_solver self)
                    (Some s) h2 _ Hc2 Hsink) as Hrun
  end.
  unfold bind at 1. rewrite (bind_ok _ _ _ _ _ Hrun). clear Hrun.
  unfold ret at 1. cbn [recorded]. rewrite Hs2.
  set (h3 := mkHeap _ (caches h2)).
  assert (Hc3 : caches h3 !! c = Some (set_active mask dc1)) by exact Hc2.
  rewrite (bind_ok _ _ _ _ _ (read_cache_ok c _ h3 Hc3)).
  assert (Hs3 : states h3 !! s
                = Some (tick_input X self dt st1 dc1 mask)).
  { subst h3. cbn [states]. unfold tick_input, tick_projection, tick_cache,
      tick_velocity. rewrite Hv. apply lookup_insert_eq. }
  rewrite (bind_ok _ _ _ _ _ (read_state_ok s _ h3 Hs3)).
  unfold copied_with.
  rewrite (bind_ok _ _ _ _ _ (read_state_ok s _ h3 Hs3)).
  unfold new_state, tick_heap, tick_states, tick_output, tick_transport,
    tick_input, tick_projection, tick_cache, tick_velocity.
  subst h3 h2. cbn [states caches]. rewrite Hv. reflexivity.
Qed.


Lemma step_ok (self : GridLiquidPhysics Domain Geometry) (s : loc) (dt : Q)
  (obstacles : list (Obstacle Geometry)) (inflows : list (Inflow Geometry))
  (h : Heap Domain Geometry) (st : GridLiquid Domain)
  (prior : option (DomainCache Domain Geometry)) (v mask : Tensor) :
  states h !! s = Some st ->
  prior_of h st prior ->
  _velocity st = StaggeredGrid v ->
  create_binary_mask (Array (step_density X dt inflows st)) (1 # 2) = Ok mask ->
  exists c st1 dc1 h1,
    domain X s obstacles h = Ok (c, h1)
    /\ states h1 !! s = Some st1
    /\ caches h1 !! c = Some dc1
    /\ (if stale X prior obstacles
        then c = fresh (dom (caches h))
             /\ st1 = set_domaincache c st
             /\ dc1 = rebuilt X st prior obstacles
             /\ h1 = mkHeap (<[s := st1]> (states h))
                            (<[c := dc1]> (caches h))
        else domaincache st = Some c /\ prior = Some dc1
             /\ st1 = st /\ h1 = h)
    /\ step X self s dt obstacles inflows h
       = Ok (fresh (dom (tick_states X self s dt st1 dc1 mask h1)),
             tick_heap X self s c dt inflows st1 dc1 mask h1).
Proof.
  intros Hs Hp Hv Hm.
  pose proof (domain_run s obstacles h st prior Hs Hp) as Hd.
  destruct (stale X prior obstacles) eqn:Est.
  - cbv zeta in Hd.
    set (c := fresh (dom (caches h))) in *.
    exists c, (set_domaincache c st), (rebuilt X st prior obstacles).
    eexists. split; [exact Hd|].
    assert (H1 : states (mkHeap (<[s := set_domaincache c st]> (states h))
                   (<[c := rebuilt X st prior obstacles]> (caches h))) !! s
                 = Some (set_domaincache c st)) by apply lookup_insert_eq.
    assert (H2 : caches (mkHeap (<[s := set_domaincache c st]> (states h))
                   (<[c := rebuilt X st prior obstacles]> (caches h))) !! c
                 = Some (rebuilt X st prior obstacles))
      by apply lookup_insert_eq.
    split; [exact H1|]. split; [exact H2|]. split; [auto|].
    apply (step_run self s c dt obstacles inflows h _ _ _ v mask Hd H1 H2);
      [exact Hv | exact Hm].
  - unfold prior_of in Hp. destruct (domaincache st) as [c|] eqn:Edc.
    + destruct Hp as [Hc Hne]. destruct prior as [dc|]; [|congruence].
      exists c, st, dc, h. repeat split; auto.
      apply (step_run self s c dt obstacles inflows h h st dc v mask);
        assumption.
    + subst prior. discriminate.
Qed.

Lemma tick_heap_facts (self : GridLiquidPhysics Domain Geometry) (s c : loc)
  (dt : Q) (inflows : list (Inflow Geometry)) (st1 : GridLiquid Domain)
  (dc1 : DomainCache Domain Geometry) (mask : Tensor)
  (h1 : Heap Domain Geometry) :
  let s' := fresh (dom (tick_states X self s dt st1 dc1 mask h1)) in
  let h' := tick_heap X self s c dt inflows st1 dc1 mask h1 in
  states h' !! s' = Some (tick_output X self dt inflows st1 dc1 mask)
  /\ states h' !! s = Some (tick_input X self dt st1 dc1 mask)
  /\ caches h' !! c = Some (tick_cache dc1 mask)
  /\ s' <> s
  /\ states h1 !! s' = None
  /\ (forall s0, s0 <> s -> s0 <> s' -> states h' !! s0 = states h1 !! s0).
Proof.
  intros s' h'.
  assert (Hf : s' ∉ dom (tick_states X self s dt st1 dc1 mask h1))
    by apply is_fresh.
  assert (Hne : s' <> s).
  { intros E. apply Hf. rewrite E. unfold tick_states.
    apply elem_of_dom. rewrite lookup_insert_eq. eauto. }
  subst h'. unfold tick_heap. cbn [states caches].
  split; [apply lookup_insert_eq|]. split.
  { rewrite lookup_insert_ne by exact Hne. apply lookup_insert_eq. }
  split; [apply lookup_insert_eq|]. split; [exact Hne|]. split.
  { apply not_elem_of_dom in Hf. unfold tick_states in Hf.
    now rewrite lookup_insert_ne in Hf by auto. }
  intros s0 H0 H0'. rewrite lookup_insert_ne by auto.
  unfold tick_states. now rewrite lookup_insert_ne by auto.
Qed.

(** C7 (as amended): [domain] keeps the cache of the state, object and
    masks, exactly when there is one and it is valid for the obstacles: the
    active mask then stays the one of that cache, and no product is taken.
    Otherwise it builds a new cache whose accessible mask is
    [1 - geometry_mask(...)], entry by entry, and whose active mask is that
    mask, times the active mask of the prior cache when there was one.  In
    both cases the tick then overwrites the active mask of the cache with the
    occupancy of the new density at threshold 0.5, and leaves the accessible
    mask of the cache as [domain] returned it. *)
Theorem domain_cache_reuse (self : GridLiquidPhysics Domain Geometry)
  (s : loc) (dt : Q) (obstacles : list (Obstacle Geometry))
  (inflows : list (Inflow Geometry)) (h : Heap Domain Geometry)
  (st : GridLiquid Domain) (prior : option (DomainCache Domain Geometry))
  (v mask : Tensor) :
  states h !! s = Some st ->
  prior_of h st prior ->
  _velocity st = StaggeredGrid v ->
  create_binary_mask (Array (step_density X dt inflows st)) (1 # 2) = Ok mask ->
  let accessible := accessible_mask X st obstacles in
  stale X prior obstacles
  = match prior with
    | None => true
    | Some dc => negb (is_valid X dc obstacles)
    end
  /\ (stale X prior obstacles = false ->
      exists c dc, domaincache st = Some c
                   /\ prior = Some dc
                   /\ caches h !! c = Some dc
                   /\ domain X s obstacles h = Ok (c, h))
  /\ (stale X prior obstacles = true ->
      let c := fresh (dom (caches h)) in
      caches h !! c = None
      /\ domain X s obstacles h
         = Ok (c, mkHeap (<[s := set_domaincache c st]> (states h))
                    (<[c := mkDomainCache (_domain st) obstacles
                             (match prior with
                              | None => accessible
                              | Some dc => math.mul accessible (active dc)
                              end)
                             accessible]> (caches h))))
  /\ (forall idx,
        get accessible idx
        = 1 - get (geometry_mask X (List.map (@o_geometry Geometry) obstacles)
                                 (grid X (_domain st))) idx)
  /\ (forall (dc : DomainCache Domain Geometry) idx,
        shape (active dc) = shape accessible ->
        in_range (shape accessible) idx = true ->
        get (math.mul accessible (active dc)) idx
        = get accessible idx * get (active dc) idx)
  /\ exists s' h' c dc',
       step X self s dt obstacles inflows h = Ok (s', h')
       /\ (exists now, states h' !! s = Some now
                       /\ domaincache now = Some c)
       /\ caches h' !! c = Some dc'
       /\ _active dc' = mask
       /\ (stale X prior obstacles = false ->
           domaincache st = Some c
           /\ exists dc, prior = Some dc
                         /\ _accessible dc' = _accessible dc)
       /\ (stale X prior obstacles = true ->
           c = fresh (dom (caches h)) /\ _accessible dc' = accessible).
Proof.
  intros Hs Hp Hv Hm accessible. split; [reflexivity|].
  pose proof (domain_run s obstacles h st prior Hs Hp) as Hd.
  split; [|split; [|split; [|split]]].
  - intros E. rewrite E in Hd. unfold prior_of in Hp.
    destruct (domaincache st) as [c|].
    + destruct Hp as [Hc Hne]. destruct prior as [dc|]; [|congruence].
      exists c, dc. auto.
    + subst prior. discriminate.
  - intros E. rewrite E in Hd. cbv zeta in *. split; [|exact Hd].
    apply not_elem_of_dom. apply is_fresh.
  - reflexivity.
  - intros dc idx Hsh Hi. unfold math.mul. now apply zip_get.
  - destruct (step_ok self s dt obstacles inflows h st prior v mask
                      Hs Hp Hv Hm)
      as (c & st1 & dc1 & h1 & _ & Hs1 & Hc1 & Hcase & Hstep).
    destruct (tick_heap_facts self s c dt inflows st1 dc1 mask h1)
      as (_ & Hin & Hca & _).
    eexists _, _, c, (tick_cache dc1 mask).
    split; [exact Hstep|]. split.
    { eexists. split; [exact Hin|].
      destruct (stale X prior obstacles).
      - destruct Hcase as (_ & -> & _). reflexivity.
      - destruct Hcase as (Hdc & _ & -> & _). exact Hdc. }
    split; [exact Hca|]. split; [reflexivity|]. split.
    + intros E. rewrite E in Hcase. destruct Hcase as (Hdc & Hpr & _ & _).
      split; [exact Hdc|]. exists dc1. split; [exact Hpr | reflexivity].
    + intros E. rewrite E in Hcase. destruct Hcase as (Hc & _ & -> & _).
      split; [exact Hc | reflexivity].
Qed.

(** ** [inflow] *)

Lemma fold_add2_shape (ts : list Tensor) (t : Tensor) :
  (forall t', In t' ts -> shape t' = shape t) ->
  shape (fold_left math.add2 ts t) = shape t.
Proof.
  revert t. induction ts as [|t' ts IH]; intros t H; [reflexivity|].
  cbn [fold_left]. unfold math.add2 at 2. rewrite IH.
  - apply zip_shape. apply H. now left.
  - intros t'' Ht''. rewrite zip_shape by (apply H; now left).
    apply H. now right.
Qed.

Lemma fold_add2_get (ts : list Tensor) (t : Tensor) (idx : Index) :
  (forall t', In t' ts -> shape t' = shape t) ->
  in_range (shape t) idx = true ->
  get (fold_left math.add2 ts t) idx
  == get t idx + sumQ (List.map (fun t' => get t' idx) ts).
Proof.
  revert t. induction ts as [|t' ts IH]; intros t H Hi;
    cbn [fold_left List.map sumQ fold_right].
  - ring.
  - assert (Hs : shape t' = shape t) by (apply H; now left).
    unfold math.add2 at 2. rewrite IH.
    + rewrite zip_get by assumption. fold (sumQ (List.map (fun t'0 => get t'0 idx) ts)). ring.
    + intros t'' Ht''. rewrite zip_shape by assumption.
      apply H. now right.
    + now rewrite zip_shape.
Qed.

(** C8: the density that the tick thresholds and advects is the input
    density plus [dt] times the sum over the inflows of the value of the
    inflow geometry at the cell centres times the inflow rate; without
    inflows the injected field is the all-zero field of the centered shape of
    the grid, whatever the grid and [dt]. *)
Theorem step_injects_inflow (self : GridLiquidPhysics Domain Geometry)
  (s : loc) (dt : Q) (obstacles : list (Obstacle Geometry))
  (inflows : list (Inflow Geometry)) (h : Heap Domain Geometry)
  (st : GridLiquid Domain) (prior : option (DomainCache Domain Geometry))
  (v mask : Tensor) :
  states h !! s = Some st ->
  prior_of h st prior ->
  _velocity st = StaggeredGrid v ->
  create_binary_mask (Array (step_density X dt inflows st)) (1 # 2) = Ok mask ->
  let g := grid X (_domain st) in
  let source := fun i : Inflow Geometry =>
                  value_at X (i_geometry i) (center_points X g) in
  (exists s' h' out transport,
      step X self s dt obstacles inflows h = Ok (s', h')
      /\ states h' !! s' = Some out
      /\ _density out
         = field_tensor (advect X transport
                           (Array (step_density X dt inflows st)) dt))
  /\ (forall idx,
        in_range (shape (_density st)) idx = true ->
        (forall i, In i inflows -> shape (source i) = shape (_density st)) ->
        (inflows = [] -> grid_shape X g = shape (_density st)) ->
        get (step_density X dt inflows st) idx
        == get (_density st) idx
           + dt * sumQ (List.map (fun i => get (source i) idx * rate i)
                                 inflows))
  /\ inflow X [] g = math.zeros (grid_shape X g)
  /\ shape (inflow_density X dt [] st) = grid_shape X g
  /\ forall idx, get (inflow X [] g) idx = 0
                 /\ get (inflow_density X dt [] st) idx == 0.
Proof.
  intros Hs Hp Hv Hm g source. split; [|split; [|split; [|split]]].
  - destruct (step_ok self s dt obstacles inflows h st prior v mask
                      Hs Hp Hv Hm)
      as (c & st1 & dc1 & h1 & _ & _ & _ & Hcase & Hstep).
    destruct (tick_heap_facts self s c dt inflows st1 dc1 mask h1)
      as (Hout & _).
    eexists _, _, _, _. split; [exact Hstep|]. split; [exact Hout|].
    cbn [tick_output with_density_velocity_age _density].
    replace (step_density X dt inflows st1) with (step_density X dt inflows st);
      [reflexivity|].
    destruct (stale X prior obstacles).
    + destruct Hcase as (_ & -> & _). reflexivity.
    + destruct Hcase as (_ & _ & -> & _). reflexivity.
  - intros idx Hi Hsh Hempty.
    unfold step_density, inflow_density, inflow. fold g.
    destruct inflows as [|i0 rest].
    + cbn [length Nat.eqb]. unfold math.add2.
      rewrite zip_get; [simpl; ring | simpl; now apply Hempty | exact Hi].
    + cbn [length Nat.eqb List.map math.add].
      fold (source i0).
      assert (Hs0 : shape (math.map (fun x => x * rate i0) (source i0))
                    = shape (_density st)).
      { simpl. apply Hsh. now left. }
      assert (Hrest : forall t',
                 In t' (List.map (fun i => math.map (fun x => x * rate i)
                                             (source i)) rest) ->
                 shape t' = shape (math.map (fun x => x * rate i0)
                                            (source i0))).
      { intros t' Ht'. apply in_map_iff in Ht' as (i & <- & Hin).
        rewrite Hs0. simpl. apply Hsh. now right. }
      unfold math.add2 at 1. rewrite zip_get.
      * cbn [math.scale math.map get].
        rewrite fold_add2_get; [| exact Hrest | now rewrite Hs0].
        rewrite map_map. cbn [math.map get sumQ fold_right List.map].
        apply Qeq_refl.
      * cbn [math.scale math.map shape].
        rewrite fold_add2_shape by exact Hrest. exact Hs0.
      * exact Hi.
  - reflexivity.
  - reflexivity.
  - intros idx. split; [reflexivity|]. simpl. ring.
Qed.

(** C9 (as amended): a tick returns a new state object and leaves the domain,
    density, velocity, gravity and age of the input state as they were, as it
    leaves every other state of the heap.  Three attributes of the input
    state are assigned in place: its domain cache, which is the cache that
    [domain] returns, and its last pressure and last iteration count, which
    are the ones of the projection of the tick.  The active mask of that
    cache is overwritten in place with the occupancy of the new density; its
    other attributes and every other cache are as [domain] left them. *)
Theorem step_keeps_input_fields (self : GridLiquidPhysics Domain Geometry)
  (s : loc) (dt : Q) (obstacles : list (Obstacle Geometry))
  (inflows : list (Inflow Geometry)) (h : Heap Domain Geometry)
  (st : GridLiquid Domain) (prior : option (DomainCache Domain Geometry))
  (v mask : Tensor) :
  states h !! s = Some st ->
  prior_of h st prior ->
  _velocity st = StaggeredGrid v ->
  create_binary_mask (Array (step_density X dt inflows st)) (1 # 2) = Ok mask ->
  exists s' h' out c dc1,
    step X self s dt obstacles inflows h = Ok (s', h')
    /\ s' <> s
    /\ states h !! s' = None
    /\ states h' !! s' = Some out
    /\ age out = age st + dt
    /\ (if stale X prior obstacles
        then c = fresh (dom (caches h))
             /\ dc1 = rebuilt X st prior obstacles
        else domaincache st = Some c /\ prior = Some dc1)
    /\ let cache := set_active mask dc1 in
       let projection :=
         projected X cache (pressure_solver self)
                   (field_tensor
                      (add_vector (_velocity st)
                                  (List.map (Qmult dt) (_gravity st)))) in
       states h' !! s
       = Some (mkGridLiquid (_domain st) (_density st) (_velocity st)
                            (_gravity st) (age st) (Some c)
                            (Some (fst (fst projection)))
                            (Some (snd (fst projection))))
       /\ caches h' !! c = Some cache
       /\ _active cache = mask
       /\ _accessible cache = _accessible dc1
       /\ dc_obstacles cache = dc_obstacles dc1
       /\ dc_domain cache = dc_domain dc1
       /\ (forall s0, s0 <> s -> s0 <> s' ->
                      states h' !! s0 = states h !! s0)
       /\ (forall c0, c0 <> c -> caches h' !! c0 = caches h !! c0).
Proof.
  intros Hs Hp Hv Hm.
  destruct (step_ok self s dt obstacles inflows h st prior v mask
                    Hs Hp Hv Hm)
    as (c & st1 & dc1 & h1 & _ & _ & _ & Hcase & Hstep).
  destruct (tick_heap_facts self s c dt inflows st1 dc1 mask h1)
    as (Hout & Hin & Hca & Hne & Hnew & Hother).
  assert (Hst1 : st1 = set_domaincache c st
                 /\ (stale X prior obstacles = false ->
                     domaincache st = Some c)).
  { destruct (stale X prior obstacles).
    - split; [tauto | discriminate].
    - destruct Hcase as (Hdc & _ & -> & _). split; [|auto].
      destruct st. cbn in Hdc. subst. reflexivity. }
  destruct Hst1 as [-> Hreuse].
  assert (Hh1 : forall s0, s0 <> s -> states h1 !! s0 = states h !! s0).
  { intros s0 H0. destruct (stale X prior obstacles).
    - destruct Hcase as (_ & _ & _ & ->). cbn [states].
      now rewrite lookup_insert_ne by auto.
    - destruct Hcase as (_ & _ & _ & ->). reflexivity. }
  assert (Hc1 : forall c0, c0 <> c -> caches h1 !! c0 = caches h !! c0).
  { intros c0 H0. destruct (stale X prior obstacles).
    - destruct Hcase as (_ & _ & _ & ->). cbn [caches].
      now rewrite lookup_insert_ne by auto.
    - destruct Hcase as (_ & _ & _ & ->). reflexivity. }
  eexists _, _, _, c, dc1. split; [exact Hstep|].
  split; [exact Hne|]. split; [rewrite <- Hh1 by exact Hne; exact Hnew|].
  split; [exact Hout|]. split; [reflexivity|]. split.
  { destruct (stale X prior obstacles).
    - destruct Hcase as (Hc & _ & Hdc & _). auto.
    - destruct Hcase as (Hdc & Hpr & _ & _). auto. }
  cbv zeta. split; [exact Hin|]. split; [exact Hca|].
  split; [reflexivity|]. split; [reflexivity|]. split; [reflexivity|].
  split; [reflexivity|]. split.
  - intros s0 H0 H0'. rewrite Hother by auto. now apply Hh1.
  - intros c0 H0. unfold tick_heap. cbn [caches].
    rewrite lookup_insert_ne by auto. now apply Hc1.
Qed.

End PhysicsFacts.

(** ** The theorems at concrete inputs *)

Lemma extrapolate_keeps_fluid_cells_witness :
  let input_field := Array (line [10; 20; 30]) in
  let particle_mask := line [1; 0; 1] in
  let idx := mkIndex 0 [2%nat] 0 in
  bget (signs_of (occupancy input_field particle_mask)) idx < 0
  /\ bget (field_tensor (snd (extrapolate Toy.sqrt input_field particle_mask
                                          1 1))) idx
     = bget (field_tensor input_field) idx.
Proof.
  intros input_field particle_mask idx.
  assert (Hs : bget (signs_of (occupancy input_field particle_mask)) idx < 0)
    by (vm_compute; reflexivity).
  split; [exact Hs|].
  apply (extrapolate_keeps_fluid_cells Toy.sqrt input_field particle_mask
                                       1 1 idx eq_refl Hs).
Defined.



Lemma solve_pressure_accepts_witness :
  solve_pressure Toy.world (OfField (Array (line [1; 2; 3]))) 0%nat None
                 Toy.cached_heap
  = Ok (solve Toy.cg (math.zeros_like (line [1; 2; 3])) Toy.cache None,
        Toy.cached_heap).
Proof.
  destruct (solve_pressure_accepts Toy.world (Array (line [1; 2; 3])) 0%nat
              None Toy.cached_heap Toy.cache) as (H & _); [reflexivity|].
  exact (H eq_refl).
Defined.

Lemma divergence_free_steps_witness :
  exists velocity h',
    divergence_free Lab.world (OfField (StaggeredGrid (line [1; 2; 4; 8])))
                    0%nat None (Some 0%nat) Lab.heap
    = Ok (OfField velocity, h')
    /\ divergence_free Lab.world (OfField (StaggeredGrid (line [1; 2; 4; 8])))
                       0%nat None None Lab.heap
       = Ok (OfField velocity, Lab.heap)
    /\ List.map Qred (entries (field_tensor velocity)) = [0; 2; 5; 8]
    /\ option_map (fun st => (option_map (fun p => List.map Qred (entries p))
                                         (_last_pressure st),
                              _last_pressure_iterations st))
                  (states h' !! 0%nat)
       = Some (Some [1; 1; 0], Some 3%nat).
Proof.
  destruct (divergence_free_steps Lab.world (line [1; 2; 4; 8]) 0%nat None
              Lab.heap Lab.cache eq_refl) as (H1 & H2 & _).
  specialize (H2 0%nat Lab.liquid eq_refl).
  eexists _, _. split; [exact H2|]. split; [exact H1|].
  split; vm_compute; reflexivity.
Defined.

Lemma divergence_free_state_ignores_solver_witness :
  divergence_free Toy.world (OfState 0%nat) 0%nat (Some Toy.jacobi) (Some 0%nat)
                  Toy.cached_heap
  = divergence_free Toy.world (OfState 0%nat) 0%nat None None Toy.cached_heap.
Proof.
  destruct (divergence_free_state_ignores_solver Toy.world 0%nat 0%nat
              (Some Toy.jacobi) (Some 0%nat) Toy.cached_heap
              Toy.cached_liquid (line [0; 0; 0; 0]) Toy.cache)
    as (_ & H & _); [reflexivity | reflexivity | reflexivity | exact H].
Defined.

Lemma domain_cache_reuse_witness :
  (exists s' h' dc',
      step Toy.world Toy.physics 0%nat 1 [] [] Toy.cached_heap = Ok (s', h')
      /\ caches h' !! 0%nat = Some dc'
      /\ _active dc' = toy_occupied
      /\ _accessible dc' = _accessible Toy.cache)
  /\ (exists c h1,
        domain Toy.world 0%nat [] Toy.heap = Ok (c, h1)
        /\ option_map (fun dc => (entries (_accessible dc),
                                  entries (_active dc)))
                      (caches h1 !! c)
           = Some ([1; 1; 1], [1; 1; 1]))
  /\ (exists c h1,
        domain Toy.world 0%nat [mkObstacle (line [0; 0; 1])] Toy.cached_heap
        = Ok (c, h1)
        /\ c <> 0%nat
        /\ option_map (fun dc => (entries (_accessible dc),
                                  entries (_active dc)))
                      (caches h1 !! c)
           = Some ([1; 1; 0], [1; 1; 0])).
Proof.
  split; [|split].
  - destruct (domain_cache_reuse Toy.world Toy.physics 0%nat 1 [] []
                Toy.cached_heap Toy.cached_liquid (Some Toy.cache)
                (line [0; 0; 0; 0]) toy_occupied)
      as (_ & _ & _ & _ & _ & s' & h' & c & dc' & Hstep & _ & Hc & Ha
          & Hacc & _).
    + reflexivity.
    + split; [reflexivity | discriminate].
    + reflexivity.
    + vm_compute. reflexivity.
    + destruct (Hacc eq_refl) as (Hc0 & dc & Hdc & Hd).
      injection Hc0 as <-. injection Hdc as <-.
      exists s', h', dc'. auto.
  - destruct (domain_cache_reuse Toy.world Toy.physics 0%nat 1 [] []
                Toy.heap Toy.liquid None (line [0; 0; 0; 0]) toy_occupied)
      as (_ & _ & Hnew & _).
    + reflexivity.
    + reflexivity.
    + reflexivity.
    + vm_compute. reflexivity.
    + destruct (Hnew eq_refl) as [_ Hd]. eexists _, _.
      split; [exact Hd|]. vm_compute. reflexivity.
  - destruct (domain_cache_reuse Toy.world Toy.physics 0%nat 1
                [mkObstacle (line [0; 0; 1])] []
                Toy.cached_heap Toy.cached_liquid (Some Toy.cache)
                (line [0; 0; 0; 0]) toy_occupied)
      as (_ & _ & Hnew & _).
    + reflexivity.
    + split; [reflexivity | discriminate].
    + reflexivity.
    + vm_compute. reflexivity.
    + destruct (Hnew eq_refl) as [_ Hd]. eexists _, _.
      split; [exact Hd|]. split; [vm_compute; discriminate|].
      vm_compute. reflexivity.
Defined.

(** C7, the claim as stated fails: the product with the active mask of the
    prior cache is taken only when the cache is rebuilt.  After one tick of a
    liquid that fills a grid whose last cell is an obstacle, the cache is
    valid for the obstacle and its active mask is the occupancy of the
    density, 1 on the obstacle cell too; [domain] returns that cache, and its
    active mask is not the accessible mask times itself. *)
Lemma domain_reuse_keeps_active :
  let wall := mkObstacle (line [0; 0; 1]) in
  let full :=
    mkGridLiquid [3%nat] (line [1; 1; 1]) (StaggeredGrid (line [0; 0; 0; 0]))
                 [-(1)] 0 None None None in
  match step Toy.world Toy.physics 0%nat 1 [wall] []
             (mkHeap {[ 0%nat := full ]} ∅) with
  | Ok (s', h1) =>
      match domain Toy.world s' [wall] h1 with
      | Ok (c, h2) =>
          (option_map (fun st => domaincache st) (states h1 !! s'),
           option_map (fun dc => is_valid Toy.world dc [wall])
                      (caches h1 !! c),
           option_map (fun dc => entries (_active dc)) (caches h1 !! c),
           option_map (fun dc => (entries (_accessible dc),
                                  entries (_active dc),
                                  entries (math.mul (_accessible dc)
                                                    (_active dc))))
                      (caches h2 !! c))
      | Raise _ => (None, None, None, None)
      end
  | Raise _ => (None, None, None, None)
  end
  = (Some (Some 0%nat), Some true, Some [1; 1; 1],
     Some ([1; 1; 0], [1; 1; 1], [1; 1; 0])).
Proof. vm_compute. reflexivity. Qed.

Lemma step_injects_inflow_witness :
  exists s' h',
    step Toy.world Toy.physics 0%nat 1 [] [] Toy.heap = Ok (s', h')
    /\ forall idx, get (inflow_density Toy.world 1 [] Toy.liquid) idx == 0.
Proof.
  destruct (step_injects_inflow Toy.world Toy.physics 0%nat 1 [] []
              Toy.heap Toy.liquid None (line [0; 0; 0; 0]) toy_occupied)
    as ((s' & h' & _ & _ & Hstep & _) & _ & _ & _ & Hz).
  - reflexivity.
  - reflexivity.
  - reflexivity.
  - vm_compute. reflexivity.
  - exists s', h'. split; [exact Hstep|]. intros idx. apply Hz.
Defined.

Lemma step_keeps_input_fields_witness :
  exists s' h' now dc',
    step Toy.world Toy.physics 0%nat 1 [] [] Toy.cached_heap = Ok (s', h')
    /\ s' <> 0%nat
    /\ states h' !! 0%nat = Some now
    /\ _density now = _density Toy.cached_liquid
    /\ _velocity now = _velocity Toy.cached_liquid
    /\ age now = age Toy.cached_liquid
    /\ domaincache now = Some 0%nat
    /\ _last_pressure_iterations now = Some 7%nat
    /\ caches h' !! 0%nat = Some dc'
    /\ entries (_active dc') = [1; 1; 0]
    /\ entries (_accessible dc') = [1; 1; 1].
Proof.
  destruct (step_keeps_input_fields Toy.world Toy.physics 0%nat 1 [] []
              Toy.cached_heap Toy.cached_liquid (Some Toy.cache)
              (line [0; 0; 0; 0]) toy_occupied)
    as (s' & h' & out & c & dc1 & Hstep & Hne & _ & _ & _ & Hcase & Hin
        & Hca & _).
  - reflexivity.
  - split; [reflexivity | discriminate].
  - reflexivity.
  - vm_compute. reflexivity.
  - destruct Hcase as [Hc Hp]. injection Hc as <-. injection Hp as <-.
    eexists s', h', _, _. split; [exact Hstep|]. split; [exact Hne|].
    split; [exact Hin|]. split; [reflexivity|]. split; [reflexivity|].
    split; [reflexivity|]. split; [reflexivity|]. split; [reflexivity|].
    split; [exact Hca|]. split; vm_compute; reflexivity.
Defined.

(** C9, the claim as stated fails: the tick assigns the domain cache, the
    last pressure and the last iteration count on the state it is given, and
    the active mask on the cache that this state holds. *)
Lemma step_mutates_input_state :
  option_map (fun st => (domaincache st, _last_pressure_iterations st))
             (states Toy.heap !! 0%nat)
  = Some (None, None)
  /\ match step Toy.world Toy.physics 0%nat 1 [] [] Toy.heap with
     | Ok (_, h') =>
         option_map (fun st => (domaincache st, _last_pressure_iterations st))
                    (states h' !! 0%nat)
     | Raise _ => None
     end
     = Some (Some 0%nat, Some 7%nat)
  /\ option_map (fun dc => entries (_active dc))
                (caches Toy.cached_heap !! 0%nat)
     = Some [1; 1; 1]
  /\ match step Toy.world Toy.physics 0%nat 1 [] [] Toy.cached_heap with
     | Ok (_, h') =>
         option_map (fun dc => entries (_active dc)) (caches h' !! 0%nat)
     | Raise _ => None
     end
     = Some [1; 1; 0].
Proof. vm_compute. repeat split. Qed.

(** * Further properties of the code *)

(** ** [extrapolate]: the distance *)

Lemma Qltb_lt (x y : Q) : Qltb x y = true -> x < y.
Proof.
  unfold Qltb. intros H. apply negb_true_iff in H.
  apply Qnot_le_lt. intros Hle. apply Qle_bool_iff in Hle. congruence.
Qed.

Lemma improves_strict (signs d_dist s_distance : Tensor) (idx : Index) :
  Qeq_bool (bget (improves signs d_dist s_distance) idx) 0 = false ->
  Qabs (bget d_dist idx) < Qabs (bget s_distance idx).
Proof.
  unfold improves, math.logical_and, math.less, math.abs.
  set (L := math.zip _ (math.map Qabs d_dist) (math.map Qabs s_distance)).
  set (G := math.greater_equal signs 0).
  intros H. unfold bget at 1 in H. cbn [math.zip get] in H.
  set (j := bidx (shape (math.zip _ L G)) idx) in H.
  destruct (Qeq_bool (bget L j) 0) eqn:EL; [discriminate|]. clear H.
  unfold bget at 1 in EL. subst L. cbn [math.zip get shape] in EL.
  set (j' := bidx (bshape (shape (math.map Qabs d_dist))
                          (shape (math.map Qabs s_distance))) j) in EL.
  destruct (Qltb (bget (math.map Qabs d_dist) j')
                 (bget (math.map Qabs s_distance) j')) eqn:Elt;
    [|discriminate].
  apply Qltb_lt in Elt. unfold bget in Elt. cbn [math.map get shape] in Elt.
  assert (Hd : bidx (shape d_dist) j' = bidx (shape d_dist) idx).
  { subst j' j. cbn [math.zip math.map shape].
    rewrite !bidx_bidx; try reflexivity; cbn [bshape batch channels];
      intros E; repeat (apply bdim_one in E as [E ?]); auto. }
  assert (Hs : bidx (shape s_distance) j' = bidx (shape s_distance) idx).
  { subst j' j. cbn [math.zip math.map shape].
    rewrite !bidx_bidx; try reflexivity; cbn [bshape batch channels];
      intros E; repeat (apply bdim_one in E as [E ?]);
      try (apply bdim_one in E as [? E]); auto. }
  rewrite Hd, Hs in Elt. exact Elt.
Qed.

Lemma where_shrinks (signs d_dist s_distance : Tensor) (idx : Index) :
  Qabs (bget (math.where_ (improves signs d_dist s_distance) d_dist
                          s_distance) idx)
  <= Qabs (bget s_distance idx).
Proof.
  unfold bget at 1. rewrite where_get.
  set (W := shape (math.where_ _ d_dist s_distance)).
  assert (Hs : bget s_distance (bidx W idx) = bget s_distance idx).
  { apply bget_bidx; subst W; cbn [math.where_ shape bshape batch channels];
      intros E; apply bdim_one in E as [_ E]; now apply bdim_one in E. }
  destruct (Qeq_bool _ 0) eqn:E.
  - rewrite Hs. apply Qle_refl.
  - apply improves_strict in E. rewrite Hs in E. now apply Qlt_le_weak.
Qed.

Lemma relax_shrinks (np_sqrt : Z -> Q) (dims : list nat) (dx : Q)
  (signs : Tensor) (d : list Z) (st : Tensor * Tensor) (idx : Index) :
  Qabs (bget (snd (relax np_sqrt dims dx signs d st)) idx)
  <= Qabs (bget (snd st) idx).
Proof.
  destruct st as [ext_field s_distance]. unfold relax. cbn [snd].
  apply where_shrinks.
Qed.

Lemma prime_shrinks (np_sqrt : Z -> Q) (dims : list nat) (dx : Q)
  (signs : Tensor) (d : list Z) (st : Tensor * Tensor) (idx : Index) :
  Qabs (bget (snd (prime np_sqrt dims dx signs d st)) idx)
  <= Qabs (bget (snd st) idx).
Proof.
  destruct st as [ext_field s_distance]. unfold prime.
  destruct (forallb _ d); [apply Qle_refl|].
  destruct (_ && _); [|apply Qle_refl]. cbn [snd]. apply where_shrinks.
Qed.

Lemma sweep_shrinks (np_sqrt : Z -> Q) (dims : list nat) (dx : Q)
  (signs : Tensor) (st : Tensor * Tensor) (idx : Index) :
  Qabs (bget (snd (sweep np_sqrt dims dx signs st)) idx)
  <= Qabs (bget (snd st) idx).
Proof.
  unfold sweep. generalize (directions dims). intros ds.
  revert st. induction ds as [|d ds IH]; intros st; [apply Qle_refl|].
  cbn [fold_left]. eapply Qle_trans; [apply IH|].
  destruct (forallb (Z.eqb 0) d); [apply Qle_refl | apply relax_shrinks].
Qed.

Lemma sweeps_shrink (np_sqrt : Z -> Q) (dims : list nat) (dx : Q)
  (signs : Tensor) (n : nat) (st : Tensor * Tensor) (idx : Index) :
  Qabs (bget (snd (Nat.iter n (sweep np_sqrt dims dx signs) st)) idx)
  <= Qabs (bget (snd st) idx).
Proof.
  induction n as [|n IH]; [apply Qle_refl|].
  rewrite Nat.iter_succ. eapply Qle_trans; [apply sweep_shrinks | exact IH].
Qed.

Lemma where_improves (signs d_dist s_distance : Tensor) (idx : Index) :
  bget (math.where_ (improves signs d_dist s_distance) d_dist s_distance) idx
  = bget s_distance idx
  \/ Qabs (bget (math.where_ (improves signs d_dist s_distance) d_dist
                             s_distance) idx)
     < Qabs (bget s_distance idx).
Proof.
  unfold bget at 1 3. rewrite where_get.
  set (W := shape (math.where_ _ d_dist s_distance)).
  assert (Hs : bget s_distance (bidx W idx) = bget s_distance idx).
  { apply bget_bidx; subst W; cbn [math.where_ shape bshape batch channels];
      intros E; apply bdim_one in E as [_ E]; now apply bdim_one in E. }
  destruct (Qeq_bool _ 0) eqn:E.
  - left. exact Hs.
  - right. apply improves_strict in E. now rewrite Hs in E.
Qed.

(** X1: the relaxation never increases the magnitude of the distance of a
    cell, whatever the field, the distance, the signs, [dx] and the offsets.
    One relaxation leaves the distance of a cell as it is or replaces it by
    a candidate of strictly smaller magnitude, so that after any number of
    sweeps the magnitude is at most what it was. *)
Theorem sweep_never_increases_distance (np_sqrt : Z -> Q) (dims : list nat)
  (dx : Q) (signs : Tensor) (n : nat) (d : list Z) (st : Tensor * Tensor)
  (idx : Index) :
  (bget (snd (relax np_sqrt dims dx signs d st)) idx = bget (snd st) idx
   \/ Qabs (bget (snd (relax np_sqrt dims dx signs d st)) idx)
      < Qabs (bget (snd st) idx))
  /\ Qabs (bget (snd (Nat.iter n (sweep np_sqrt dims dx signs) st)) idx)
     <= Qabs (bget (snd st) idx).
Proof.
  split; [|apply sweeps_shrink].
  destruct st as [ext_field s_distance]. unfold relax. cbn [snd].
  apply where_improves.
Qed.

Lemma where_bget (c a b : Tensor) (idx : Index) :
  bget (math.where_ c a b) idx
  = if Qeq_bool (bget c (bidx (shape (math.where_ c a b)) idx)) 0
    then bget b idx else bget a idx.
Proof.
  unfold bget at 1. rewrite where_get.
  set (W := shape (math.where_ c a b)).
  assert (Hb : bget b (bidx W idx) = bget b idx).
  { apply bget_bidx; subst W; cbn [math.where_ shape bshape batch channels];
      intros E; apply bdim_one in E as [_ E]; now apply bdim_one in E. }
  assert (Ha : bget a (bidx W idx) = bget a idx).
  { apply bget_bidx; subst W; cbn [math.where_ shape bshape batch channels];
      intros E; apply bdim_one in E as [_ E]; now apply bdim_one in E. }
  now rewrite Ha, Hb.
Qed.

Lemma extrapolate_init_distance (input_field : Field) (particle_mask : Tensor)
  (distance : Z) (idx : Index) :
  bget (snd (extrapolate_init input_field particle_mask distance)) idx == 0
  \/ bget (snd (extrapolate_init input_field particle_mask distance)) idx
     = -2 * (inject_Z distance + 1)
       * (2 * bget (occupancy input_field particle_mask) idx - 1).
Proof.
  unfold extrapolate_init. cbn [snd]. rewrite where_bget.
  destruct (Qeq_bool _ 0).
  - right. reflexivity.
  - left. unfold bget. cbn. ring.
Qed.

(** X2: the distance that [extrapolate] computes never exceeds, in magnitude,
    the far-field value it starts from, [2*(distance+1)*|2*mask-1|], which is
    [2*(distance+1)] on a binary mask; for a centered field this is the
    distance that is returned. *)
Theorem extrapolate_distance_bounded (np_sqrt : Z -> Q) (input_field : Field)
  (particle_mask : Tensor) (dx : Q) (distance : Z) (idx : Index) :
  let far := -2 * (inject_Z distance + 1)
             * (2 * bget (occupancy input_field particle_mask) idx - 1) in
  let result :=
    snd (extrapolate_loops np_sqrt input_field particle_mask dx distance) in
  Qabs (bget result idx) <= Qabs far
  /\ (is_staggered input_field = false ->
      fst (extrapolate np_sqrt input_field particle_mask dx distance)
      = result)
  /\ (bget (occupancy input_field particle_mask) idx == 0
      \/ bget (occupancy input_field particle_mask) idx == 1 ->
      Qabs (bget result idx) <= 2 * Qabs (inject_Z distance + 1)).
Proof.
  intros far result.
  assert (H : Qabs (bget result idx) <= Qabs far).
  { subst result. unfold extrapolate_loops.
    eapply Qle_trans; [apply sweeps_shrink|].
    set (st0 := extrapolate_init input_field particle_mask distance).
    assert (H0 : Qabs (bget (snd st0) idx) <= Qabs far).
    { destruct (extrapolate_init_distance input_field particle_mask distance
                                          idx) as [E | E]; fold st0 in E.
      - rewrite E. apply Qabs_nonneg.
      - rewrite E. apply Qle_refl. }
    destruct (is_staggered input_field); [|exact H0].
    eapply Qle_trans; [|exact H0].
    generalize (directions
                  (seq 0 (spatial_rank (field_tensor input_field)))).
    intros ds. generalize st0. induction ds as [|d ds IH]; intros st;
      [apply Qle_refl|].
    cbn [fold_left]. eapply Qle_trans; [apply IH | apply prime_shrinks]. }
  split; [exact H|]. split.
  - intros Hc. subst result. unfold extrapolate. rewrite Hc.
    now destruct (extrapolate_loops _ _ _ _ _).
  - intros Hm. eapply Qle_trans; [exact H|]. subst far.
    rewrite !Qabs_Qmult.
    assert (E1 : Qabs (-2) == 2) by reflexivity.
    assert (E2 : Qabs (2 * bget (occupancy input_field particle_mask) idx - 1)
                 == 1).
    { destruct Hm as [E | E]; rewrite E; reflexivity. }
    rewrite E1, E2. ring_simplify. apply Qle_refl.
Qed.

(** ** [extrapolate]: the distance inside the fluid *)

Lemma where_gated (signs cond a b : Tensor) (idx : Index) :
  channels (shape signs) = 1%nat ->
  gated signs cond -> inside signs idx ->
  bget (math.where_ cond a b) idx = bget b idx.
Proof.
  intros Hch [Hz Hb] Hi. unfold bget at 1. rewrite where_get.
  set (W := shape (math.where_ cond a b)).
  assert (HW : batch W = 1%nat -> batch (shape cond) = 1%nat
                                  /\ batch (shape b) = 1%nat).
  { unfold W. simpl. intros E. apply bdim_one in E as [E1 E2].
    apply bdim_one in E2 as [_ E2]. auto. }
  assert (HWc : channels W = 1%nat -> channels (shape b) = 1%nat).
  { unfold W. simpl. intros E. apply bdim_one in E as [_ E2].
    now apply bdim_one in E2. }
  assert (Hj : inside signs (bidx W idx)).
  { apply inside_bidx; auto. intros E. apply Hb. now apply HW. }
  unfold bget at 1. rewrite Hz.
  - replace (Qeq_bool 0 0) with true by reflexivity.
    apply bget_bidx; [apply HW | exact HWc].
  - apply inside_bidx; auto.
Qed.

(** X3: inside the fluid the distance is never relaxed.  At a cell of
    negative sign the distance after the loops of [extrapolate] is the one it
    was initialised with: 0 on the surface and
    [-2*(distance+1)*(2*mask-1)] elsewhere. *)
Theorem extrapolate_keeps_fluid_distance (np_sqrt : Z -> Q)
  (input_field : Field) (particle_mask : Tensor) (dx : Q) (distance : Z)
  (idx : Index) :
  channels (shape particle_mask) = 1%nat ->
  bget (signs_of (occupancy input_field particle_mask)) idx < 0 ->
  let result :=
    snd (extrapolate_loops np_sqrt input_field particle_mask dx distance) in
  bget result idx
  = bget (snd (extrapolate_init input_field particle_mask distance)) idx
  /\ (bget result idx == 0
      \/ bget result idx
         == -2 * (inject_Z distance + 1)
            * (2 * bget (occupancy input_field particle_mask) idx - 1)).
Proof.
  intros Hc Hi result.
  set (signs := signs_of (occupancy input_field particle_mask)) in *.
  assert (Hch : channels (shape signs) = 1%nat)
    by (subst signs; now rewrite occupancy_channels).
  assert (Hrelax : forall dims d st,
             bget (snd (relax np_sqrt dims dx signs d st)) idx
             = bget (snd st) idx).
  { intros dims d [e s]. unfold relax. cbn [snd].
    apply (where_gated signs); auto. apply improves_gated. }
  assert (Hprime : forall dims d st,
             bget (snd (prime np_sqrt dims dx signs d st)) idx
             = bget (snd st) idx).
  { intros dims d [e s]. unfold prime.
    destruct (forallb _ d); [reflexivity|].
    destruct (_ && _); [|reflexivity]. cbn [snd].
    apply (where_gated signs); auto. apply improves_gated. }
  assert (Hsweep : forall dims st,
             bget (snd (sweep np_sqrt dims dx signs st)) idx
             = bget (snd st) idx).
  { intros dims st. unfold sweep. generalize (directions dims). intros ds.
    revert st. induction ds as [|d ds IH]; intros st; [reflexivity|].
    cbn [fold_left]. rewrite IH.
    destruct (forallb (Z.eqb 0) d); [reflexivity | apply Hrelax]. }
  assert (E : bget result idx
              = bget (snd (extrapolate_init input_field particle_mask
                                            distance)) idx).
  { subst result. unfold extrapolate_loops. fold signs.
    set (st0 := extrapolate_init input_field particle_mask distance).
    set (dims := seq 0 (spatial_rank (field_tensor input_field))).
    assert (Hit : forall n st,
               bget (snd (Nat.iter n (sweep np_sqrt dims dx signs) st)) idx
               = bget (snd st) idx).
    { induction n as [|n IH]; intros st; [reflexivity|].
      rewrite Nat.iter_succ, Hsweep. apply IH. }
    rewrite Hit. destruct (is_staggered input_field); [|reflexivity].
    generalize (directions dims). intros ds. generalize st0.
    induction ds as [|d ds IH]; intros st; [reflexivity|].
    cbn [fold_left]. rewrite IH. apply Hprime. }
  split; [exact E|]. rewrite E.
  destruct (extrapolate_init_distance input_field particle_mask distance idx)
    as [H | H]; [now left | right; rewrite H; reflexivity].
Qed.

Lemma extrapolate_keeps_fluid_distance_witness :
  bget (snd (extrapolate_loops Toy.sqrt (Array (line [10; 20; 30]))
                               (line [1; 0; 1]) 1 1))
       (mkIndex 0 [2%nat] 0)
  = bget (snd (extrapolate_init (Array (line [10; 20; 30])) (line [1; 0; 1])
                                1))
         (mkIndex 0 [2%nat] 0).
Proof.
  apply (extrapolate_keeps_fluid_distance Toy.sqrt (Array (line [10; 20; 30]))
           (line [1; 0; 1]) 1 1 (mkIndex 0 [2%nat] 0) eq_refl).
  vm_compute. reflexivity.
Defined.

(** ** [create_binary_mask]: the threshold *)


Lemma Qltb_spec (x y : Q) : reflect (x < y) (Qltb x y).
Proof.
  unfold Qltb. destruct (Qle_bool y x) eqn:E; constructor.
  - apply Qle_bool_iff in E. lra.
  - apply Qnot_le_lt. intros H. apply Qle_bool_iff in H. congruence.
Qed.

Lemma create_binary_mask_run (field : Field) (threshold m : Q) :
  math.max (math.abs (field_tensor field)) = Ok m ->
  create_binary_mask field threshold
  = Ok (math.ceil (math.minus
          (if negb (Qeq_bool m 0)
           then math.divide (math.abs (field_tensor field)) m
           else math.scale 0 (field_tensor field)) threshold)).
Proof.
  intros Hmax. unfold create_binary_mask.
  replace (match field with
           | Array t0 => t0
           | StaggeredGrid staggered => staggered
           end) with (field_tensor field) by (destruct field; reflexivity).
  rewrite Hmax. reflexivity.
Qed.

Lemma abs_entries (t : Tensor) :
  indices (shape t) <> [] -> entries (math.abs t) <> [].
Proof.
  intros Hne. unfold math.abs. rewrite entries_map. unfold entries.
  destruct (indices (shape t)); [congruence | discriminate].
Qed.



(** ** [create_binary_mask]: arrays without entries *)

Lemma cells_nil (dims : list nat) : cells dims = [] <-> In 0%nat dims.
Proof.
  induction dims as [|n dims IH]; cbn [cells In].
  - split; [discriminate | tauto].
  - split.
    + intros E. destruct n as [|n]; [now left|]. right. apply IH.
      destruct (cells dims) as [|c cs] eqn:Ec; [reflexivity|].
      exfalso. rewrite <- cons_seq in E. cbn [flat_map List.map] in E.
      discriminate.
    + intros [-> | H]; [reflexivity|]. apply IH in H. rewrite H.
      induction (seq 0 n) as [|i l IHl]; [reflexivity | exact IHl].
Qed.

Lemma indices_nil (sh : Shape) :
  indices sh = []
  <-> batch sh = 0%nat \/ In 0%nat (spatial sh) \/ channels sh = 0%nat.
Proof.
  split.
  - intros E.
    destruct (batch sh) as [|b] eqn:Eb; [now left|]. right.
    destruct (cells (spatial sh)) as [|c cs] eqn:Ec;
      [left; now apply cells_nil|]. right.
    destruct (channels sh) as [|k] eqn:Ek; [reflexivity|]. exfalso.
    assert (H : In (mkIndex 0 c 0) (indices sh)).
    { apply indices_spec. unfold in_range. cbn [ib cell ich].
      rewrite Eb, Ek. cbn [Nat.ltb Nat.leb andb].
      rewrite andb_true_r. apply cells_spec. rewrite Ec. now left. }
    rewrite E in H. destruct H.
  - intros H. destruct (indices sh) as [|i l] eqn:E; [reflexivity|]. exfalso.
    assert (Hi : in_range sh i = true)
      by (apply indices_spec; rewrite E; now left).
    unfold in_range in Hi. rewrite !andb_true_iff, !Nat.ltb_lt in Hi.
    destruct Hi as [[Hb Hc] Hk]. destruct H as [H | [H | H]]; [lia | | lia].
    apply cells_nil in H. apply cells_spec in Hc. rewrite H in Hc. destruct Hc.
Qed.

(** X6: [create_binary_mask] fails exactly on a field without entries, one
    of whose axes (batch, spatial or channel) has length 0, and it fails with
    the [ValueError] of the maximum; on every other field it returns a mask of
    the shape of the field, whatever the threshold. *)
Theorem create_binary_mask_empty (field : Field) (threshold : Q) :
  let sh := shape (field_tensor field) in
  if (batch sh =? 0)%nat || existsb (Nat.eqb 0) (spatial sh)
     || (channels sh =? 0)%nat
  then create_binary_mask field threshold = Raise ValueError
  else exists mask, create_binary_mask field threshold = Ok mask
                    /\ shape mask = sh.
Proof.
  intros sh.
  assert (Hd : (batch sh =? 0)%nat || existsb (Nat.eqb 0) (spatial sh)
               || (channels sh =? 0)%nat = true
               <-> indices sh = []).
  { rewrite indices_nil, !orb_true_iff, !Nat.eqb_eq, existsb_exists.
    split.
    - intros [[H | (x & Hx & E)] | H]; auto.
      apply Nat.eqb_eq in E. subst x. auto.
    - intros [H | [H | H]]; auto. left. right. exists 0%nat. auto. }
  destruct (_ || _ || _).
  - assert (E : indices sh = []) by now apply Hd.
    unfold create_binary_mask.
    replace (match field with
             | Array t0 => t0
             | StaggeredGrid staggered => staggered
             end) with (field_tensor field) by (destruct field; reflexivity).
    unfold math.max, math.abs. rewrite entries_map. unfold entries.
    fold sh. rewrite E. reflexivity.
  - assert (Hne : indices sh <> []).
    { intros E. apply Hd in E. discriminate. }
    destruct (max_spec _ (abs_entries _ Hne)) as (m & Hmax & _).
    eexists. split; [apply (create_binary_mask_run field threshold m Hmax)|].
    destruct (Qeq_bool m 0); reflexivity.
Qed.

(** ** [create_surface_mask]: walls and the fluid *)

Lemma create_surface_mask_flag (m : Tensor) (idx : Index) :
  binary m -> in_range (shape m) idx = true ->
  get (create_surface_mask m) idx
  == flag (Qeq_bool (get m idx) 1
           && existsb (axis_test m idx) (seq 0 (spatial_rank m))).
Proof.
  intros Hb Hi. unfold create_surface_mask. cbv zeta.
  pose proof (padded_rank m) as E. unfold padded in E.
  destruct (surface_fold m idx
              (spatial_rank (math.pad m
                 (repeat (1%nat, 1%nat) (spatial_rank m)) symmetric)) Hb Hi)
    as [_ H2]; [lia|].
  eapply Qeq_trans; [exact H2|]. rewrite E. reflexivity.
Qed.

(** X7: on a binary mask the surface lies within the fluid, and the walls of
    the grid are no surface: the surface mask is 0 on every empty cell, and a
    grid that is full of fluid has no surface cell at all, not even along its
    boundary. *)
Theorem create_surface_mask_no_walls (particle_mask : Tensor) (idx : Index) :
  binary particle_mask ->
  in_range (shape particle_mask) idx = true ->
  0 <= get (create_surface_mask particle_mask) idx
  /\ get (create_surface_mask particle_mask) idx <= get particle_mask idx
  /\ ((forall j, in_range (shape particle_mask) j = true ->
                 get particle_mask j == 1) ->
      get (create_surface_mask particle_mask) idx == 0).
Proof.
  intros Hb Hi.
  pose proof (create_surface_mask_flag particle_mask idx Hb Hi) as E.
  split; [|split].
  - rewrite E. destruct (_ && _); discriminate.
  - rewrite E. destruct (Qeq_bool_spec (get particle_mask idx) 1) as [E1 | _].
    + rewrite E1. destruct (_ && _); discriminate.
    + cbn [andb flag]. destruct (Hb idx Hi) as [-> | ->]; discriminate.
  - intros Hfull. rewrite E.
    assert (Hno : existsb (axis_test particle_mask idx)
                          (seq 0 (spatial_rank particle_mask)) = false).
    { apply not_true_is_false. intros H.
      apply existsb_exists in H as (d & Hd & Ht). apply in_seq in Hd.
      pose proof (in_range_cell _ _ Hi) as Hc.
      unfold axis_test in Ht. cbv zeta in Ht.
      apply orb_true_iff in Ht as [Ht | Ht];
        apply andb_true_iff in Ht as [Hn Hz];
        apply Nat.ltb_lt in Hn; apply Qeq_bool_iff in Hz;
        rewrite Hfull in Hz; try discriminate;
        apply in_range_at_cell; try exact Hi;
        apply cell_in_bump; try exact Hc.
      - lia.
      - pose proof (cell_in_nth _ _ d Hc) as Hlt. unfold spatial_rank in Hd.
        lia. }
    rewrite Hno, andb_false_r. reflexivity.
Qed.

Lemma create_surface_mask_no_walls_witness :
  get (create_surface_mask (plane [[1; 1]; [1; 1]])) (mkIndex 0 [0%nat; 1%nat] 0)
  == 0.
Proof.
  destruct (create_surface_mask_no_walls (plane [[1; 1]; [1; 1]])
              (mkIndex 0 [0%nat; 1%nat] 0)) as (_ & _ & H).
  - apply binary_check. vm_compute. reflexivity.
  - vm_compute. reflexivity.
  - apply H. intros j Hj. apply indices_spec in Hj.
    vm_compute in Hj.
    repeat (destruct Hj as [<- | Hj]; [reflexivity|]). destruct Hj.
Defined.

(** ** [extrapolate]: the shifted arrays *)

Lemma shift_axis (n : nat) (x : Z) (j : nat) :
  (j < n)%nat ->
  let p := if (x =? -1)%Z then (0%nat, 1%nat)
           else if (x =? 1)%Z then (1%nat, 0%nat) else (0%nat, 0%nat) in
  let s := if (x =? -1)%Z then slice (Some 1%Z) None
           else if (x =? 1)%Z then slice (Some 0%Z) (Some (-1)%Z)
           else slice None None in
  pad_axis symmetric n p (slice_start (fst p + n + snd p) s + j)
  = Some (source_axis n x j)
  /\ (slice_stop (fst p + n + snd p) s - slice_start (fst p + n + snd p) s
      = n)%nat
  /\ (source_axis n x j < n)%nat.
Proof.
  intros Hj p s. subst p s. unfold source_axis.
  destruct (x =? -1)%Z; [|destruct (x =? 1)%Z];
    unfold pad_axis, slice_start, slice_stop, slice_bound;
    cbn [start stop fst snd];
    repeat match goal with
           | |- context [Z.ltb ?a ?b] => destruct (Z.ltb_spec a b); try lia
           | |- context [Nat.ltb ?a ?b] => destruct (Nat.ltb_spec a b); try lia
           end;
    repeat split; try lia; f_equal; lia.
Qed.

Lemma shift_cells (sizes : list nat) (k : nat) (d : list Z) (c : list nat) :
  cell_in sizes c = true ->
  pad_cell symmetric sizes (d_pads (seq k (length sizes)) d)
    (slice_cell (pad_dims sizes (d_pads (seq k (length sizes)) d))
                (d_slice (seq k (length sizes)) d) c)
  = Some (source_cell sizes k d c)
  /\ slice_dims (pad_dims sizes (d_pads (seq k (length sizes)) d))
                (d_slice (seq k (length sizes)) d) = sizes
  /\ cell_in sizes (source_cell sizes k d c) = true.
Proof.
  revert k c. induction sizes as [|n sizes IH]; intros k c Hc.
  - destruct c; [|discriminate]. repeat split.
  - destruct c as [|j c]; [discriminate|].
    cbn [cell_in] in Hc. apply andb_true_iff in Hc as [Hj Hc].
    apply Nat.ltb_lt in Hj.
    destruct (IH (S k) c Hc) as (I1 & I2 & I3).
    destruct (shift_axis n (nth k d 0%Z) j Hj) as (A1 & A2 & A3).
    cbv zeta in A1, A2.
    unfold d_pads, d_slice in *.
    cbn [length seq List.map pad_dims slice_cell pad_cell slice_dims
         source_cell cell_in].
    rewrite A1, I1, A2, I2, I3. apply Nat.ltb_lt in A3. rewrite A3.
    repeat split.
Qed.

(** X8: the array shifted by an offset [d] has the shape of the array and
    reads, at every cell of the grid, the neighbour at offset [-d] on each
    axis where [d] is 1 or -1; where the grid ends the cell itself stands in
    for the neighbour that is missing, so that a shifted array never reads
    outside the grid. *)
Theorem shifted_reads_neighbour (d : list Z) (x : Tensor) (idx : Index) :
  in_range (shape x) idx = true ->
  let from := at_cell idx (source_cell (spatial (shape x)) 0 d (cell idx)) in
  shape (shifted (seq 0 (spatial_rank x)) d x) = shape x
  /\ get (shifted (seq 0 (spatial_rank x)) d x) idx = get x from
  /\ in_range (shape x) from = true.
Proof.
  intros Hi from. pose proof (in_range_cell _ _ Hi) as Hc.
  destruct (shift_cells (spatial (shape x)) 0 d (cell idx) Hc)
    as (H1 & H2 & H3).
  unfold shifted, spatial_rank.
  cbn [getitem math.pad shape get batch spatial channels ib cell ich].
  rewrite H1, H2. split; [now destruct (shape x)|]. split; [reflexivity|].
  subst from. now apply in_range_at_cell.
Qed.

Lemma shifted_reads_neighbour_witness :
  List.map (fun j => get (shifted [0%nat] [1%Z] (line [10; 20; 30]))
                         (mkIndex 0 [j] 0)) [0%nat; 1%nat; 2%nat]
  = [10; 10; 20]
  /\ List.map (fun j => get (shifted [0%nat] [(-1)%Z] (line [10; 20; 30]))
                            (mkIndex 0 [j] 0)) [0%nat; 1%nat; 2%nat]
     = [20; 30; 30].
Proof.
  pose proof (fun d j H =>
                proj1 (proj2 (shifted_reads_neighbour d (line [10; 20; 30])
                                (mkIndex 0 [j] 0) H))) as E.
  cbn [List.map]. change (seq 0 (spatial_rank (line [10; 20; 30])))
    with [0%nat] in E.
  rewrite !E by reflexivity. split; reflexivity.
Defined.

(** ** [extrapolate]: shapes and the origin of the values *)

Lemma shift_dims (sizes : list nat) (k : nat) (d : list Z) :
  slice_dims (pad_dims sizes (d_pads (seq k (length sizes)) d))
             (d_slice (seq k (length sizes)) d) = sizes.
Proof.
  revert k. induction sizes as [|n sizes IH]; intros k; [reflexivity|].
  unfold d_pads, d_slice in *.
  cbn [length seq List.map pad_dims slice_dims]. rewrite IH. f_equal.
  destruct (nth k d 0 =? -1)%Z; [|destruct (nth k d 0 =? 1)%Z];
    unfold slice_start, slice_stop, slice_bound; cbn [start stop fst snd];
    repeat match goal with
           | |- context [Z.ltb ?a ?b] => destruct (Z.ltb_spec a b); try lia
           end; lia.
Qed.

Lemma shifted_shape (d : list Z) (x : Tensor) :
  shape (shifted (seq 0 (spatial_rank x)) d x) = shape x.
Proof.
  unfold shifted, spatial_rank.
  cbn [getitem math.pad shape batch spatial channels].
  rewrite shift_dims. now destruct (shape x).
Qed.

Lemma shifted_get (d : list Z) (x : Tensor) (idx : Index) :
  in_range (shape x) idx = true ->
  exists c, cell_in (spatial (shape x)) c = true
            /\ get (shifted (seq 0 (spatial_rank x)) d x) idx
               = get x (at_cell idx c).
Proof.
  intros Hi. pose proof (in_range_cell _ _ Hi) as Hc.
  destruct (shift_cells (spatial (shape x)) 0 d (cell idx) Hc)
    as (H1 & _ & H3).
  exists (source_cell (spatial (shape x)) 0 d (cell idx)).
  split; [exact H3|]. unfold shifted, spatial_rank.
  cbn [getitem math.pad shape get batch spatial channels ib cell ich].
  now rewrite H1.
Qed.

Lemma concat_shape (ts : list Tensor) (S : Shape) :
  Forall (fun t => shape t = S) ts -> ts <> [] ->
  shape (math.concat ts)
  = mkShape (batch S) (spatial S) (length ts * channels S).
Proof.
  intros H Hne. unfold math.concat. cbn [shape].
  destruct ts as [|t ts]; [congruence|]. cbn [hd].
  pose proof (Forall_inv H) as Ht. rewrite Ht. f_equal.
  clear Hne Ht. induction H as [|u us Hu _ IH]; [reflexivity|].
  cbn [fold_right length Nat.mul]. now rewrite IH, Hu.
Qed.

Lemma create_surface_mask_shape (m : Tensor) :
  shape (create_surface_mask m) = shape m.
Proof.
  unfold create_surface_mask. cbv zeta. fold (padded m).
  generalize (seq 0 (spatial_rank (padded m))) at 2. intros l.
  assert (H : shape (math.zeros_like m) = shape m) by reflexivity.
  revert H. generalize (math.zeros_like m).
  induction l as [|d l IH]; intros bcs H; [exact H|].
  cbn [fold_left]. apply IH. now apply surface_axis_shape.
Qed.

Section Shapes.

Variable np_sqrt : Z -> Q.
Variable dx : Q.
Variables signs e0 : Tensor.
Variable S : Shape.

Hypothesis batch_S : batch S = batch (shape e0).
Hypothesis spatial_S : spatial S = spatial (shape e0).
Hypothesis channels_S : channels S = 1%nat.
Hypothesis channels_e0 : channels (shape e0) = spatial_rank e0.
Hypothesis shape_signs : shape signs = S.

Lemma where_shape (cond a b : Tensor) :
  shape cond = mkShape (batch S) (spatial S) (spatial_rank e0) ->
  shape a = shape e0 -> shape b = shape e0 ->
  shape (math.where_ cond a b) = shape e0.
Proof.
  intros Hc Ha Hb. cbn [math.where_ shape]. rewrite Hc, Ha, Hb, bshape_same.
  unfold bshape. cbn [batch spatial channels].
  rewrite batch_S, spatial_S, channels_e0, !bdim_same. rewrite <- channels_e0.
  now destruct (shape e0).
Qed.

Lemma candidate_shape (d : list Z) (s : Tensor) :
  shape s = S ->
  shape (candidate np_sqrt (seq 0 (spatial_rank e0)) dx signs d s) = S.
Proof.
  intros Hs. unfold candidate, math.add2.
  assert (Er : spatial_rank e0 = spatial_rank s)
    by (unfold spatial_rank; now rewrite Hs, spatial_S).
  rewrite zip_shape; rewrite Er, shifted_shape; [exact Hs|].
  cbn [math.scale math.map shape]. congruence.
Qed.

Lemma improves_shape (dd s : Tensor) :
  shape dd = S -> shape s = S -> shape (improves signs dd s) = S.
Proof.
  intros Hd Hs. unfold improves, math.logical_and, math.less.
  rewrite zip_shape; rewrite zip_shape;
    cbn [math.abs math.greater_equal math.map shape]; congruence.
Qed.

Lemma where_drawn (cond a b : Tensor) :
  shape cond = mkShape (batch S) (spatial S) (spatial_rank e0) ->
  shape a = shape e0 -> shape b = shape e0 ->
  drawn_from e0 a -> drawn_from e0 b ->
  drawn_from e0 (math.where_ cond a b).
Proof.
  intros Hc Ha Hb Da Db idx Hi.
  pose proof (where_shape cond a b Hc Ha Hb) as Hw.
  rewrite <- (bget_in_range (math.where_ cond a b) idx) by now rewrite Hw.
  rewrite where_bget.
  destruct (Qeq_bool _ 0).
  - rewrite bget_in_range by now rewrite Hb. now apply Db.
  - rewrite bget_in_range by now rewrite Ha. now apply Da.
Qed.

Lemma shifted_drawn (d : list Z) (e : Tensor) :
  shape e = shape e0 -> drawn_from e0 e ->
  drawn_from e0 (shifted (seq 0 (spatial_rank e0)) d e).
Proof.
  intros He De idx Hi.
  assert (Er : spatial_rank e0 = spatial_rank e)
    by (unfold spatial_rank; now rewrite He).
  rewrite Er.
  destruct (shifted_get d e idx) as (c & Hc & E); [now rewrite He|].
  rewrite He in Hc.
  destruct (De (at_cell idx c)) as (c' & Hc' & E');
    [now apply in_range_at_cell|].
  exists c'. split; [exact Hc'|]. now rewrite E, E'.
Qed.

Lemma relax_fits (d : list Z) (st : Tensor * Tensor) :
  (1 <= spatial_rank e0)%nat ->
  shape (fst st) = shape e0 -> shape (snd st) = S -> drawn_from e0 (fst st) ->
  let st' := relax np_sqrt (seq 0 (spatial_rank e0)) dx signs d st in
  shape (fst st') = shape e0 /\ shape (snd st') = S
  /\ drawn_from e0 (fst st').
Proof.
  destruct st as [e s]. cbn [fst snd]. intros Hr He Hs De.
  unfold relax. cbn [fst snd].
  pose proof (candidate_shape d s Hs) as Hd.
  pose proof (improves_shape _ s Hd Hs) as Hu.
  assert (Er : spatial_rank e0 = spatial_rank e)
    by (unfold spatial_rank; now rewrite He).
  assert (Hc : shape (math.concat
                        (repeat (improves signs
                                   (candidate np_sqrt
                                      (seq 0 (spatial_rank e0)) dx signs d s)
                                   s) (spatial_rank e)))
               = mkShape (batch S) (spatial S) (spatial_rank e0)).
  { rewrite (concat_shape _ S).
    - rewrite repeat_length, channels_S, Er. f_equal. lia.
    - apply List.Forall_forall. intros t Ht. apply repeat_spec in Ht. now subst t.
    - rewrite <- Er. destruct (spatial_rank e0); [lia | discriminate]. }
  assert (Hsh : shape (shifted (seq 0 (spatial_rank e0)) d e) = shape e0)
    by (rewrite Er, shifted_shape; exact He).
  split; [now apply where_shape|]. split.
  - cbn [math.where_ shape]. now rewrite Hu, Hd, Hs, !bshape_same.
  - apply where_drawn; auto. now apply shifted_drawn.
Qed.

Lemma prime_fits (d : list Z) (st : Tensor * Tensor) :
  (1 <= spatial_rank e0)%nat ->
  shape (fst st) = shape e0 -> shape (snd st) = S -> drawn_from e0 (fst st) ->
  let st' := prime np_sqrt (seq 0 (spatial_rank e0)) dx signs d st in
  shape (fst st') = shape e0 /\ shape (snd st') = S
  /\ drawn_from e0 (fst st').
Proof.
  destruct st as [e s]. cbn [fst snd]. intros Hr He Hs De.
  unfold prime.
  destruct (forallb _ d); [cbn [fst snd]; auto|].
  destruct (_ && _); [|cbn [fst snd]; auto]. cbn [fst snd].
  pose proof (candidate_shape d s Hs) as Hd.
  pose proof (improves_shape _ s Hd Hs) as Hu.
  assert (Hc : shape (math.concat
                 (List.map
                    (fun i => if (nth i d 0 =? 1)%Z
                              then math.zeros_like
                                     (improves signs
                                        (candidate np_sqrt
                                           (seq 0 (spatial_rank e0)) dx signs
                                           d s) s)
                              else improves signs
                                     (candidate np_sqrt
                                        (seq 0 (spatial_rank e0)) dx signs
                                        d s) s)
                    (seq 0 (spatial_rank e0))))
               = mkShape (batch S) (spatial S) (spatial_rank e0)).
  { rewrite (concat_shape _ S).
    - rewrite length_map, length_seq, channels_S. f_equal. lia.
    - apply List.Forall_forall. intros t Ht. apply in_map_iff in Ht as (i & <- & _).
      destruct (nth i d 0 =? 1)%Z; [exact Hu | exact Hu].
    - destruct (spatial_rank e0); [lia | discriminate]. }
  assert (Er : spatial_rank e0 = spatial_rank e)
    by (unfold spatial_rank; now rewrite He).
  assert (Hsh : shape (shifted (seq 0 (spatial_rank e0)) d e) = shape e0)
    by (rewrite Er, shifted_shape; exact He).
  split; [now apply where_shape|]. split.
  - cbn [math.where_ shape]. now rewrite Hu, Hd, Hs, !bshape_same.
  - apply where_drawn; auto. now apply shifted_drawn.
Qed.

Lemma directions_rank_0 : directions [] = [[]].
Proof. reflexivity. Qed.

Lemma sweep_fits (st : Tensor * Tensor) :
  shape (fst st) = shape e0 -> shape (snd st) = S -> drawn_from e0 (fst st) ->
  let st' := sweep np_sqrt (seq 0 (spatial_rank e0)) dx signs st in
  shape (fst st') = shape e0 /\ shape (snd st') = S
  /\ drawn_from e0 (fst st').
Proof.
  intros He Hs De. cbv zeta. unfold sweep.
  destruct (Nat.eq_dec (spatial_rank e0) 0%nat) as [Er | Er].
  - rewrite Er. cbn. auto.
  - generalize (directions (seq 0 (spatial_rank e0))). intros ds.
    revert st He Hs De. induction ds as [|d ds IH]; intros st He Hs De;
      [cbn [fold_left]; auto|].
    cbn [fold_left]. destruct (forallb (Z.eqb 0) d); [now apply IH|].
    destruct (relax_fits d st) as (H1 & H2 & H3);
      [lia | assumption | assumption | assumption |].
    apply IH; assumption.
Qed.

Lemma primes_fits (st : Tensor * Tensor) :
  shape (fst st) = shape e0 -> shape (snd st) = S -> drawn_from e0 (fst st) ->
  let st' := fold_left (fun st d => prime np_sqrt (seq 0 (spatial_rank e0))
                                          dx signs d st)
                       (directions (seq 0 (spatial_rank e0))) st in
  shape (fst st') = shape e0 /\ shape (snd st') = S
  /\ drawn_from e0 (fst st').
Proof.
  intros He Hs De. cbv zeta.
  destruct (Nat.eq_dec (spatial_rank e0) 0%nat) as [Er | Er].
  - rewrite Er. destruct st. cbn. auto.
  - generalize (directions (seq 0 (spatial_rank e0))). intros ds.
    revert st He Hs De. induction ds as [|d ds IH]; intros st He Hs De;
      [cbn [fold_left]; auto|].
    cbn [fold_left].
    destruct (prime_fits d st) as (H1 & H2 & H3);
      [lia | assumption | assumption | assumption |].
    apply IH; assumption.
Qed.

Lemma sweeps_fits (n : nat) (st : Tensor * Tensor) :
  shape (fst st) = shape e0 -> shape (snd st) = S -> drawn_from e0 (fst st) ->
  let st' := Nat.iter n (sweep np_sqrt (seq 0 (spatial_rank e0)) dx signs)
                      st in
  shape (fst st') = shape e0 /\ shape (snd st') = S
  /\ drawn_from e0 (fst st').
Proof.
  intros He Hs De. cbv zeta. induction n as [|n (H1 & H2 & H3)];
    [cbn; auto|].
  rewrite Nat.iter_succ. now apply sweep_fits.
Qed.

End Shapes.

Lemma stagger_dims (l : list nat) :
  pad_dims l (repeat (0%nat, 1%nat) (length l)) = List.map Datatypes.S l.
Proof.
  induction l as [|n l IH]; [reflexivity|].
  cbn [length repeat pad_dims List.map fst snd]. rewrite IH. f_equal. lia.
Qed.

Lemma trim_dims (l : list nat) (k : nat) :
  slice_dims (List.map Datatypes.S l)
             (List.map (fun _ => slice (Some 0%Z) (Some (-1)%Z))
                       (seq k (length l))) = l.
Proof.
  revert k. induction l as [|n l IH]; intros k; [reflexivity|].
  cbn [length seq List.map slice_dims]. rewrite IH. f_equal.
  unfold slice_start, slice_stop, slice_bound; cbn [start stop].
  repeat match goal with
         | |- context [Z.ltb ?a ?b] => destruct (Z.ltb_spec a b); try lia
         end; lia.
Qed.

Lemma extrapolate_loops_fits (np_sqrt : Z -> Q) (input_field : Field)
  (particle_mask : Tensor) (dx : Q) (distance : Z) :
  channels (shape particle_mask) = 1%nat ->
  batch (shape particle_mask) = batch (shape (field_tensor input_field)) ->
  channels (shape (field_tensor input_field))
  = spatial_rank (field_tensor input_field) ->
  spatial (shape (field_tensor input_field))
  = (if is_staggered input_field
     then List.map Datatypes.S (spatial (shape particle_mask))
     else spatial (shape particle_mask)) ->
  let st := extrapolate_loops np_sqrt input_field particle_mask dx distance in
  shape (fst st) = shape (field_tensor input_field)
  /\ shape (snd st) = shape (occupancy input_field particle_mask)
  /\ spatial (shape (occupancy input_field particle_mask))
     = spatial (shape (field_tensor input_field))
  /\ drawn_from (field_tensor input_field) (fst st).
Proof.
  intros Hc Hb Hr Hg st.
  set (e0 := field_tensor input_field) in *.
  set (S := shape (occupancy input_field particle_mask)).
  assert (Sb : batch S = batch (shape e0)).
  { subst S. unfold occupancy. now destruct (is_staggered input_field). }
  assert (Ss : spatial S = spatial (shape e0)).
  { subst S. unfold occupancy. fold e0. rewrite Hg.
    destruct (is_staggered input_field); [|reflexivity].
    cbn [math.pad shape spatial]. unfold spatial_rank. rewrite Hg.
    rewrite length_map. apply stagger_dims. }
  assert (Sc : channels S = 1%nat).
  { subst S. unfold occupancy. now destruct (is_staggered input_field). }
  assert (Hsigns : shape (signs_of (occupancy input_field particle_mask)) = S)
    by reflexivity.
  assert (H0 : shape (fst (extrapolate_init input_field particle_mask
                                            distance)) = shape e0
               /\ shape (snd (extrapolate_init input_field particle_mask
                                               distance)) = S
               /\ drawn_from e0 (fst (extrapolate_init input_field
                                        particle_mask distance))).
  { unfold extrapolate_init. cbn [fst snd]. split; [|split].
    - subst e0. now destruct input_field.
    - cbn [math.where_ math.greater_equal math.scale math.ones_like
           math.minus math.map shape].
      rewrite create_surface_mask_shape. fold S. now rewrite !bshape_same.
    - intros idx Hi. exists (cell idx). split; [now apply in_range_cell|].
      rewrite at_cell_self. subst e0. destruct input_field; [|reflexivity].
      cbn [math.scale math.map get field_tensor]. apply Qmult_1_l_eq. }
  destruct H0 as (I1 & I2 & I3).
  assert (H1 : let st1 :=
                 if is_staggered input_field
                 then fold_left
                        (fun st d =>
                           prime np_sqrt (seq 0 (spatial_rank e0)) dx
                                 (signs_of (occupancy input_field
                                                      particle_mask)) d st)
                        (directions (seq 0 (spatial_rank e0)))
                        (extrapolate_init input_field particle_mask distance)
                 else extrapolate_init input_field particle_mask distance in
               shape (fst st1) = shape e0 /\ shape (snd st1) = S
               /\ drawn_from e0 (fst st1)).
  { cbv zeta. destruct (is_staggered input_field); [|auto].
    now apply (primes_fits np_sqrt dx _ e0 S). }
  cbv zeta in H1. destruct H1 as (P1 & P2 & P3).
  destruct (sweeps_fits np_sqrt dx _ e0 S Sb Ss Sc Hr Hsigns
              (Z.to_nat distance) _ P1 P2 P3) as (F1 & F2 & F3).
  subst st. unfold extrapolate_loops. fold e0. auto.
Qed.

(** X9: on a grid without an empty axis, a mask of one channel over the
    grid of the field, with the batch size of the field, and a field with one
    channel per axis, [extrapolate] returns a field of the kind and the shape
    of its input and a distance of the shape of the mask; a staggered field
    has one more entry than the mask on every axis, and the distance is
    trimmed back to the mask.  (On an empty axis the symmetric padding of
    the backend raises.) *)
Theorem extrapolate_shapes (np_sqrt : Z -> Q) (input_field : Field)
  (particle_mask : Tensor) (dx : Q) (distance : Z) :
  existsb (Nat.eqb 0) (spatial (shape (field_tensor input_field))) = false ->
  channels (shape particle_mask) = 1%nat ->
  batch (shape particle_mask) = batch (shape (field_tensor input_field)) ->
  channels (shape (field_tensor input_field))
  = spatial_rank (field_tensor input_field) ->
  spatial (shape (field_tensor input_field))
  = (if is_staggered input_field
     then List.map Datatypes.S (spatial (shape particle_mask))
     else spatial (shape particle_mask)) ->
  let result := extrapolate np_sqrt input_field particle_mask dx distance in
  shape (fst result) = shape particle_mask
  /\ shape (field_tensor (snd result)) = shape (field_tensor input_field)
  /\ is_staggered (snd result) = is_staggered input_field.
Proof.
  intros _ Hc Hb Hr Hg result.
  destruct (extrapolate_loops_fits np_sqrt input_field particle_mask dx
              distance Hc Hb Hr Hg) as (H1 & H2 & H3 & _).
  subst result. unfold extrapolate.
  destruct (extrapolate_loops np_sqrt input_field particle_mask dx distance)
    as [e s]. cbn [fst snd] in *.
  destruct (is_staggered input_field) eqn:Es; cbn [fst snd field_tensor
                                                   is_staggered].
  - split; [|auto].
    cbn [getitem shape]. rewrite H2, H3, Hg.
    unfold spatial_rank. rewrite Hg, length_map, trim_dims.
    unfold occupancy. rewrite Es. cbn [math.pad shape batch channels].
    now destruct (shape particle_mask).
  - split; [|auto]. rewrite H2. unfold occupancy. now rewrite Es.
Qed.

Lemma extrapolate_shapes_witness :
  let result := extrapolate Toy.sqrt (StaggeredGrid (line [10; 20; 30; 40]))
                            (line [1; 0; 1]) 1 2 in
  shape (fst result) = shape (line [1; 0; 1])
  /\ shape (field_tensor (snd result)) = shape (line [10; 20; 30; 40])
  /\ is_staggered (snd result) = true.
Proof.
  apply (extrapolate_shapes Toy.sqrt (StaggeredGrid (line [10; 20; 30; 40]))
                            (line [1; 0; 1]) 1 2); reflexivity.
Defined.

(** X10: [extrapolate] invents no value.  Under the same conditions on the
    shapes, every entry of the extrapolated field inside the grid is the
    entry of the input field at some cell of the grid, in the same batch and
    the same channel. *)
Theorem extrapolate_copies_input_values (np_sqrt : Z -> Q)
  (input_field : Field) (particle_mask : Tensor) (dx : Q) (distance : Z)
  (idx : Index) :
  channels (shape particle_mask) = 1%nat ->
  batch (shape particle_mask) = batch (shape (field_tensor input_field)) ->
  channels (shape (field_tensor input_field))
  = spatial_rank (field_tensor input_field) ->
  spatial (shape (field_tensor input_field))
  = (if is_staggered input_field
     then List.map Datatypes.S (spatial (shape particle_mask))
     else spatial (shape particle_mask)) ->
  in_range (shape (field_tensor input_field)) idx = true ->
  exists c,
    cell_in (spatial (shape (field_tensor input_field))) c = true
    /\ get (field_tensor
              (snd (extrapolate np_sqrt input_field particle_mask dx
                                distance))) idx
       = get (field_tensor input_field) (mkIndex (ib idx) c (ich idx)).
Proof.
  intros Hc Hb Hr Hg Hi.
  destruct (extrapolate_loops_fits np_sqrt input_field particle_mask dx
              distance Hc Hb Hr Hg) as (_ & _ & _ & H).
  destruct (H idx Hi) as (c & Hcell & E). exists c. split; [exact Hcell|].
  unfold extrapolate.
  destruct (extrapolate_loops np_sqrt input_field particle_mask dx distance)
    as [e s]. cbn [fst] in E.
  destruct (is_staggered input_field); cbn [snd field_tensor]; exact E.
Qed.

Lemma extrapolate_copies_input_values_witness :
  exists c,
    cell_in [3%nat] c = true
    /\ get (field_tensor
              (snd (extrapolate Toy.sqrt (Array (line [10; 20; 30]))
                                (line [1; 0; 1]) 1 2)))
           (mkIndex 0 [1%nat] 0)
       = get (line [10; 20; 30]) (mkIndex 0 c 0).
Proof.
  apply (extrapolate_copies_input_values Toy.sqrt (Array (line [10; 20; 30]))
           (line [1; 0; 1]) 1 2 (mkIndex 0 [1%nat] 0)); reflexivity.
Defined.

(** ** The gravity of a state *)

Lemma nth_gravity (n : nat) (g : Q) (i : nat) :
  nth i (repeat 0 n ++ [g] ++ [0]) 0 = if (i =? n)%nat then g else 0.
Proof.
  destruct (Nat.eqb_spec i n) as [-> | Hne].
  - rewrite app_nth2; rewrite repeat_length; [|lia].
    now rewrite Nat.sub_diag.
  - destruct (Nat.lt_ge_cases i n) as [Hlt | Hge].
    + rewrite app_nth1 by (rewrite repeat_length; lia).
      apply nth_repeat.
    + rewrite app_nth2; rewrite repeat_length; [|lia].
      destruct (i - n)%nat as [|[|k]] eqn:E; [lia | reflexivity|].
      now destruct k.
Qed.

(** X11: the gravity that [GridLiquid.__init__] stores has one component per
    axis of the domain.  A list is kept as it is and must have the rank of
    the domain; a number [g] becomes [[g]] in one dimension and acts along
    the second-to-last axis in two or more, every other component being 0.
    The constructor fails exactly on a list of another length and on a
    number for a domain of rank 0. *)
Theorem init_gravity_per_axis (rank : nat) (gravity : Gravity) :
  match init_gravity rank gravity with
  | Ok v =>
      length v = rank
      /\ match gravity with
         | Vector l => v = l
         | Scalar g =>
             forall i, nth i v 0
                       = if (i =? (if (rank =? 1)%nat then 0 else rank - 2))%nat
                         then g else 0
         end
  | Raise e =>
      e = AssertionError
      /\ match gravity with
         | Vector l => length l <> rank
         | Scalar _ => rank = 0%nat
         end
  end.
Proof.
  unfold init_gravity. destruct gravity as [g | l].
  - destruct (Nat.eqb_spec rank 1) as [-> | H1].
    + split; [reflexivity|]. intros [|[|i]]; reflexivity.
    + destruct (Nat.leb_spec 2 rank) as [H2 | H2].
      * split.
        -- rewrite !length_app, repeat_length. cbn [length]. lia.
        -- intros i. apply nth_gravity.
      * split; [reflexivity | lia].
  - destruct (Nat.eqb_spec (length l) rank) as [E | E]; auto.
Qed.

(** X12: a gravity given as a number accelerates one component only.  In
    two or more dimensions, adding [dt * gravity] to a velocity with one
    channel per axis, as a tick does, adds [dt * g] to the channel of the
    second-to-last axis and leaves every other channel and the shape as they
    were. *)
Theorem scalar_gravity_accelerates_one_axis (rank : nat) (g dt : Q)
  (v : list Q) (velocity : Field) (idx : Index) :
  init_gravity rank (Scalar g) = Ok v ->
  (2 <= rank)%nat ->
  channels (shape (field_tensor velocity)) = rank ->
  in_range (shape (field_tensor velocity)) idx = true ->
  let forces := List.map (Qmult dt) v in
  shape (field_tensor (add_vector velocity forces))
  = shape (field_tensor velocity)
  /\ is_staggered (add_vector velocity forces) = is_staggered velocity
  /\ get (field_tensor (add_vector velocity forces)) idx
     == get (field_tensor velocity) idx
        + (if (ich idx =? rank - 2)%nat then dt * g else 0).
Proof.
  intros Hv Hr Hc Hi forces.
  assert (Ev : v = repeat 0 (rank - 2) ++ [g] ++ [0]).
  { unfold init_gravity in Hv.
    destruct (Nat.eqb_spec rank 1); [lia|].
    destruct (Nat.leb_spec 2 rank); [|lia]. now injection Hv as <-. }
  assert (Hl : length forces = rank).
  { subst forces. rewrite length_map, Ev, !length_app, repeat_length.
    cbn [length]. lia. }
  assert (Hs : shape (field_tensor (add_vector velocity forces))
               = shape (field_tensor velocity)).
  { unfold add_vector. rewrite Hl, Hc.
    destruct velocity; cbn [field_tensor shape];
      cbn [field_tensor] in Hc; rewrite <- Hc, bdim_same;
      now destruct (shape _). }
  split; [exact Hs|]. split; [now destruct velocity|].
  assert (Eg : get (field_tensor (add_vector velocity forces)) idx
               = bget (field_tensor velocity) idx
                 + nth (if (length forces =? 1)%nat then 0%nat else ich idx)
                       forces 0)
    by now destruct velocity.
  rewrite Eg, bget_in_range by exact Hi. rewrite Hl.
  destruct (Nat.eqb_spec rank 1); [lia|].
  assert (Hk : (ich idx < rank)%nat).
  { unfold in_range in Hi. apply andb_true_iff in Hi as [_ Hk].
    apply Nat.ltb_lt in Hk. now rewrite Hc in Hk. }
  subst forces. rewrite (nth_indep _ 0 (dt * 0)) by (rewrite Hl; exact Hk).
  rewrite map_nth, Ev, nth_gravity.
  destruct (ich idx =? rank - 2)%nat; ring.
Qed.

Lemma scalar_gravity_accelerates_one_axis_witness :
  let velocity := StaggeredGrid (mkTensor (mkShape 1 [2%nat; 2%nat] 2)
                                          (fun _ => 5)) in
  let forces := List.map (Qmult (1 # 2)) [-(10); 0] in
  get (field_tensor (add_vector velocity forces)) (mkIndex 0 [1%nat; 1%nat] 0)
  == 0
  /\ get (field_tensor (add_vector velocity forces))
         (mkIndex 0 [1%nat; 1%nat] 1) == 5.
Proof.
  intros velocity forces.
  pose proof (fun k H =>
                proj2 (proj2 (scalar_gravity_accelerates_one_axis
                                2 (-(10)) (1 # 2) [-(10); 0] velocity
                                (mkIndex 0 [1%nat; 1%nat] k)
                                eq_refl (le_n 2) eq_refl H))) as E.
  split.
  - eapply Qeq_trans; [exact (E 0%nat eq_refl) | reflexivity].
  - eapply Qeq_trans; [exact (E 1%nat eq_refl) | reflexivity].
Defined.

(** ** [load_tensorflow] *)

(** X13: [load_tensorflow] registers the TensorFlow backend at most once.
    A call that answers [True] leaves a [TFBackend] in the registry; the
    backends registered before keep their places, and at most one
    [TFBackend] is appended, none when one is there already; a call that
    answers [False] leaves the registry as it was; and a second call answers
    as the first and changes nothing. *)
Theorem load_tensorflow_registers_once (tf : TensorFlow)
  (backends : list Backend) :
  let ok := fst (load_tensorflow tf backends) in
  let backends' := snd (load_tensorflow tf backends) in
  (ok = true -> existsb isinstance_TFBackend backends' = true)
  /\ (ok = false -> backends' = backends)
  /\ (existsb isinstance_TFBackend backends = true -> backends' = backends)
  /\ (backends' = backends \/ backends' = backends ++ [TFBackend])
  /\ (length (List.filter isinstance_TFBackend backends')
      <= Nat.max 1 (length (List.filter isinstance_TFBackend backends)))%nat
  /\ load_tensorflow tf backends' = (ok, backends').
Proof.
  unfold load_tensorflow.
  destruct (importable tf) eqn:Ei; cbn [fst snd].
  - destruct (existsb isinstance_TFBackend backends) eqn:Ex; cbn [fst snd].
    + repeat split; auto; try discriminate; try lia. now rewrite Ex.
    + destruct (constructible tf) eqn:Ec; cbn [fst snd].
      * rewrite existsb_app. cbn [existsb isinstance_TFBackend].
        rewrite orb_true_r. repeat split; auto; try discriminate.
        rewrite List.filter_app, length_app. cbn [List.filter
          isinstance_TFBackend length].
        assert (E0 : List.filter isinstance_TFBackend backends = []).
        { clear -Ex. induction backends as [|b bs IH]; [reflexivity|].
          cbn [existsb] in Ex. apply orb_false_iff in Ex as [Hb Hbs].
          cbn [List.filter]. rewrite Hb. now apply IH. }
        rewrite E0. cbn [length]. lia.
      * repeat split; auto; try discriminate; try lia. now rewrite Ex.
  - repeat split; auto; try discriminate. lia.
Qed.

(** ** Errors of a tick, and [domain] called again *)

Section PhysicsEdges.

Context {Domain Grid Geometry : Type}.
Variable X : Externals Domain Grid Geometry.

Lemma domain_lands (s : loc) (obstacles : list (Obstacle Geometry))
  (h : Heap Domain Geometry) (st : GridLiquid Domain)
  (prior : option (DomainCache Domain Geometry)) :
  states h !! s = Some st ->
  prior_of h st prior ->
  exists c dc1 h1,
    domain X s obstacles h = Ok (c, h1)
    /\ states h1 !! s = Some (set_domaincache c st)
    /\ caches h1 !! c = Some dc1
    /\ (stale X prior obstacles = true ->
        dc1 = rebuilt X st prior obstacles)
    /\ (stale X prior obstacles = false -> h1 = h /\ prior = Some dc1).
Proof.
  intros Hs Hp. pose proof (domain_run X s obstacles h st prior Hs Hp) as Hd.
  destruct (stale X prior obstacles) eqn:Est.
  - cbv zeta in Hd. eexists _, _, _. split; [exact Hd|]. cbn [states caches].
    split; [apply lookup_insert_eq|]. split; [apply lookup_insert_eq|].
    split; [reflexivity | discriminate].
  - unfold prior_of in Hp. destruct (domaincache st) as [c|] eqn:Edc.
    + destruct Hp as [Hc Hne]. destruct prior as [dc|]; [|congruence].
      exists c, dc, h. split; [exact Hd|].
      assert (E : set_domaincache c st = st).
      { destruct st. cbn in Edc. subst. reflexivity. }
      rewrite E. repeat split; auto. discriminate.
    + subst prior. discriminate.
Qed.

(** X14: the errors of a tick.  When the density with the inflow added has
    no entries, the tick fails with the [ValueError] of
    [create_binary_mask]; when the velocity of the state is a centered array
    and not a staggered grid, it fails with the [AssertionError] of
    [divergence_free]. *)
Theorem step_raises (self : GridLiquidPhysics Domain Geometry) (s : loc)
  (dt : Q) (obstacles : list (Obstacle Geometry))
  (inflows : list (Inflow Geometry)) (h : Heap Domain Geometry)
  (st : GridLiquid Domain) (prior : option (DomainCache Domain Geometry)) :
  states h !! s = Some st ->
  prior_of h st prior ->
  match create_binary_mask (Array (step_density X dt inflows st)) (1 # 2) with
  | Raise e => step X self s dt obstacles inflows h = Raise e
  | Ok _ =>
      forall t, _velocity st = Array t ->
                step X self s dt obstacles inflows h = Raise AssertionError
  end.
Proof.
  intros Hs Hp.
  destruct (domain_lands s obstacles h st prior Hs Hp)
    as (c & dc1 & h1 & Hd & Hs1 & Hc1 & _).
  unfold step.
  rewrite (bind_ok _ _ _ _ _ Hd).
  rewrite (bind_ok _ _ _ _ _ (read_state_ok s _ h1 Hs1)).
  change (math.add2 (_density (set_domaincache c st))
                    (inflow_density X dt inflows (set_domaincache c st)))
    with (step_density X dt inflows st).
  unfold bind at 1. unfold lift at 1.
  destruct (create_binary_mask (Array (step_density X dt inflows st)) (1 # 2))
    as [mask | e]; [|reflexivity].
  intros t Ev. cbv beta.
  rewrite (bind_ok _ _ _ _ _ (read_cache_ok c dc1 h1 Hc1)).
  unfold bind at 1. unfold write_cache at 1.
  cbn [set_domaincache _velocity _gravity]. rewrite Ev. reflexivity.
Qed.

(** X15: [domain] called again.  When the cache that [domain] builds for
    the obstacles is valid for them, a second call with the same obstacles
    returns the cache of the first call and leaves the heap as the first
    call left it: the cache is built once. *)
Theorem domain_builds_once (s : loc) (obstacles : list (Obstacle Geometry))
  (h : Heap Domain Geometry) (st : GridLiquid Domain)
  (prior : option (DomainCache Domain Geometry)) :
  states h !! s = Some st ->
  prior_of h st prior ->
  is_valid X (rebuilt X st prior obstacles) obstacles = true ->
  exists c h1,
    domain X s obstacles h = Ok (c, h1)
    /\ domain X s obstacles h1 = Ok (c, h1).
Proof.
  intros Hs Hp Hv.
  destruct (domain_lands s obstacles h st prior Hs Hp)
    as (c & dc1 & h1 & Hd & Hs1 & Hc1 & Hstale & Hfresh).
  exists c, h1. split; [exact Hd|].
  assert (Hp1 : prior_of h1 (set_domaincache c st) (Some dc1)).
  { unfold prior_of. cbn [set_domaincache domaincache]. split; [exact Hc1|].
    discriminate. }
  rewrite (domain_run X s obstacles h1 _ (Some dc1) Hs1 Hp1).
  cbn [stale set_domaincache domaincache].
  destruct (stale X prior obstacles) eqn:Est.
  - rewrite (Hstale eq_refl), Hv. reflexivity.
  - destruct (Hfresh eq_refl) as [_ ->]. cbn [stale] in Est.
    now rewrite Est.
Qed.

(** X16: [solve_pressure] on a state.  A state with a staggered velocity is
    treated as its velocity; a state whose velocity is a centered array fails
    with [AttributeError], even where the array itself would be accepted.
    Whatever it is given, [solve_pressure] leaves the heap as it was. *)
Theorem solve_pressure_of_state (s c : loc)
  (pressure_solver : option (PressureSolver Domain Geometry))
  (h : Heap Domain Geometry) (st : GridLiquid Domain)
  (dc : DomainCache Domain Geometry) :
  states h !! s = Some st ->
  caches h !! c = Some dc ->
  match _velocity st with
  | StaggeredGrid v =>
      solve_pressure X (OfState s) c pressure_solver h
      = solve_pressure X (OfField (StaggeredGrid v)) c pressure_solver h
  | Array _ =>
      solve_pressure X (OfState s) c pressure_solver h = Raise AttributeError
  end
  /\ forall input r h',
       solve_pressure X input c pressure_solver h = Ok (r, h') -> h' = h.
Proof.
  intros Hs Hc. split.
  - unfold solve_pressure, bind, read_cache, read_state, ret, raise.
    rewrite Hc, Hs. destruct (_velocity st); reflexivity.
  - intros input r h'.
    unfold solve_pressure, bind, read_cache, read_state, ret, raise.
    rewrite Hc. destruct input as [s0 | [t | v]].
    + destruct (states h !! s0) as [st0|]; [|discriminate].
      destruct (_velocity st0); [discriminate|]. now intros [= _ <-].
    + destruct (_ =? _)%nat; [|discriminate]. now intros [= _ <-].
    + now intros [= _ <-].
Qed.

End PhysicsEdges.

Lemma step_raises_witness :
  step Toy.world Toy.physics 0%nat 1 [] []
       (mkHeap {[ 0%nat := mkGridLiquid [3%nat] (line [1; 1; 0])
                             (Array (line [0; 0; 0])) [-(1)] 0
                             None None None ]} ∅)
  = Raise AssertionError.
Proof.
  pose proof (step_raises Toy.world Toy.physics 0%nat 1 [] []
                (mkHeap {[ 0%nat := mkGridLiquid [3%nat] (line [1; 1; 0])
                                      (Array (line [0; 0; 0])) [-(1)] 0
                                      None None None ]} ∅)
                (mkGridLiquid [3%nat] (line [1; 1; 0])
                              (Array (line [0; 0; 0])) [-(1)] 0
                              None None None)
                None eq_refl eq_refl) as H.
  assert (E : create_binary_mask
                (Array (step_density Toy.world 1 []
                          (mkGridLiquid [3%nat] (line [1; 1; 0])
                             (Array (line [0; 0; 0])) [-(1)] 0
                             None None None))) (1 # 2)
              = Ok toy_occupied) by (vm_compute; reflexivity).
  rewrite E in H. exact (H _ eq_refl).
Defined.

Lemma domain_builds_once_witness :
  exists c h1,
    domain Toy.world 0%nat [] Toy.heap = Ok (c, h1)
    /\ domain Toy.world 0%nat [] h1 = Ok (c, h1).
Proof.
  apply (domain_builds_once Toy.world 0%nat [] Toy.heap Toy.liquid None);
    reflexivity.
Defined.

Lemma solve_pressure_of_state_witness :
  solve_pressure Toy.world (OfState 0%nat) 0%nat None Toy.cached_heap
  = solve_pressure Toy.world (OfField (StaggeredGrid (line [0; 0; 0; 0])))
                   0%nat None Toy.cached_heap.
Proof.
  exact (proj1 (solve_pressure_of_state Toy.world 0%nat 0%nat None
                  Toy.cached_heap Toy.cached_liquid Toy.cache
                  eq_refl eq_refl)).
Defined.


(** ** [extrapolate]: the distance next to the surface *)

Lemma improves_rejects (signs d_dist s_distance : Tensor) (idx : Index) :
  Qeq_bool (bget (improves signs d_dist s_distance) idx) 0 = true ->
  0 <= bget signs idx ->
  Qabs (bget s_distance idx) <= Qabs (bget d_dist idx).
Proof.
  unfold improves, math.logical_and, math.less, math.abs.
  set (L := math.zip _ (math.map Qabs d_dist) (math.map Qabs s_distance)).
  set (G := math.greater_equal signs 0).
  intros H Hs. unfold bget at 1 in H. cbn [math.zip get] in H.
  set (j := bidx (shape (math.zip _ L G)) idx) in H.
  assert (HG : bget G j = 1).
  { unfold bget, G. cbn [math.greater_equal math.map get shape].
    assert (E : bidx (shape signs) j = bidx (shape signs) idx).
    { subst j. rewrite bidx_bidx; try reflexivity;
        cbn [math.zip shape bshape batch channels];
        intros E; apply bdim_one in E as [_ E]; exact E. }
    rewrite E. fold (bget signs idx).
    apply Qle_bool_iff in Hs. now rewrite Hs. }
  rewrite HG in H.
  destruct (Qeq_bool (bget L j) 0) eqn:EL; [|discriminate]. clear H.
  unfold bget at 1 in EL. subst L. cbn [math.zip get shape] in EL.
  set (j' := bidx (bshape (shape (math.map Qabs d_dist))
                          (shape (math.map Qabs s_distance))) j) in EL.
  destruct (Qltb_spec (bget (math.map Qabs d_dist) j')
                      (bget (math.map Qabs s_distance) j')) as [Hlt | Hge];
    [discriminate|].
  unfold bget in Hge. cbn [math.map get shape] in Hge.
  assert (Hd : bidx (shape d_dist) j' = bidx (shape d_dist) idx).
  { subst j' j. cbn [math.zip math.map shape].
    rewrite !bidx_bidx; try reflexivity; cbn [bshape batch channels];
      intros E; repeat (apply bdim_one in E as [E ?]); auto. }
  assert (Hs' : bidx (shape s_distance) j' = bidx (shape s_distance) idx).
  { subst j' j. cbn [math.zip math.map shape].
    rewrite !bidx_bidx; try reflexivity; cbn [bshape batch channels];
      intros E; repeat (apply bdim_one in E as [E ?]);
      try (apply bdim_one in E as [? E]); auto. }
  rewrite Hd, Hs' in Hge. unfold bget. lra.
Qed.

Lemma shifted_at (d : list Z) (x : Tensor) (idx : Index) :
  in_range (shape x) idx = true ->
  get (shifted (seq 0 (spatial_rank x)) d x) idx
  = get x (at_cell idx (source_cell (spatial (shape x)) 0 d (cell idx)))
  /\ in_range (shape x)
       (at_cell idx (source_cell (spatial (shape x)) 0 d (cell idx))) = true.
Proof.
  intros Hi. pose proof (in_range_cell _ _ Hi) as Hc.
  destruct (shift_cells (spatial (shape x)) 0 d (cell idx) Hc)
    as (H1 & _ & H3).
  split; [|now apply in_range_at_cell].
  unfold shifted, spatial_rank.
  cbn [getitem math.pad shape get batch spatial channels ib cell ich].
  now rewrite H1.
Qed.

Lemma relax_reaches (np_sqrt : Z -> Q) (dx : Q) (signs : Tensor) (d : list Z)
  (st : Tensor * Tensor) (idx : Index) :
  shape signs = shape (snd st) ->
  in_range (shape (snd st)) idx = true ->
  0 <= get signs idx ->
  get (snd st)
      (at_cell idx (source_cell (spatial (shape (snd st))) 0 d (cell idx)))
  == 0 ->
  Qabs (bget (snd (relax np_sqrt (seq 0 (spatial_rank (snd st))) dx signs d
                         st)) idx)
  <= Qabs (dx * np_sqrt (dot d d) * get signs idx).
Proof.
  destruct st as [e s]. cbn [snd]. intros Hsg Hi Hpos Hz.
  unfold relax. cbn [snd].
  set (dd := candidate np_sqrt (seq 0 (spatial_rank s)) dx signs d s).
  assert (Hdd : shape dd = shape s).
  { apply (candidate_shape np_sqrt dx signs s (shape s)); auto. }
  assert (Hg : bget dd idx == dx * np_sqrt (dot d d) * get signs idx).
  { rewrite bget_in_range by now rewrite Hdd.
    unfold dd, candidate, math.add2.
    rewrite zip_get.
    - destruct (shifted_at d s idx Hi) as [E _]. rewrite E.
      cbn [math.scale math.map get]. rewrite Hz. ring.
    - cbn [math.scale math.map shape]. now rewrite shifted_shape.
    - now rewrite shifted_shape. }
  rewrite where_bget.
  assert (Hw : bidx (shape (math.where_ (improves signs dd s) dd s)) idx
               = idx).
  { apply bidx_in_range. cbn [math.where_ shape].
    rewrite (improves_shape signs (shape s) Hsg dd s Hdd eq_refl).
    now rewrite Hdd, !bshape_same. }
  rewrite Hw.
  destruct (Qeq_bool (bget (improves signs dd s) idx) 0) eqn:E.
  - eapply Qle_trans.
    + apply (improves_rejects signs dd s idx E).
      rewrite bget_in_range by now rewrite Hsg. exact Hpos.
    + rewrite Hg. apply Qle_refl.
  - rewrite Hg. apply Qle_refl.
Qed.

Section NearSurface.

Variable np_sqrt : Z -> Q.
Variable dx : Q.
Variables signs e0 : Tensor.
Variable S : Shape.
Variable j : Index.

Hypothesis batch_S : batch S = batch (shape e0).
Hypothesis spatial_S : spatial S = spatial (shape e0).
Hypothesis channels_S : channels S = 1%nat.
Hypothesis channels_e0 : channels (shape e0) = spatial_rank e0.
Hypothesis shape_signs : shape signs = S.
Hypothesis j_inside : inside signs j.

Lemma signs_one_channel : channels (shape signs) = 1%nat.
Proof. now rewrite shape_signs. Qed.

Lemma relax_distance_frame (dims : list nat) (d : list Z)
  (st : Tensor * Tensor) :
  bget (snd (relax np_sqrt dims dx signs d st)) j = bget (snd st) j.
Proof.
  destruct st as [e s]. unfold relax. cbn [snd].
  apply (where_gated signs); auto using signs_one_channel.
  apply improves_gated.
Qed.

Lemma prime_distance_frame (dims : list nat) (d : list Z)
  (st : Tensor * Tensor) :
  bget (snd (prime np_sqrt dims dx signs d st)) j = bget (snd st) j.
Proof.
  destruct st as [e s]. unfold prime.
  destruct (forallb _ d); [reflexivity|].
  destruct (_ && _); [|reflexivity]. cbn [snd].
  apply (where_gated signs); auto using signs_one_channel.
  apply improves_gated.
Qed.

(** The relaxation over any list of offsets, as the loop of a sweep runs
    it. *)
Lemma relaxes_fits (ds : list (list Z)) (st : Tensor * Tensor) :
  (1 <= spatial_rank e0)%nat ->
  shape (fst st) = shape e0 -> shape (snd st) = S -> drawn_from e0 (fst st) ->
  let st' := fold_left (fun st d => if forallb (Z.eqb 0) d then st
                                    else relax np_sqrt
                                           (seq 0 (spatial_rank e0)) dx signs
                                           d st) ds st in
  shape (fst st') = shape e0 /\ shape (snd st') = S
  /\ drawn_from e0 (fst st')
  /\ bget (snd st') j = bget (snd st) j
  /\ forall idx, Qabs (bget (snd st') idx) <= Qabs (bget (snd st) idx).
Proof.
  intros Hr. revert st. induction ds as [|d ds IH]; intros st He Hs De;
    cbn [fold_left].
  - repeat split; auto. intros idx. apply Qle_refl.
  - destruct (forallb (Z.eqb 0) d); [now apply IH|].
    destruct (relax_fits np_sqrt dx signs e0 S batch_S spatial_S channels_S
                channels_e0 shape_signs d st Hr He Hs De) as (H1 & H2 & H3).
    destruct (IH _ H1 H2 H3) as (I1 & I2 & I3 & I4 & I5).
    repeat split; auto.
    + rewrite I4. apply relax_distance_frame.
    + intros idx. eapply Qle_trans; [apply I5 | apply relax_shrinks].
Qed.

Lemma sweep_reaches (d : list Z) (st : Tensor * Tensor) (idx : Index) :
  In d (directions (seq 0 (spatial_rank e0))) ->
  nonzero d = true ->
  shape (fst st) = shape e0 -> shape (snd st) = S -> drawn_from e0 (fst st) ->
  in_range S idx = true ->
  0 <= get signs idx ->
  j = at_cell idx (source_cell (spatial S) 0 d (cell idx)) ->
  bget (snd st) j == 0 ->
  Qabs (bget (snd (sweep np_sqrt (seq 0 (spatial_rank e0)) dx signs st)) idx)
  <= Qabs (dx * np_sqrt (dot d d) * get signs idx).
Proof.
  intros Hin Hnz He Hs De Hi Hpos Hj Hz.
  assert (Hr : (1 <= spatial_rank e0)%nat).
  { destruct (spatial_rank e0) eqn:E; [|lia]. exfalso.
    cbn in Hin. destruct Hin as [<- | []]. discriminate. }
  apply in_split in Hin as (l1 & l2 & El).
  unfold sweep. rewrite El, fold_left_app. cbn [fold_left].
  unfold nonzero in Hnz. apply negb_true_iff in Hnz. rewrite Hnz.
  destruct (relaxes_fits l1 st Hr He Hs De) as (H1 & H2 & H3 & H4 & _).
  cbv zeta in H1, H2, H3, H4.
  set (st1 := fold_left _ l1 st) in *.
  destruct (relax_fits np_sqrt dx signs e0 S batch_S spatial_S channels_S
              channels_e0 shape_signs d st1 Hr H1 H2 H3) as (R1 & R2 & R3).
  cbv zeta in R1, R2, R3.
  destruct (relaxes_fits l2 _ Hr R1 R2 R3) as (_ & _ & _ & _ & Hsh).
  eapply Qle_trans; [apply Hsh|].
  assert (Er : spatial_rank e0 = spatial_rank (snd st1))
    by (unfold spatial_rank; now rewrite H2, spatial_S).
  rewrite Er. apply relax_reaches.
  - now rewrite H2.
  - now rewrite H2.
  - exact Hpos.
  - rewrite H2, <- Hj.
    assert (Hjr : in_range S j = true).
    { rewrite Hj. apply in_range_at_cell; [exact Hi|].
      destruct (shift_cells (spatial S) 0 d (cell idx)) as (_ & _ & H);
        [now apply in_range_cell | exact H]. }
    rewrite <- (bget_in_range (snd st1) j) by now rewrite H2.
    now rewrite H4.
Qed.

End NearSurface.

Lemma sweep_distance_frame (np_sqrt : Z -> Q) (dims : list nat) (dx : Q)
  (signs : Tensor) (j : Index) (st : Tensor * Tensor) :
  channels (shape signs) = 1%nat -> inside signs j ->
  bget (snd (sweep np_sqrt dims dx signs st)) j = bget (snd st) j.
Proof.
  intros Hc Hj. unfold sweep. generalize (directions dims). intros ds.
  revert st. induction ds as [|d ds IHd]; intros st; [reflexivity|].
  cbn [fold_left]. rewrite IHd.
  destruct (forallb (Z.eqb 0) d); [reflexivity|].
  apply (relax_distance_frame np_sqrt dx signs (shape signs) j); auto.
Qed.

Lemma sweeps_distance_frame (np_sqrt : Z -> Q) (dims : list nat) (dx : Q)
  (signs : Tensor) (j : Index) (n : nat) (st : Tensor * Tensor) :
  channels (shape signs) = 1%nat -> inside signs j ->
  bget (snd (Nat.iter n (sweep np_sqrt dims dx signs) st)) j
  = bget (snd st) j.
Proof.
  intros Hc Hj. induction n as [|n IH]; [reflexivity|].
  rewrite Nat.iter_succ, <- IH. now apply sweep_distance_frame.
Qed.

Lemma primes_distance_frame (np_sqrt : Z -> Q) (dims : list nat) (dx : Q)
  (signs : Tensor) (j : Index) (ds : list (list Z)) (st : Tensor * Tensor) :
  channels (shape signs) = 1%nat -> inside signs j ->
  bget (snd (fold_left (fun st d => prime np_sqrt dims dx signs d st) ds st))
       j
  = bget (snd st) j.
Proof.
  intros Hc Hj. revert st. induction ds as [|d ds IH]; intros st;
    [reflexivity|].
  cbn [fold_left]. rewrite IH.
  apply (prime_distance_frame np_sqrt dx signs (shape signs) j); auto.
Qed.

Lemma surface_starts_at_zero (input_field : Field) (particle_mask : Tensor)
  (distance : Z) (j : Index) :
  in_range (shape (occupancy input_field particle_mask)) j = true ->
  1 <= get (create_surface_mask (occupancy input_field particle_mask)) j ->
  bget (snd (extrapolate_init input_field particle_mask distance)) j == 0.
Proof.
  intros Hj Hs. unfold extrapolate_init. cbn [snd].
  set (occ := occupancy input_field particle_mask) in *.
  rewrite where_bget.
  match goal with
  | |- context [bidx ?W j] =>
      assert (Hw : bidx W j = j)
  end.
  { apply bidx_in_range.
    cbn [math.where_ math.greater_equal math.scale math.ones_like
         math.minus math.map shape].
    now rewrite create_surface_mask_shape, !bshape_same. }
  rewrite Hw.
  rewrite (bget_in_range (math.greater_equal (create_surface_mask occ) 1))
    by (cbn [math.greater_equal math.map shape];
        now rewrite create_surface_mask_shape).
  cbn [math.greater_equal math.map get].
  apply Qle_bool_iff in Hs. rewrite Hs.
  replace (Qeq_bool 1 0) with false by reflexivity.
  unfold bget. cbn [math.scale math.ones_like math.map get]. ring.
Qed.

(** X18: the distance next to the surface.  After at least one sweep, an
    empty cell that has a surface cell of the fluid among the neighbours that
    the offsets [d] reach (on every axis the cell at offset [-d], and the
    cell itself at the edge of the grid) has a distance of magnitude at most
    [dx * sqrt(d.d)], the length of the step from that neighbour. *)
Theorem extrapolate_distance_near_surface (np_sqrt : Z -> Q)
  (input_field : Field) (particle_mask : Tensor) (dx : Q) (distance : Z)
  (d : list Z) (idx : Index) :
  channels (shape particle_mask) = 1%nat ->
  batch (shape particle_mask) = batch (shape (field_tensor input_field)) ->
  channels (shape (field_tensor input_field))
  = spatial_rank (field_tensor input_field) ->
  spatial (shape (field_tensor input_field))
  = (if is_staggered input_field
     then List.map Datatypes.S (spatial (shape particle_mask))
     else spatial (shape particle_mask)) ->
  (1 <= distance)%Z ->
  In d (directions (seq 0 (spatial_rank (field_tensor input_field)))) ->
  nonzero d = true ->
  let occupied := occupancy input_field particle_mask in
  let from :=
    at_cell idx (source_cell (spatial (shape occupied)) 0 d (cell idx)) in
  in_range (shape occupied) idx = true ->
  get occupied idx == 0 ->
  get occupied from == 1 ->
  1 <= get (create_surface_mask occupied) from ->
  let result :=
    snd (extrapolate_loops np_sqrt input_field particle_mask dx distance) in
  Qabs (get result idx) <= Qabs (dx * np_sqrt (dot d d))
  /\ (is_staggered input_field = false ->
      fst (extrapolate np_sqrt input_field particle_mask dx distance)
      = result).
Proof.
  intros Hc Hb Hr Hg Hdist Hd Hnz occupied from Hi Hempty Hfull Hsurf result.
  split.
  2:{ intros Hst. subst result. unfold extrapolate. rewrite Hst.
      now destruct (extrapolate_loops _ _ _ _ _). }
  set (e0 := field_tensor input_field) in *.
  set (S := shape occupied).
  set (signs := signs_of occupied).
  assert (Sb : batch S = batch (shape e0)).
  { subst S occupied. unfold occupancy.
    now destruct (is_staggered input_field). }
  assert (Ss : spatial S = spatial (shape e0)).
  { subst S occupied. unfold occupancy. fold e0. rewrite Hg.
    destruct (is_staggered input_field); [|reflexivity].
    cbn [math.pad shape spatial]. unfold spatial_rank. rewrite Hg.
    rewrite length_map. apply stagger_dims. }
  assert (Sc : channels S = 1%nat).
  { subst S occupied. unfold occupancy.
    now destruct (is_staggered input_field). }
  assert (Hsigns : shape signs = S) by reflexivity.
  assert (Hsc : channels (shape signs) = 1%nat) by now rewrite Hsigns.
  assert (Hfr : in_range S from = true).
  { subst from. apply in_range_at_cell; [exact Hi|].
    destruct (shift_cells (spatial S) 0 d (cell idx)) as (_ & _ & H);
      [now apply in_range_cell | exact H]. }
  assert (Hin : inside signs from).
  { unfold inside. rewrite bget_in_range by now rewrite Hsigns.
    subst signs. unfold signs_of.
    cbn [math.scale math.minus math.map get]. rewrite Hfull. reflexivity. }
  assert (Hpos : get signs idx == 1).
  { subst signs. unfold signs_of.
    cbn [math.scale math.minus math.map get]. rewrite Hempty. reflexivity. }
  (* the state before the sweeps *)
  set (st0 := extrapolate_init input_field particle_mask distance).
  assert (H0 : shape (fst st0) = shape e0 /\ shape (snd st0) = S
               /\ drawn_from e0 (fst st0)).
  { subst st0. unfold extrapolate_init. cbn [fst snd]. split; [|split].
    - subst e0. now destruct input_field.
    - cbn [math.where_ math.greater_equal math.scale math.ones_like
           math.minus math.map shape].
      rewrite create_surface_mask_shape. fold occupied. fold S.
      now rewrite !bshape_same.
    - intros k Hk. exists (cell k). split; [now apply in_range_cell|].
      rewrite at_cell_self. subst e0. destruct input_field; [|reflexivity].
      cbn [math.scale math.map get field_tensor]. apply Qmult_1_l_eq. }
  destruct H0 as (I1 & I2 & I3).
  assert (Hz0 : bget (snd st0) from == 0)
    by (apply surface_starts_at_zero; assumption).
  set (st1 := if is_staggered input_field
              then fold_left
                     (fun st d => prime np_sqrt (seq 0 (spatial_rank e0)) dx
                                        signs d st)
                     (directions (seq 0 (spatial_rank e0))) st0
              else st0).
  assert (H1 : shape (fst st1) = shape e0 /\ shape (snd st1) = S
               /\ drawn_from e0 (fst st1)
               /\ bget (snd st1) from == 0).
  { subst st1. destruct (is_staggered input_field); [|auto].
    destruct (primes_fits np_sqrt dx signs e0 S Sb Ss Sc Hr Hsigns st0
                I1 I2 I3) as (P1 & P2 & P3).
    repeat split; auto.
    rewrite primes_distance_frame by assumption. exact Hz0. }
  destruct H1 as (P1 & P2 & P3 & P4).
  assert (En : exists n, Z.to_nat distance = Datatypes.S n).
  { exists (Z.to_nat distance - 1)%nat. lia. }
  destruct En as [n En].
  assert (Eres : result
                 = snd (sweep np_sqrt (seq 0 (spatial_rank e0)) dx signs
                          (Nat.iter n (sweep np_sqrt (seq 0 (spatial_rank e0))
                                             dx signs) st1))).
  { subst result. unfold extrapolate_loops. fold e0. fold occupied.
    fold signs. fold st0. fold st1. rewrite En. now rewrite Nat.iter_succ. }
  destruct (sweeps_fits np_sqrt dx signs e0 S Sb Ss Sc Hr Hsigns n st1
              P1 P2 P3) as (F1 & F2 & F3).
  cbv zeta in F1, F2, F3.
  destruct (sweep_fits np_sqrt dx signs e0 S Sb Ss Sc Hr Hsigns _ F1 F2 F3)
    as (_ & G2 & _).
  cbv zeta in G2.
  rewrite <- (bget_in_range result idx)
    by (rewrite Eres, G2; exact Hi).
  rewrite Eres.
  eapply Qle_trans.
  - apply (sweep_reaches np_sqrt dx signs e0 S from Sb Ss Sc Hr Hsigns Hin d
             _ idx Hd Hnz F1 F2 F3 Hi).
    + rewrite Hpos. discriminate.
    + reflexivity.
    + rewrite sweeps_distance_frame by assumption. exact P4.
  - rewrite Hpos. rewrite Qmult_1_r. apply Qle_refl.
Qed.

Lemma extrapolate_distance_near_surface_witness :
  Qabs (get (snd (extrapolate_loops Toy.sqrt (Array (line [10; 20; 30]))
                                    (line [1; 0; 0]) 1 2))
            (mkIndex 0 [1%nat] 0))
  <= Qabs (1 * Toy.sqrt (dot [1%Z] [1%Z])).
Proof.
  apply (extrapolate_distance_near_surface Toy.sqrt
           (Array (line [10; 20; 30])) (line [1; 0; 0]) 1 2 [1%Z]
           (mkIndex 0 [1%nat] 0)); try reflexivity.
  - lia.
  - right. right. left. reflexivity.
  - vm_compute. discriminate.
Defined.

(** ** [extrapolate]: a grid without fluid *)

Lemma whole_grid_inside (S : Shape) (j : Index) :
  inside (whole_grid S) j <-> in_range S (bidx S j) = true.
Proof.
  unfold inside, bget, whole_grid. cbn [shape get].
  destruct (in_range S (bidx S j)); split; intros H;
    try reflexivity; try discriminate; exfalso; revert H; discriminate.
Qed.

Lemma pad_constant_in (dims : list nat) (pads : list (nat * nat))
  (c : list nat) :
  length pads = length dims ->
  cell_in (pad_dims dims pads) c = true ->
  match pad_cell constant dims pads c with
  | Some c' => cell_in dims c' = true
  | None => True
  end.
Proof.
  revert pads c. induction dims as [|n dims IH]; intros pads c Hl Hc.
  - destruct pads; [|discriminate]. now destruct c.
  - destruct pads as [|p pads]; [discriminate|].
    destruct c as [|j c]; [discriminate|].
    cbn [pad_dims cell_in] in Hc. apply andb_true_iff in Hc as [_ Hc].
    cbn [pad_cell]. specialize (IH pads c ltac:(simpl in Hl; lia) Hc).
    unfold pad_axis.
    destruct (Nat.ltb_spec j (fst p)); [exact I|].
    destruct (Nat.ltb_spec j (fst p + n)); [|exact I].
    destruct (pad_cell constant dims pads c); [|exact I].
    cbn [cell_in]. rewrite IH, andb_true_r. apply Nat.ltb_lt. lia.
Qed.

Section Idle.

Variable np_sqrt : Z -> Q.
Variable dx : Q.
Variable signs : Tensor.
Variable S : Shape.
Variable K : Q.

Hypothesis channels_S : channels S = 1%nat.
Hypothesis shape_signs : shape signs = S.
Hypothesis signs_one : forall k, in_range S k = true -> get signs k == 1.
Hypothesis K_nonneg : 0 <= K.
Hypothesis dx_nonneg : 0 <= dx.
Hypothesis sqrt_nonneg : forall z, 0 <= np_sqrt z.

Lemma idle_gated (d : list Z) (s : Tensor) :
  shape s = S ->
  (forall k, in_range S k = true -> get s k == K) ->
  gated (whole_grid S)
        (improves signs
           (candidate np_sqrt (seq 0 (spatial_rank s)) dx signs d s) s).
Proof.
  intros Hs HK.
  set (dd := candidate np_sqrt (seq 0 (spatial_rank s)) dx signs d s).
  assert (Hdd : shape dd = S).
  { apply (candidate_shape np_sqrt dx signs s S); auto. now rewrite Hs. }
  split.
  2:{ intros Hb. cbn [whole_grid shape].
      now rewrite (improves_shape signs S shape_signs dd s Hdd Hs) in Hb. }
  intros j Hj. apply whole_grid_inside in Hj.
  set (k := bidx S j) in *.
  unfold improves, math.logical_and, math.less, math.abs.
  set (L := math.zip _ (math.map Qabs dd) (math.map Qabs s)).
  cbn [math.zip get].
  assert (HL : bget L j = 0).
  { unfold bget. subst L. cbn [math.zip math.map get shape].
    rewrite Hdd, Hs, bshape_same. fold k.
    rewrite !bget_in_range
      by (cbn [math.map shape]; rewrite ?Hdd, ?Hs; exact Hj).
    cbn [math.map get].
    destruct (Qltb_spec (Qabs (get dd k)) (Qabs (get s k))) as [Hlt | _];
      [|reflexivity].
    exfalso.
    assert (Eg : get dd k
                 == K + dx * np_sqrt (dot d d)).
    { unfold dd, candidate, math.add2.
      rewrite zip_get.
      - destruct (shifted_at d s k) as [E Hr]; [now rewrite Hs|].
        rewrite E. cbn [math.scale math.map get].
        rewrite HK by (rewrite <- Hs; exact Hr).
        rewrite signs_one by exact Hj. ring.
      - cbn [math.scale math.map shape]. rewrite shifted_shape. congruence.
      - rewrite shifted_shape, Hs. exact Hj. }
    rewrite Eg, (HK k Hj) in Hlt.
    pose proof (sqrt_nonneg (dot d d)) as Hq.
    assert (0 <= dx * np_sqrt (dot d d)) by nra.
    rewrite !Qabs_pos in Hlt by lra. lra. }
  rewrite HL. reflexivity.
Qed.

Lemma relax_idle (d : list Z) (st : Tensor * Tensor) :
  shape (snd st) = S ->
  (forall k, in_range S k = true -> get (snd st) k == K) ->
  let st' := relax np_sqrt (seq 0 (length (spatial S))) dx signs d st in
  shape (snd st') = S
  /\ (forall k, in_range S k = true -> get (snd st') k == K)
  /\ forall idx, inside (whole_grid S) idx ->
                 bget (fst st') idx = bget (fst st) idx.
Proof.
  destruct st as [e s]. cbn [fst snd]. intros Hs HK.
  assert (Er : length (spatial S) = spatial_rank s)
    by (unfold spatial_rank; now rewrite Hs).
  rewrite Er. unfold relax. cbn [fst snd].
  pose proof (idle_gated d s Hs HK) as Hg.
  set (dd := candidate np_sqrt (seq 0 (spatial_rank s)) dx signs d s) in *.
  assert (Hdd : shape dd = S).
  { apply (candidate_shape np_sqrt dx signs s S); auto. now rewrite Hs. }
  assert (Hsh : shape (math.where_ (improves signs dd s) dd s) = S).
  { cbn [math.where_ shape].
    rewrite (improves_shape signs S shape_signs dd s Hdd Hs), Hdd, Hs.
    now rewrite !bshape_same. }
  split; [exact Hsh|]. split.
  - intros k Hk.
    rewrite <- (bget_in_range _ k) by now rewrite Hsh.
    rewrite (where_gated (whole_grid S)); auto.
    + rewrite bget_in_range by now rewrite Hs. now apply HK.
    + apply whole_grid_inside. now rewrite bidx_in_range.
  - intros idx Hi. apply (where_frame (whole_grid S)); auto.
    apply List.Forall_forall. intros t Ht. apply repeat_spec in Ht.
    now subst t.
Qed.

Lemma prime_idle (d : list Z) (st : Tensor * Tensor) :
  shape (snd st) = S ->
  (forall k, in_range S k = true -> get (snd st) k == K) ->
  let st' := prime np_sqrt (seq 0 (length (spatial S))) dx signs d st in
  shape (snd st') = S
  /\ (forall k, in_range S k = true -> get (snd st') k == K)
  /\ forall idx, inside (whole_grid S) idx ->
                 bget (fst st') idx = bget (fst st) idx.
Proof.
  destruct st as [e s]. cbn [fst snd]. intros Hs HK.
  assert (Er : length (spatial S) = spatial_rank s)
    by (unfold spatial_rank; now rewrite Hs).
  rewrite Er. unfold prime.
  destruct (forallb _ d); [cbn [fst snd]; auto|].
  destruct (_ && _); [|cbn [fst snd]; auto]. cbn [fst snd].
  pose proof (idle_gated d s Hs HK) as Hg.
  set (dd := candidate np_sqrt (seq 0 (spatial_rank s)) dx signs d s) in *.
  assert (Hdd : shape dd = S).
  { apply (candidate_shape np_sqrt dx signs s S); auto. now rewrite Hs. }
  assert (Hsh : shape (math.where_ (improves signs dd s) dd s) = S).
  { cbn [math.where_ shape].
    rewrite (improves_shape signs S shape_signs dd s Hdd Hs), Hdd, Hs.
    now rewrite !bshape_same. }
  split; [exact Hsh|]. split.
  - intros k Hk.
    rewrite <- (bget_in_range _ k) by now rewrite Hsh.
    rewrite (where_gated (whole_grid S)); auto.
    + rewrite bget_in_range by now rewrite Hs. now apply HK.
    + apply whole_grid_inside. now rewrite bidx_in_range.
  - intros idx Hi. apply (where_frame (whole_grid S)); auto.
    apply List.Forall_forall. intros t Ht.
    apply in_map_iff in Ht as (i & <- & _).
    destruct (nth i d 0 =? 1)%Z; [now apply zeros_like_gated | exact Hg].
Qed.

Lemma sweep_idle (st : Tensor * Tensor) :
  shape (snd st) = S ->
  (forall k, in_range S k = true -> get (snd st) k == K) ->
  let st' := sweep np_sqrt (seq 0 (length (spatial S))) dx signs st in
  shape (snd st') = S
  /\ (forall k, in_range S k = true -> get (snd st') k == K)
  /\ forall idx, inside (whole_grid S) idx ->
                 bget (fst st') idx = bget (fst st) idx.
Proof.
  cbv zeta. unfold sweep.
  generalize (directions (seq 0 (length (spatial S)))). intros ds.
  revert st. induction ds as [|d ds IH]; intros st Hs HK; cbn [fold_left];
    [auto|].
  destruct (forallb (Z.eqb 0) d); [now apply IH|].
  destruct (relax_idle d st Hs HK) as (H1 & H2 & H3).
  destruct (IH _ H1 H2) as (I1 & I2 & I3).
  repeat split; auto. intros idx Hi. rewrite I3 by exact Hi. now apply H3.
Qed.

Lemma sweeps_idle (n : nat) (st : Tensor * Tensor) :
  shape (snd st) = S ->
  (forall k, in_range S k = true -> get (snd st) k == K) ->
  let st' := Nat.iter n (sweep np_sqrt (seq 0 (length (spatial S))) dx signs)
                      st in
  shape (snd st') = S
  /\ (forall k, in_range S k = true -> get (snd st') k == K)
  /\ forall idx, inside (whole_grid S) idx ->
                 bget (fst st') idx = bget (fst st) idx.
Proof.
  intros Hs HK. cbv zeta. induction n as [|n (I1 & I2 & I3)]; [cbn; auto|].
  rewrite Nat.iter_succ.
  destruct (sweep_idle _ I1 I2) as (H1 & H2 & H3).
  repeat split; auto. intros idx Hi. rewrite H3 by exact Hi. now apply I3.
Qed.

Lemma primes_idle (ds : list (list Z)) (st : Tensor * Tensor) :
  shape (snd st) = S ->
  (forall k, in_range S k = true -> get (snd st) k == K) ->
  let st' := fold_left (fun st d => prime np_sqrt (seq 0 (length (spatial S)))
                                          dx signs d st) ds st in
  shape (snd st') = S
  /\ (forall k, in_range S k = true -> get (snd st') k == K)
  /\ forall idx, inside (whole_grid S) idx ->
                 bget (fst st') idx = bget (fst st) idx.
Proof.
  cbv zeta. revert st. induction ds as [|d ds IH]; intros st Hs HK;
    cbn [fold_left]; [auto|].
  destruct (prime_idle d st Hs HK) as (H1 & H2 & H3).
  destruct (IH _ H1 H2) as (I1 & I2 & I3).
  repeat split; auto. intros idx Hi. rewrite I3 by exact Hi. now apply H3.
Qed.

End Idle.

Lemma cell_in_stagger (dims c : list nat) :
  cell_in dims c = true -> cell_in (List.map Datatypes.S dims) c = true.
Proof.
  revert c. induction dims as [|n dims IH]; intros [|j c]; cbn; auto.
  rewrite !andb_true_iff. intros [H1 H2]. split; [|now apply IH].
  apply Nat.ltb_lt in H1. apply Nat.leb_le. lia.
Qed.

Lemma trim_cell (dims c : list nat) (k : nat) :
  cell_in dims c = true ->
  slice_cell (List.map Datatypes.S dims)
             (List.map (fun _ => slice (Some 0%Z) (Some (-1)%Z))
                       (seq k (length dims))) c
  = c.
Proof.
  revert c k. induction dims as [|n dims IH]; intros [|j c] k; cbn;
    try discriminate; auto.
  rewrite andb_true_iff. intros [_ H]. now rewrite IH.
Qed.

(** X19: a grid without fluid.  When the mask is 0 on every cell, [dx] and
    the square roots are not negative and [distance] is not negative, no
    sweep finds a shorter distance: [extrapolate] returns the field as it
    was given; the distance after the loops is [2*(distance+1)] on every
    cell of the grid of the field, and so is the distance that
    [extrapolate] returns, on every cell of the mask. *)
Theorem extrapolate_without_fluid (np_sqrt : Z -> Q) (input_field : Field)
  (particle_mask : Tensor) (dx : Q) (distance : Z) (idx : Index) :
  channels (shape particle_mask) = 1%nat ->
  batch (shape particle_mask) = batch (shape (field_tensor input_field)) ->
  spatial (shape (field_tensor input_field))
  = (if is_staggered input_field
     then List.map Datatypes.S (spatial (shape particle_mask))
     else spatial (shape particle_mask)) ->
  (forall k, in_range (shape particle_mask) k = true ->
             get particle_mask k == 0) ->
  0 <= dx ->
  (forall z, 0 <= np_sqrt z) ->
  (0 <= distance)%Z ->
  in_range (shape (field_tensor input_field)) idx = true ->
  bget (field_tensor
          (snd (extrapolate np_sqrt input_field particle_mask dx distance)))
       idx
  = get (field_tensor input_field) idx
  /\ (forall k,
       in_range (shape (occupancy input_field particle_mask)) k = true ->
       get (snd (extrapolate_loops np_sqrt input_field particle_mask dx
                                   distance)) k
       == 2 * (inject_Z distance + 1))
  /\ forall k,
       in_range (shape particle_mask) k = true ->
       get (fst (extrapolate np_sqrt input_field particle_mask dx distance))
           k
       == 2 * (inject_Z distance + 1).
Proof.
  intros Hc Hb Hg Hzero Hdx Hsq Hdist Hi.
  set (e0 := field_tensor input_field) in *.
  set (occ := occupancy input_field particle_mask).
  set (S := shape occ).
  set (signs := signs_of occ).
  set (K := 2 * (inject_Z distance + 1)).
  assert (Sb : batch S = batch (shape e0)).
  { subst S occ. unfold occupancy. now destruct (is_staggered input_field). }
  assert (Ss : spatial S = spatial (shape e0)).
  { subst S occ. unfold occupancy. fold e0. rewrite Hg.
    destruct (is_staggered input_field); [|reflexivity].
    cbn [math.pad shape spatial]. unfold spatial_rank. rewrite Hg.
    rewrite length_map. apply stagger_dims. }
  assert (Sc : channels S = 1%nat).
  { subst S occ. unfold occupancy. now destruct (is_staggered input_field). }
  assert (Hocc : forall k, in_range S k = true -> get occ k == 0).
  { intros k Hk. subst S occ. unfold occupancy in *. fold e0 in Hk |- *.
    destruct (is_staggered input_field); [|now apply Hzero].
    cbn [math.pad get]. cbn [math.pad shape] in Hk.
    pose proof (pad_constant_in (spatial (shape particle_mask))
                  (repeat (0%nat, 1%nat) (spatial_rank e0)) (cell k)) as Hp.
    destruct (pad_cell constant (spatial (shape particle_mask))
                (repeat (0%nat, 1%nat) (spatial_rank e0)) (cell k))
      as [c|]; [|reflexivity].
    apply Hzero. unfold in_range in *. cbn [batch spatial channels] in Hk.
    cbn [ib cell ich]. rewrite !andb_true_iff in *.
    destruct Hk as [[Hk1 Hk2] Hk3]. repeat split; auto. apply Hp; auto.
    rewrite repeat_length. unfold spatial_rank. now rewrite Hg, length_map. }
  assert (Hsigns : shape signs = S) by reflexivity.
  assert (Hone : forall k, in_range S k = true -> get signs k == 1).
  { intros k Hk. subst signs. unfold signs_of.
    cbn [math.scale math.minus math.map get]. rewrite (Hocc k Hk).
    reflexivity. }
  assert (HK : 0 <= K).
  { subst K. assert (0 <= inject_Z distance)
      by (change 0 with (inject_Z 0); now rewrite <- Zle_Qle). lra. }
  assert (Hbin : binary occ) by (intros k Hk; left; now apply Hocc).
  (* the state before the loops *)
  set (st0 := extrapolate_init input_field particle_mask distance).
  assert (I2 : shape (snd st0) = S).
  { subst st0. unfold extrapolate_init. cbn [snd].
    cbn [math.where_ math.greater_equal math.scale math.ones_like
         math.minus math.map shape].
    rewrite create_surface_mask_shape. fold occ. fold S.
    now rewrite !bshape_same. }
  assert (I3 : forall k, in_range S k = true -> get (snd st0) k == K).
  { intros k Hk. rewrite <- bget_in_range by now rewrite I2.
    subst st0. unfold extrapolate_init. cbn [snd]. fold occ.
    rewrite where_bget.
    match goal with
    | |- context [bidx ?W k] => assert (Hw : bidx W k = k)
    end.
    { apply bidx_in_range.
      cbn [math.where_ math.greater_equal math.scale math.ones_like
           math.minus math.map shape].
      now rewrite create_surface_mask_shape, !bshape_same. }
    rewrite Hw.
    rewrite (bget_in_range (math.greater_equal (create_surface_mask occ) 1))
      by (cbn [math.greater_equal math.map shape];
          now rewrite create_surface_mask_shape).
    cbn [math.greater_equal math.map get].
    pose proof (create_surface_mask_flag occ k Hbin Hk) as Ef.
    assert (E1 : Qeq_bool (get occ k) 1 = false).
    { destruct (Qeq_bool_spec (get occ k) 1) as [E | _]; [|reflexivity].
      rewrite (Hocc k Hk) in E. discriminate. }
    rewrite E1 in Ef. cbn [andb flag] in Ef.
    assert (E2 : Qle_bool 1 (get (create_surface_mask occ) k) = false).
    { apply not_true_is_false. intros H. apply Qle_bool_iff in H.
      rewrite Ef in H. lra. }
    rewrite E2. replace (Qeq_bool 0 0) with true by reflexivity.
    rewrite bget_in_range by exact Hk.
    cbn [math.scale math.minus math.map get]. rewrite (Hocc k Hk).
    subst K. ring. }
  assert (Er : spatial_rank e0 = length (spatial S))
    by (unfold spatial_rank; now rewrite Ss).
  set (st1 := if is_staggered input_field
              then fold_left
                     (fun st d => prime np_sqrt (seq 0 (spatial_rank e0)) dx
                                        signs d st)
                     (directions (seq 0 (spatial_rank e0))) st0
              else st0).
  assert (H1 : shape (snd st1) = S
               /\ (forall k, in_range S k = true -> get (snd st1) k == K)
               /\ forall i, inside (whole_grid S) i ->
                            bget (fst st1) i = bget (fst st0) i).
  { subst st1. destruct (is_staggered input_field); [|auto].
    rewrite Er.
    apply (primes_idle np_sqrt dx signs S K Sc Hsigns Hone HK Hdx Hsq);
      assumption. }
  destruct H1 as (P1 & P2 & P3).
  destruct (sweeps_idle np_sqrt dx signs S K Sc Hsigns Hone HK Hdx Hsq
              (Z.to_nat distance) st1 P1 P2) as (F1 & F2 & F3).
  cbv zeta in F1, F2, F3. rewrite <- Er in F1, F2, F3.
  assert (Eloops : extrapolate_loops np_sqrt input_field particle_mask dx
                                     distance
                   = Nat.iter (Z.to_nat distance)
                       (sweep np_sqrt (seq 0 (spatial_rank e0)) dx signs) st1)
    by reflexivity.
  split; [|split].
  - assert (Hin : inside (whole_grid S) idx).
    { apply whole_grid_inside. unfold in_range, bidx in *.
      cbn [ib cell ich]. rewrite !andb_true_iff in *.
      destruct Hi as [[Hi1 Hi2] Hi3]. rewrite Sc, Ss. cbn [Nat.eqb].
      repeat split; auto.
      destruct (Nat.eqb_spec (batch S) 1) as [E | _];
        [now rewrite E | now rewrite Sb]. }
    assert (Ef : field_tensor
                   (snd (extrapolate np_sqrt input_field particle_mask dx
                                     distance))
                 = fst (extrapolate_loops np_sqrt input_field particle_mask
                                          dx distance)).
    { unfold extrapolate.
      destruct (extrapolate_loops np_sqrt input_field particle_mask dx
                                  distance) as [e s].
      now destruct (is_staggered input_field). }
    rewrite Ef, Eloops, F3, P3 by exact Hin.
    subst st0. rewrite extrapolate_init_field.
    now apply bget_in_range.
  - intros k Hk. rewrite Eloops. now apply F2.
  - intros k Hk. rewrite <- Eloops in F1, F2. unfold extrapolate.
    destruct (extrapolate_loops np_sqrt input_field particle_mask dx
                                distance) as [e s].
    cbn [snd] in F1, F2. fold e0.
    assert (Hs : is_staggered input_field = false -> S = shape particle_mask).
    { intros E. subst S occ. unfold occupancy. now rewrite E. }
    destruct (is_staggered input_field) eqn:Est; cbn [fst].
    + cbn [getitem get]. rewrite F1, Ss, Hg.
      unfold spatial_rank. rewrite Hg, length_map.
      unfold in_range in Hk. rewrite !andb_true_iff in Hk.
      destruct Hk as [[Hk1 Hk2] Hk3].
      rewrite (trim_cell _ _ _ Hk2).
      apply F2. unfold in_range. cbn [ib cell ich].
      rewrite Sb, Ss, Sc, Hg, <- Hb, <- Hc, Hk1, Hk3.
      now rewrite (cell_in_stagger _ _ Hk2).
    + apply F2. now rewrite Hs.
Qed.

Lemma extrapolate_without_fluid_witness :
  bget (field_tensor
          (snd (extrapolate Toy.sqrt (Array (line [10; 20; 30]))
                            (line [0; 0; 0]) 1 2)))
       (mkIndex 0 [1%nat] 0)
  = 20.
Proof.
  apply (extrapolate_without_fluid Toy.sqrt (Array (line [10; 20; 30]))
           (line [0; 0; 0]) 1 2 (mkIndex 0 [1%nat] 0)); try reflexivity.
  - intros k Hk. apply indices_spec in Hk. vm_compute in Hk.
    repeat (destruct Hk as [<- | Hk]; [reflexivity|]). destruct Hk.
  - discriminate.
  - intros z. unfold Toy.sqrt. change 0 with (inject_Z 0).
    rewrite <- Zle_Qle. apply Z.sqrt_nonneg.
  - lia.
Defined.

(** ** The offsets of a sweep, one after the other *)

Lemma improves_get (signs d_dist s_distance : Tensor) (idx : Index) :
  shape d_dist = shape s_distance -> shape signs = shape s_distance ->
  in_range (shape s_distance) idx = true ->
  get (improves signs d_dist s_distance) idx
  = if Qltb (Qabs (get d_dist idx)) (Qabs (get s_distance idx))
       && Qle_bool 0 (get signs idx)
    then 1 else 0.
Proof.
  intros Hd Hs Hi. unfold improves, math.logical_and, math.less,
    math.greater_equal, math.abs.
  rewrite zip_get.
  - rewrite zip_get by (cbn [math.map shape]; congruence).
    cbn [math.map get].
    destruct (Qltb _ _), (Qle_bool 0 _); reflexivity.
  - rewrite zip_shape by (cbn [math.map shape]; congruence).
    cbn [math.map shape]. congruence.
  - rewrite zip_shape by (cbn [math.map shape]; congruence).
    cbn [math.map shape]. congruence.
Qed.

Lemma concat_repeat_get (u : Tensor) (n : nat) (idx : Index) :
  channels (shape u) = 1%nat -> (ich idx < n)%nat ->
  math.concat_get (repeat u n) idx
  = get u (mkIndex (ib idx) (cell idx) 0).
Proof.
  intros Hc. revert idx. induction n as [|n IH]; intros idx Hk; [lia|].
  cbn [repeat math.concat_get]. rewrite Hc.
  destruct (Nat.ltb_spec (ich idx) 1) as [H0 | H1].
  - destruct idx as [b c k]. cbn [ich] in H0. cbn [ib cell].
    now replace k with 0%nat by lia.
  - rewrite IH; [reflexivity|]. cbn [ich]. lia.
Qed.

Lemma drawn_from_self (e : Tensor) : drawn_from e e.
Proof.
  intros idx Hi. exists (cell idx). split; [now apply in_range_cell|].
  now rewrite at_cell_self.
Qed.

Lemma applies_fits (np_sqrt : Z -> Q) (dx : Q) (signs e s : Tensor)
  (ds : list (list Z)) :
  batch (shape s) = batch (shape e) ->
  spatial (shape s) = spatial (shape e) ->
  channels (shape s) = 1%nat ->
  channels (shape e) = spatial_rank e ->
  shape signs = shape s ->
  (1 <= spatial_rank e)%nat ->
  let st' := fold_left (fun st d => relax np_sqrt (seq 0 (spatial_rank e)) dx
                                          signs d st) ds (e, s) in
  shape (fst st') = shape e /\ shape (snd st') = shape s.
Proof.
  intros Hb Hs Hc He Hsg Hr. cbv zeta.
  assert (H : forall st, shape (fst st) = shape e -> shape (snd st) = shape s
                         -> drawn_from e (fst st) ->
              shape (fst (fold_left
                            (fun st d => relax np_sqrt
                                           (seq 0 (spatial_rank e)) dx signs
                                           d st) ds st)) = shape e
              /\ shape (snd (fold_left
                               (fun st d => relax np_sqrt
                                              (seq 0 (spatial_rank e)) dx
                                              signs d st) ds st)) = shape s).
  { induction ds as [|d ds IH]; intros st H1 H2 H3; [now split|].
    cbn [fold_left].
    destruct (relax_fits np_sqrt dx signs e (shape s) Hb Hs Hc He Hsg d st
                Hr H1 H2 H3) as (R1 & R2 & R3).
    now apply IH. }
  apply H; auto. apply drawn_from_self.
Qed.

Lemma relax_reads (np_sqrt : Z -> Q) (dx : Q) (signs : Tensor) (d : list Z)
  (e s : Tensor) (idx : Index) :
  batch (shape s) = batch (shape e) ->
  spatial (shape s) = spatial (shape e) ->
  channels (shape s) = 1%nat ->
  channels (shape e) = spatial_rank e ->
  shape signs = shape s ->
  (1 <= spatial_rank e)%nat ->
  in_range (shape e) idx = true ->
  let next := relax np_sqrt (seq 0 (spatial_rank e)) dx signs d (e, s) in
  let k := mkIndex (ib idx) (cell idx) 0 in
  let from := source_cell (spatial (shape e)) 0 d (cell idx) in
  let d_dist := get s (at_cell k from) + dx * np_sqrt (dot d d) * get signs k in
  let updates := Qltb (Qabs d_dist) (Qabs (get s k))
                 && Qle_bool 0 (get signs k) in
  get (snd next) k = (if updates then d_dist else get s k)
  /\ get (fst next) idx
     = (if updates then get e (at_cell idx from) else get e idx).
Proof.
  intros Hb Hs Hc He Hsg Hr Hi next k from d_dist updates.
  assert (Er : spatial_rank e = spatial_rank s)
    by (unfold spatial_rank; now rewrite Hs).
  assert (Hk : in_range (shape s) k = true).
  { unfold in_range in *. subst k. cbn [ib cell ich].
    rewrite !andb_true_iff in *. destruct Hi as [[H1 H2] H3].
    rewrite Hb, Hs, Hc. repeat split; auto. }
  set (dd := candidate np_sqrt (seq 0 (spatial_rank e)) dx signs d s).
  assert (Hdd : shape dd = shape s).
  { unfold dd. rewrite Er.
    apply (candidate_shape np_sqrt dx signs s (shape s)); auto. }
  assert (Gdd : get dd k = d_dist).
  { unfold dd, candidate, math.add2. rewrite Er.
    rewrite zip_get.
    - destruct (shifted_at d s k Hk) as [E _]. rewrite E.
      cbn [math.scale math.map get]. subst d_dist from k.
      cbn [cell]. now rewrite Hs.
    - cbn [math.scale math.map shape]. rewrite shifted_shape. congruence.
    - now rewrite shifted_shape. }
  assert (Gu : get (improves signs dd s) k = if updates then 1 else 0).
  { rewrite improves_get by assumption. now rewrite Gdd. }
  assert (Su : shape (improves signs dd s) = shape s)
    by (apply improves_shape; auto).
  subst next. unfold relax. cbn [fst snd]. fold dd. split.
  - assert (Hw : shape (math.where_ (improves signs dd s) dd s) = shape s).
    { cbn [math.where_ shape]. now rewrite Su, Hdd, !bshape_same. }
    rewrite <- (bget_in_range _ k) by now rewrite Hw.
    rewrite where_bget, Hw, (bidx_in_range _ _ Hk).
    rewrite (bget_in_range (improves signs dd s)) by now rewrite Su.
    rewrite Gu, !bget_in_range by (rewrite ?Hdd; exact Hk).
    rewrite Gdd. now destruct updates.
  - set (cond := math.concat (repeat (improves signs dd s)
                                     (spatial_rank e))).
    assert (Sc : shape cond
                 = mkShape (batch (shape s)) (spatial (shape s))
                           (spatial_rank e)).
    { unfold cond. rewrite (concat_shape _ (shape s)).
      - rewrite repeat_length, Hc. f_equal. lia.
      - apply List.Forall_forall. intros t Ht. apply repeat_spec in Ht.
        now subst t.
      - destruct (spatial_rank e); [lia | discriminate]. }
    assert (Hsh : shape (shifted (seq 0 (spatial_rank e)) d e) = shape e)
      by apply shifted_shape.
    assert (Hw : shape (math.where_ cond
                          (shifted (seq 0 (spatial_rank e)) d e) e)
                 = shape e).
    { cbn [math.where_ shape]. rewrite Sc, Hsh, bshape_same.
      unfold bshape. cbn [batch spatial channels].
      rewrite Hb, Hs, He, !bdim_same. rewrite <- He.
      now destruct (shape e). }
    assert (Hic : in_range (shape cond) idx = true).
    { rewrite Sc. unfold in_range in *. cbn [batch spatial channels].
      now rewrite Hb, Hs, <- He. }
    rewrite <- (bget_in_range _ idx) by now rewrite Hw.
    rewrite where_bget, Hw, (bidx_in_range _ _ Hi).
    rewrite (bget_in_range cond) by exact Hic.
    assert (Gc : get cond idx = if updates then 1 else 0).
    { unfold cond. cbn [math.concat get].
      rewrite concat_repeat_get.
      - exact Gu.
      - now rewrite Su.
      - unfold in_range in Hi. apply andb_true_iff in Hi as [_ Hi].
        apply Nat.ltb_lt in Hi. now rewrite He in Hi. }
    rewrite Gc, !bget_in_range by (rewrite ?Hsh; exact Hi).
    destruct (shifted_at d e idx Hi) as [E _]. rewrite E.
    now destruct updates.
Qed.

(** C2 (as amended): a sweep applies the [3^rank - 1] nonzero offsets one
    after the other, in the order of [directions], and every offset works on
    the arrays as the offsets before it in the same sweep have left them,
    [prev]: at a cell it reads the distance and the field of [prev] at the
    neighbour at offset [-d], compares the candidate with the distance of
    [prev] at the cell, and keeps the values of [prev] where the candidate
    does not improve or the cell is inside the fluid.  Only the first offset
    reads the arrays of the start of the sweep. *)
Theorem sweep_offsets_in_sequence (np_sqrt : Z -> Q) (dx : Q)
  (signs ext_field s_distance : Tensor) :
  batch (shape s_distance) = batch (shape ext_field) ->
  spatial (shape s_distance) = spatial (shape ext_field) ->
  channels (shape s_distance) = 1%nat ->
  channels (shape ext_field) = spatial_rank ext_field ->
  shape signs = shape s_distance ->
  let dims := seq 0 (spatial_rank ext_field) in
  let offsets := List.filter nonzero (directions dims) in
  let apply := fun st d => relax np_sqrt dims dx signs d st in
  length offsets = (3 ^ spatial_rank ext_field - 1)%nat
  /\ sweep np_sqrt dims dx signs (ext_field, s_distance)
     = fold_left apply offsets (ext_field, s_distance)
  /\ forall before d after,
       offsets = before ++ d :: after ->
       let prev := fold_left apply before (ext_field, s_distance) in
       let next := relax np_sqrt dims dx signs d prev in
       sweep np_sqrt dims dx signs (ext_field, s_distance)
       = fold_left apply after next
       /\ forall idx,
            in_range (shape ext_field) idx = true ->
            let k := mkIndex (ib idx) (cell idx) 0 in
            let from :=
              source_cell (spatial (shape ext_field)) 0 d (cell idx) in
            let d_dist := get (snd prev) (at_cell k from)
                          + dx * np_sqrt (dot d d) * get signs k in
            let updates := Qltb (Qabs d_dist) (Qabs (get (snd prev) k))
                           && Qle_bool 0 (get signs k) in
            get (snd next) k
            = (if updates then d_dist else get (snd prev) k)
            /\ get (fst next) idx
               = (if updates then get (fst prev) (at_cell idx from)
                  else get (fst prev) idx).
Proof.
  intros Hb Hs Hc He Hsg dims offsets apply.
  assert (E : sweep np_sqrt dims dx signs (ext_field, s_distance)
              = fold_left apply offsets (ext_field, s_distance))
    by apply sweep_filter.
  assert (Hlen : length offsets = (3 ^ spatial_rank ext_field - 1)%nat).
  { unfold offsets, dims, directions. rewrite nonzero_offsets_length.
    now rewrite length_seq. }
  split; [exact Hlen|]. split; [exact E|].
  intros before d after Hsplit prev next.
  split; [rewrite E, Hsplit; now rewrite fold_left_app|].
  assert (Hr : (1 <= spatial_rank ext_field)%nat).
  { destruct (spatial_rank ext_field); [|lia].
    rewrite Hsplit, length_app in Hlen. cbn in Hlen. lia. }
  destruct (applies_fits np_sqrt dx signs ext_field s_distance before
              Hb Hs Hc He Hsg Hr) as [P1 P2].
  fold dims in P1, P2. fold apply in P1, P2. fold prev in P1, P2.
  intros idx Hi.
  assert (Er : spatial_rank ext_field = spatial_rank (fst prev))
    by (unfold spatial_rank; now rewrite P1).
  pose proof (relax_reads np_sqrt dx signs d (fst prev) (snd prev) idx) as R.
  rewrite <- Er, P1, P2 in R. rewrite <- surjective_pairing in R.
  apply R; auto.
Qed.

Lemma sweep_offsets_in_sequence_witness :
  let st0 := extrapolate_init (Array Lab.row_velocity) (plane [[0; 0; 1]]) 1 in
  let signs := signs_of (plane [[0; 0; 1]]) in
  let offsets := List.filter nonzero (directions [0%nat; 1%nat]) in
  length offsets = 8%nat
  /\ sweep Lab.sqrt [0%nat; 1%nat] 1 signs st0
     = fold_left (fun st d => relax Lab.sqrt [0%nat; 1%nat] 1 signs d st)
                 offsets st0.
Proof.
  intros st0 signs offsets.
  destruct (sweep_offsets_in_sequence Lab.sqrt 1 signs (fst st0) (snd st0)
              eq_refl eq_refl eq_refl eq_refl eq_refl) as (H1 & H2 & _).
  split; [exact H1 | exact H2].
Defined.

(** C2, the claim as stated fails: on a grid of one row and three columns
    with fluid in the last cell, the first offset brings the distance of the
    middle cell down to [sqrt 2], and a later offset of the same sweep reads
    that distance and fills the first cell, at distance [1 + sqrt 2].  Read
    from the arrays of the start of the sweep, no offset improves on the
    distance of the first cell, and the sweep leaves it as it was.  (The
    values are shown in lowest terms.) *)
Lemma sweep_is_not_a_snapshot :
  let st0 := extrapolate_init (Array Lab.row_velocity) (plane [[0; 0; 1]]) 1 in
  let signs := signs_of (plane [[0; 0; 1]]) in
  let code := sweep Lab.sqrt [0%nat; 1%nat] 1 signs st0 in
  let snapshot := sweep_snapshot Lab.sqrt [0%nat; 1%nat] 1 signs st0 in
  entries (fst st0) = [10; 11; 20; 21; 30; 31]
  /\ entries (snd st0) = [4; 4; 0]
  /\ List.map Qred (entries (snd code)) = [1207 # 500; 1; 0]
  /\ List.map Qred (entries (fst code)) = [30; 31; 30; 31; 30; 31]
  /\ List.map Qred (entries (snd snapshot)) = [4; 1; 0]
  /\ List.map Qred (entries (fst snapshot)) = [10; 11; 30; 31; 30; 31].
Proof. vm_compute. repeat split. Qed.
